(** * Record collapse/merge engine (collapse-json-by-id.ts)

    A shallow embedding of the collapse/merge engine: JSON values as a
    tagged union, JavaScript objects as ordered entry lists that follow
    the own-property order of the language (array-index keys first, in
    ascending order, then the other keys in insertion order), [Map]s as
    insertion-ordered association lists, thrown exceptions as [None] or
    as the [inl] of a sum.

    Modelling conventions.
    - Strings are sequences of code units below 256 ([string]); the
      relational operators on strings compare code units, as in the
      language.
    - Numbers are the integer-valued numbers whose decimal form has no
      exponent ([Z]); [Number.isFinite] holds of all of them.
    - [Date.parse], [String.prototype.localeCompare] and [JSON.parse]
      belong to the runtime, not to the program: they are the fields of
      the class [Host], over which every definition and theorem is
      generic.  A concrete host ([iso_host]) is used to evaluate examples.
    - The [in] operator and property reads are modelled on own
      properties, and an assignment [o[k] = v] on the entries of [o]:
      this is the language on objects whose keys are outside the
      property names of [Object.prototype] ([own_names]), and on field
      names outside them ([inherited_name]).  A name among them is read
      through the prototype, and an assignment to [__proto__] creates no
      entry; the restriction is a hypothesis of the theorems that name
      it ([own_names], [repo_names], [modelled_record]).
    - [String(n)] is modelled on the integers of magnitude at most
      [2^53 - 1] ([safe_numbers]), a hypothesis of the theorems that
      name it. *)

From Stdlib Require Import List String Ascii ZArith NArith Bool Lia.
From Stdlib Require Import Permutation Sorted DecimalString.
From Stdlib Require OrderedTypeEx DecimalPos DecimalZ.
Import ListNotations.

Local Open Scope string_scope.
Local Open Scope Z_scope.
Local Open Scope list_scope.

(** ** JSON values *)

Unset Elimination Schemes.
Inductive JsonValue : Type :=
| JNull
| JBool (b : bool)
| JNumber (n : Z)
| JString (s : string)
| JArray (items : list JsonValue)
| JObject (entries : list (string * JsonValue)).
Set Elimination Schemes.

(** [JsonObject]: the entries of an object, in [Object.entries] order. *)
Definition JsonObject : Type := list (string * JsonValue).

Section JsonInduction.
Variable P : JsonValue -> Prop.
Hypothesis Hnull : P JNull.
Hypothesis Hbool : forall b, P (JBool b).
Hypothesis Hnum : forall n, P (JNumber n).
Hypothesis Hstr : forall s, P (JString s).
Hypothesis Harr : forall items, Forall P items -> P (JArray items).
Hypothesis Hobj :
  forall entries, Forall (fun kv => P (snd kv)) entries -> P (JObject entries).

Fixpoint JsonValue_ind (v : JsonValue) : P v :=
  match v with
  | JNull => Hnull
  | JBool b => Hbool b
  | JNumber n => Hnum n
  | JString s => Hstr s
  | JArray items =>
      Harr items
        ((fix go (l : list JsonValue) : Forall P l :=
            match l with
            | [] => Forall_nil _
            | x :: l' => Forall_cons x (JsonValue_ind x) (go l')
            end) items)
  | JObject entries =>
      Hobj entries
        ((fix go (l : list (string * JsonValue))
            : Forall (fun kv => P (snd kv)) l :=
            match l with
            | [] => Forall_nil _
            | kv :: l' =>
                @Forall_cons _ (fun kv => P (snd kv)) kv l'
                  (JsonValue_ind (snd kv)) (go l')
            end) entries)
  end.
End JsonInduction.

(** ** The runtime *)

Class Host : Type := {
  (** [Date.parse]: milliseconds since the epoch, [None] for [NaN]. *)
  Date_parse : string -> option Z;
  (** [a.localeCompare(b)]: the sign of the result. *)
  localeCompare : string -> string -> comparison;
  (** [JSON.parse]: [None] when a [SyntaxError] is thrown. *)
  JSON_parse : string -> option JsonValue
}.

(** ** Strings *)

Definition dquote : ascii := "034"%char.
Definition backslash : ascii := "092"%char.
Definition LF : ascii := "010"%char.
Definition CR : ascii := "013"%char.

(** White space of [String.prototype.trim], among the code units below 256. *)
Definition is_white_space (c : ascii) : bool :=
  let n := N_of_ascii c in
  ((9 <=? n) && (n <=? 13) || (n =? 32) || (n =? 160))%N.

Fixpoint trim_start (s : string) : string :=
  match s with
  | EmptyString => EmptyString
  | String c s' => if is_white_space c then trim_start s' else s
  end.

Fixpoint trim_end (s : string) : string :=
  match s with
  | EmptyString => EmptyString
  | String c s' =>
      match trim_end s' with
      | EmptyString => if is_white_space c then EmptyString else String c EmptyString
      | t => String c t
      end
  end.

Definition trim (s : string) : string := trim_end (trim_start s).

(** [s.trim().length === 0] *)
Definition is_blank (s : string) : bool :=
  match trim s with EmptyString => true | _ => false end.

(** [a > b] on strings. *)
Definition str_gtb (a b : string) : bool :=
  match String.compare a b with Gt => true | _ => false end.

Definition startsWith (s p : string) : bool := String.prefix p s.

(** [s.slice(n)] for [0 <= n]. *)
Definition slice_from (n : nat) (s : string) : string :=
  String.substring n (String.length s - n) s.

(** [String(n)] and [JSON.stringify(n)] of an integer-valued number of
    magnitude below [10^21], where the language prints all the digits
    and no exponent; the theorems that read the printed form take their
    numbers among the safe integers ([safe_numbers], below).  The
    non-finite numbers, which [JSON.stringify] prints as [null], are not
    values of [JsonValue]. *)
Definition number_to_string (n : Z) : string :=
  NilZero.string_of_int (Z.to_int n).

Definition hex_digit (n : N) : ascii :=
  ascii_of_N (if (n <? 10)%N then 48 + n else 87 + n)%N.

(** [QuoteJSONString] on one code unit. *)
Definition quote_char (c : ascii) : string :=
  let n := N_of_ascii c in
  if (n =? 8)%N then String backslash "b"
  else if (n =? 9)%N then String backslash "t"
  else if (n =? 10)%N then String backslash "n"
  else if (n =? 12)%N then String backslash "f"
  else if (n =? 13)%N then String backslash "r"
  else if (n =? 34)%N then String backslash (String dquote "")
  else if (n =? 92)%N then String backslash (String backslash "")
  else if (n <? 32)%N then
    String backslash
      (String "u" (String "0" (String "0"
         (String (hex_digit (n / 16)) (String (hex_digit (n mod 16)) "")))))
  else String c "".

Fixpoint quote_chars (s : string) : string :=
  match s with
  | EmptyString => EmptyString
  | String c s' => (quote_char c ++ quote_chars s')%string
  end.

(** [JSON.stringify(s)] of a string. *)
Definition JSON_quote (s : string) : string :=
  String dquote (quote_chars s ++ String dquote "")%string.

(** ** Objects *)

Definition isJsonObject (v : JsonValue) : bool :=
  match v with JObject _ => true | _ => false end.

Definition isArray (v : JsonValue) : bool :=
  match v with JArray _ => true | _ => false end.

Definition keys {A : Type} (o : list (string * A)) : list string := map fst o.

(** An array index is a canonical numeric string below [2^32 - 1]. *)
Definition array_index (k : string) : option N :=
  match NilEmpty.uint_of_string k with
  | Some d =>
      let n := N.of_uint d in
      if String.eqb k (NilZero.string_of_uint (N.to_uint n))
         && (n <? 4294967295)%N
      then Some n else None
  | None => None
  end.

Section Objects.
Context {A : Type}.

(** [o[k]], [None] for [undefined]. *)
Fixpoint obj_get (k : string) (o : list (string * A)) : option A :=
  match o with
  | [] => None
  | (k', v) :: o' => if String.eqb k k' then Some v else obj_get k o'
  end.

(** [k in o] *)
Fixpoint obj_has (k : string) (o : list (string * A)) : bool :=
  match o with
  | [] => false
  | (k', _) :: o' => String.eqb k k' || obj_has k o'
  end.

Fixpoint obj_replace (k : string) (v : A) (o : list (string * A))
  : list (string * A) :=
  match o with
  | [] => []
  | (k', v') :: o' =>
      if String.eqb k k' then (k', v) :: o' else (k', v') :: obj_replace k v o'
  end.

(** A new array-index key goes after the smaller array indices. *)
Fixpoint obj_insert_index (i : N) (k : string) (v : A) (o : list (string * A))
  : list (string * A) :=
  match o with
  | [] => [(k, v)]
  | (k', v') :: o' =>
      match array_index k' with
      | Some j =>
          if (j <? i)%N then (k', v') :: obj_insert_index i k v o'
          else (k, v) :: o
      | None => (k, v) :: o
      end
  end.

(** [o[k] = v]: an existing key keeps its place, a new array index is
    placed among the array indices, any other new key goes last. *)
Definition obj_set (k : string) (v : A) (o : list (string * A))
  : list (string * A) :=
  if obj_has k o then obj_replace k v o
  else match array_index k with
       | Some i => obj_insert_index i k v o
       | None => o ++ [(k, v)]
       end.
End Objects.

(** ** The domain of the model

    [obj_get], [obj_has] and [obj_set] are the reads, the [in] test and
    the assignment of the language on own properties.  They differ from
    the language on the property names of [Object.prototype]: such a
    name is found by a read and by [in] on every object, and the
    assignment [o["__proto__"] = v] creates no entry.  [own_names] holds
    of the values none of whose objects, at any depth, has one of these
    names among its keys. *)

Definition inherited_names : list string :=
  ["constructor"; "__defineGetter__"; "__defineSetter__"; "hasOwnProperty";
   "__lookupGetter__"; "__lookupSetter__"; "isPrototypeOf";
   "propertyIsEnumerable"; "toString"; "valueOf"; "__proto__";
   "toLocaleString"].

Definition inherited_name (k : string) : bool :=
  existsb (String.eqb k) inherited_names.

Fixpoint own_names (v : JsonValue) : bool :=
  match v with
  | JArray items => forallb own_names items
  | JObject entries =>
      forallb (fun ke => negb (inherited_name (fst ke)) && own_names (snd ke))
        entries
  | _ => true
  end.

(** [Number.isSafeInteger(n)] *)
Definition safe_integer (n : Z) : bool :=
  (-9007199254740991 <=? n) && (n <=? 9007199254740991).

(** The values all of whose numbers, at any depth, are safe integers:
    on them [number_to_string] is [String(n)], and distinct integers are
    distinct numbers of the language. *)
Fixpoint safe_numbers (v : JsonValue) : bool :=
  match v with
  | JNumber n => safe_integer n
  | JArray items => forallb safe_numbers items
  | JObject entries => forallb (fun ke => safe_numbers (snd ke)) entries
  | _ => true
  end.

(** The values on which the model is the program. *)
Definition modelled (v : JsonValue) : bool := own_names v && safe_numbers v.

(** The keys of the objects of a value, at every depth. *)
Fixpoint object_keys (v : JsonValue) : list string :=
  match v with
  | JArray items => flat_map object_keys items
  | JObject entries =>
      flat_map (fun ke => fst ke :: object_keys (snd ke)) entries
  | _ => []
  end.

(** ** Insertion-ordered maps ([Map<string, V>]) *)

Section OrderedMap.
Context {V : Type}.

Fixpoint map_get (k : string) (m : list (string * V)) : option V :=
  match m with
  | [] => None
  | (k', v) :: m' => if String.eqb k k' then Some v else map_get k m'
  end.

Fixpoint map_set (k : string) (v : V) (m : list (string * V)) : list (string * V) :=
  match m with
  | [] => [(k, v)]
  | (k', v') :: m' =>
      if String.eqb k k' then (k', v) :: m' else (k', v') :: map_set k v m'
  end.
End OrderedMap.

(** ** Serialization and keys *)

Section Engine.
Context {host : Host}.

(** The insertion step of the stable sort of entries by
    [keyA.localeCompare(keyB)]. *)
Fixpoint insert_entry {A : Type} (x : string * A) (l : list (string * A))
  : list (string * A) :=
  match l with
  | [] => [x]
  | y :: l' =>
      match localeCompare (fst x) (fst y) with
      | Gt => y :: insert_entry x l'
      | _ => x :: l
      end
  end.

(** [entries.sort(([keyA], [keyB]) => keyA.localeCompare(keyB))] *)
Definition sort_entries {A : Type} (l : list (string * A)) : list (string * A) :=
  fold_right insert_entry [] l.

(** The entries are serialized and then sorted; the source sorts and
    then serializes, which is the same list ([sort_entries_map]). *)
Fixpoint stableStringify (value : JsonValue) : string :=
  match value with
  | JNull => "null"
  | JBool b => if b then "true" else "false"
  | JNumber n => number_to_string n
  | JString s => JSON_quote s
  | JArray items =>
      ("[" ++ String.concat "," (map stableStringify items) ++ "]")%string
  | JObject entries =>
      ("{" ++
       String.concat ","
         (map (fun ke => (JSON_quote (fst ke) ++ ":" ++ snd ke)%string)
            (sort_entries
               (map (fun ke => (fst ke, stableStringify (snd ke))) entries)))
       ++ "}")%string
  end.

Definition buildIdKey (value : JsonValue) : string :=
  match value with
  | JNull => "null"
  | JString s => s
  | JNumber n => number_to_string n
  | JBool b => if b then "true" else "false"
  | _ => stableStringify value
  end.

Definition isMeaninglessMetadata (value : JsonValue) : bool :=
  match value with
  | JNull => true
  | JString s => is_blank s
  | _ => false
  end.

Definition isMeaningless (value : JsonValue) : bool :=
  match value with
  | JNull => true
  | JString s => is_blank s
  | _ => false
  end.

Definition isInternalKey (key : string) : bool := startsWith key "_dlt".

(** [result[key] = cloneJsonValue(item)] for each entry: on the values
    of [own_names] every assignment creates or replaces an own entry, as
    [obj_set] does (an assignment to [__proto__] would create none). *)
Fixpoint cloneJsonValue (value : JsonValue) : JsonValue :=
  match value with
  | JArray items => JArray (map cloneJsonValue items)
  | JObject entries =>
      JObject
        (fold_left
           (fun result ke => obj_set (fst ke) (cloneJsonValue (snd ke)) result)
           entries [])
  | _ => value
  end.

(** As [cloneJsonValue] on an object: for the objects of [own_names]. *)
Definition cloneJsonObject (value : JsonObject) : JsonObject :=
  fold_left
    (fun result ke => obj_set (fst ke) (cloneJsonValue (snd ke)) result)
    value [].

(** ** Freshness comparison *)

Definition toTimestamp (value : JsonValue) : option Z :=
  match value with
  | JNumber n => Some n
  | JString s => Date_parse s
  | _ => None
  end.

Definition toComparableString (value : JsonValue) : string :=
  match value with
  | JNull => ""
  | JString s => s
  | JNumber n => number_to_string n
  | JBool b => if b then "true" else "false"
  | _ => stableStringify value
  end.

Definition compare_strings (next current : string) : Z :=
  if String.eqb next current then 0
  else if str_gtb next current then 1 else -1.

Definition compareMetadata (nextValue currentValue : JsonValue) : Z :=
  let nextComparable := toComparableString nextValue in
  let currentComparable := toComparableString currentValue in
  match toTimestamp nextValue, toTimestamp currentValue with
  | Some nextTimestamp, Some currentTimestamp =>
      if negb (nextTimestamp =? currentTimestamp) then
        if nextTimestamp >? currentTimestamp then 1 else -1
      else compare_strings nextComparable currentComparable
  | _, _ => compare_strings nextComparable currentComparable
  end.

(** ** Field merge *)

(** The closure [addValue] of [mergeField], on the pair of the set
    [seen] and the list [values]. *)
Definition addValue (st : list string * list JsonValue) (value : JsonValue)
  : list string * list JsonValue :=
  if isMeaningless value then st
  else
    let key := stableStringify value in
    if existsb (String.eqb key) (fst st) then st
    else (fst st ++ [key], snd st ++ [cloneJsonValue value]).

(** [Array.isArray(v) ? v.forEach(addValue) : addValue(v)] *)
Definition addValues (st : list string * list JsonValue) (v : JsonValue)
  : list string * list JsonValue :=
  match v with
  | JArray items => fold_left addValue items st
  | _ => addValue st v
  end.

Definition mergeField (existing : option JsonValue) (incoming : JsonValue)
  : JsonValue :=
  let st1 :=
    match existing with
    | Some e => addValues ([], []) e
    | None => ([], [])
    end in
  let values := snd (addValues st1 incoming) in
  match values with
  | [] =>
      match existing with
      | None | Some JNull => JArray []
      | Some e => e
      end
  | [v] => v
  | _ => JArray values
  end.
(** ** Repository entries *)

(** [sanitized[key] = cloneJsonValue(entry)] for the keys that are not
    internal: for the objects of [own_names]. *)
Definition sanitizeRepositoryObject (value : JsonObject) : JsonObject :=
  fold_left
    (fun sanitized ke =>
       if isInternalKey (fst ke) then sanitized
       else obj_set (fst ke) (cloneJsonValue (snd ke)) sanitized)
    value [].

(** [value.filter(isJsonObject)] *)
Fixpoint filter_objects (items : list JsonValue) : list JsonObject :=
  match items with
  | [] => []
  | JObject o :: items' => o :: filter_objects items'
  | _ :: items' => filter_objects items'
  end.

Definition normalizeRepositoryCollection (value : JsonValue) : list JsonObject :=
  match value with
  | JArray items => map sanitizeRepositoryObject (filter_objects items)
  | JObject o => [sanitizeRepositoryObject o]
  | _ => []
  end.

Definition normalizeRepositoryValue (value : JsonValue) : list JsonValue :=
  match value with
  | JArray items => filter (fun item => negb (isMeaningless item)) items
  | _ => if isMeaningless value then [] else [value]
  end.

(** The first loop of [buildRepositoryObjects], on the pair of
    [normalized] and [maxLength]. *)
Definition normalize_step (st : list (string * list JsonValue) * nat)
  (ke : string * JsonValue) : list (string * list JsonValue) * nat :=
  let values := normalizeRepositoryValue (snd ke) in
  match values with
  | [] => st
  | _ =>
      (obj_set (fst ke) values (fst st),
       if (snd st <? List.length values)%nat then List.length values else snd st)
  end.

(** [a ?? b] *)
Definition nullish_or (a b : option JsonValue) : option JsonValue :=
  match a with
  | None | Some JNull => b
  | Some _ => a
  end.

(** The body of the second loop: the repository built at [index]. *)
Definition repository_at (normalized : list (string * list JsonValue))
  (index : nat) : JsonObject :=
  fold_left
    (fun repository kvs =>
       let values := snd kvs in
       match nullish_or (nth_error values index)
               (if (List.length values =? 1)%nat then nth_error values 0 else None)
       with
       | Some value => obj_set (fst kvs) (cloneJsonValue value) repository
       | None => repository
       end)
    normalized [].

Definition buildRepositoryObjects (repoFields : JsonObject) : list JsonObject :=
  let st := fold_left normalize_step repoFields ([], 0%nat) in
  let normalized := fst st in
  let maxLength := snd st in
  if (maxLength =? 0)%nat then []
  else
    flat_map
      (fun index =>
         match repository_at normalized index with
         | [] => []
         | repository => [repository]
         end)
      (seq 0 maxLength).

Record Extracted : Type := {
  repoFields : JsonObject;
  repoObjects : list JsonObject;
  otherEntries : list (string * JsonValue)
}.

(** One turn of the loop of [extractRepositoryEntries].  The assignment
    [repoFields[trimmedKey] = value] creates or replaces an own entry
    for every attribute name but [__proto__]: the field [repo___proto__]
    is outside the model ([repo_names]). *)
Definition extract_step (st : Extracted) (ke : string * JsonValue) : Extracted :=
  let key := fst ke in
  let value := snd ke in
  if isInternalKey key then st
  else if String.eqb key "repositories" then
    {| repoFields := repoFields st;
       repoObjects := repoObjects st ++ normalizeRepositoryCollection value;
       otherEntries := otherEntries st |}
  else if startsWith key "repo_" then
    let trimmedKey := slice_from 5 key in
    if (0 <? String.length trimmedKey)%nat then
      {| repoFields := obj_set trimmedKey value (repoFields st);
         repoObjects := repoObjects st;
         otherEntries := otherEntries st |}
    else st
  else
    {| repoFields := repoFields st;
       repoObjects := repoObjects st;
       otherEntries := otherEntries st ++ [(key, value)] |}.

Definition extract_loop (record : JsonObject) : Extracted :=
  fold_left extract_step record
    {| repoFields := []; repoObjects := []; otherEntries := [] |}.

(** The attribute names of the [repo_] fields of a record are outside
    the property names of [Object.prototype]. *)
Definition repo_names (record : JsonObject) : bool :=
  forallb
    (fun ke =>
       negb (startsWith (fst ke) "repo_")
       || negb (inherited_name (slice_from 5 (fst ke))))
    record.

(** The records on which the model is the program. *)
Definition modelled_record (record : JsonValue) : bool :=
  modelled record
  && match record with
     | JObject fields => repo_names fields
     | _ => true
     end.

(** [extractRepositoryEntries], as the pair [(repoEntries, otherEntries)]. *)
Definition extractRepositoryEntries (record : JsonObject)
  : list JsonObject * list (string * JsonValue) :=
  let st := extract_loop record in
  (repoObjects st ++ buildRepositoryObjects (repoFields st), otherEntries st).

(** [typeof v === 'string' && v.trim().length > 0], giving [v.trim()]. *)
Definition trimmed_string (v : option JsonValue) : option string :=
  match v with
  | Some (JString s) => if is_blank s then None else Some (trim s)
  | _ => None
  end.

Definition buildRepositoryKey (repository : JsonObject) : string :=
  match trimmed_string (obj_get "url" repository) with
  | Some url => ("url:" ++ url)%string
  | None =>
      match trimmed_string (obj_get "id" repository) with
      | Some id => ("id:" ++ id)%string
      | None =>
          match trimmed_string (obj_get "type" repository) with
          | Some type => ("type:" ++ type)%string
          | None => ("anon:" ++ stableStringify (JObject repository))%string
          end
      end
  end.

(** [target[key] = mergeField(target[key], value)].  The read is of the
    own entries of [target] and the assignment creates or replaces an
    own entry: this is the language for the keys outside the property
    names of [Object.prototype] ([inherited_name]), which a read finds
    on every object. *)
Definition merge_entry (merged : JsonObject) (ke : string * JsonValue) : JsonObject :=
  obj_set (fst ke) (mergeField (obj_get (fst ke) merged) (snd ke)) merged.

(** The closure [upsert] of [mergeRepositories], on the pair of [byKey]
    and [order]. *)
Definition upsert (st : list (string * JsonObject) * list string)
  (value : JsonValue) : list (string * JsonObject) * list string :=
  match value with
  | JObject o =>
      match sanitizeRepositoryObject o with
      | [] => st
      | sanitized =>
          let key := buildRepositoryKey sanitized in
          match map_get key (fst st) with
          | None =>
              (map_set key (cloneJsonObject sanitized) (fst st), snd st ++ [key])
          | Some existingRepo =>
              (map_set key (fold_left merge_entry sanitized existingRepo) (fst st),
               snd st)
          end
      end
  | _ => st
  end.

Definition upsert_all (st : list (string * JsonObject) * list string)
  (existing : JsonValue) : list (string * JsonObject) * list string :=
  match existing with
  | JArray items => fold_left upsert items st
  | _ => upsert st existing
  end.

(** Every key of [order] is bound in [byKey]; the unbound case is not
    reached. *)
Definition emit_repositories (st : list (string * JsonObject) * list string)
  : list JsonObject :=
  flat_map
    (fun key =>
       match map_get key (fst st) with
       | Some repo => [cloneJsonObject repo]
       | None => []
       end)
    (snd st).

Definition mergeRepositories (existing : option JsonValue)
  (incoming : list JsonObject) : JsonValue :=
  let st0 :=
    match existing with
    | Some e => upsert_all ([], []) e
    | None => ([], [])
    end in
  JArray (map JObject (emit_repositories (fold_left upsert (map JObject incoming) st0))).

(** ** Merging a group *)

(** The loop of [mergeGroupRecords], on the pair of [merged] and
    [repositoryAccumulator]. *)
Definition merge_record (st : JsonObject * list JsonObject) (record : JsonObject)
  : JsonObject * list JsonObject :=
  let ex := extractRepositoryEntries record in
  (fold_left merge_entry (snd ex) (fst st), snd st ++ fst ex).

Definition mergeGroupRecords (records : list JsonObject) : JsonObject :=
  let st := fold_left merge_record records ([], []) in
  let merged := fst st in
  match snd st with
  | [] => merged
  | repositoryAccumulator =>
      obj_set "repositories"
        (mergeRepositories (obj_get "repositories" merged) repositoryAccumulator)
        merged
  end.

(** ** Collapsing *)

Record Group : Type := { metadata : JsonValue; records : list JsonObject }.

Record CollapseSummary : Type := {
  totalRecords : Z;
  uniqueIds : Z;
  usedRecords : Z;
  mergedRecords : Z;
  missingId : Z;
  missingMetadata : Z;
  olderRecordsSkipped : Z
}.

(** The variables of the first loop of [collapseRecords]. *)
Record Tally : Type := {
  byId : list (string * Group);
  n_missingId : Z;
  n_missingMetadata : Z;
  n_olderRecordsSkipped : Z
}.

Definition collapse_step (idField metadataField : string) (st : Tally)
  (record : JsonValue) : Tally :=
  let skip_id :=
    {| byId := byId st; n_missingId := n_missingId st + 1;
       n_missingMetadata := n_missingMetadata st;
       n_olderRecordsSkipped := n_olderRecordsSkipped st |} in
  let skip_metadata :=
    {| byId := byId st; n_missingId := n_missingId st;
       n_missingMetadata := n_missingMetadata st + 1;
       n_olderRecordsSkipped := n_olderRecordsSkipped st |} in
  let keep (groups : list (string * Group)) (older : Z) :=
    {| byId := groups; n_missingId := n_missingId st;
       n_missingMetadata := n_missingMetadata st;
       n_olderRecordsSkipped := n_olderRecordsSkipped st + older |} in
  match record with
  | JObject fields =>
      match obj_get idField fields with
      | None => skip_id
      | Some idValue =>
          match obj_get metadataField fields with
          | None => skip_metadata
          | Some metadataValue =>
              if isMeaninglessMetadata metadataValue then skip_metadata
              else
                let idKey := buildIdKey idValue in
                match map_get idKey (byId st) with
                | None =>
                    keep (map_set idKey
                            {| metadata := metadataValue; records := [fields] |}
                            (byId st)) 0
                | Some existing =>
                    let comparison :=
                      compareMetadata metadataValue (metadata existing) in
                    if comparison >? 0 then
                      keep (map_set idKey
                              {| metadata := metadataValue; records := [fields] |}
                              (byId st))
                        (Z.of_nat (List.length (records existing)))
                    else if comparison =? 0 then
                      keep (map_set idKey
                              {| metadata := metadata existing;
                                 records := records existing ++ [fields] |}
                              (byId st)) 0
                    else keep (byId st) 1
                end
          end
      end
  | _ => skip_id
  end.

Definition collapse_loop (idField metadataField : string)
  (input : list JsonValue) : Tally :=
  fold_left (collapse_step idField metadataField) input
    {| byId := []; n_missingId := 0; n_missingMetadata := 0;
       n_olderRecordsSkipped := 0 |}.

Definition collapseRecords (input : list JsonValue)
  (idField metadataField : string) : list JsonObject * CollapseSummary :=
  let st := collapse_loop idField metadataField input in
  let groups := map snd (byId st) in
  let collapsed := map (fun g => mergeGroupRecords (records g)) groups in
  let used :=
    fold_left (fun n g => n + Z.of_nat (List.length (records g))) groups 0 in
  (collapsed,
   {| totalRecords := Z.of_nat (List.length input);
      uniqueIds := Z.of_nat (List.length collapsed);
      usedRecords := used;
      mergedRecords := used - Z.of_nat (List.length collapsed);
      missingId := n_missingId st;
      missingMetadata := n_missingMetadata st;
      olderRecordsSkipped := n_olderRecordsSkipped st |}).

(** ** Funding entries *)

(** Exceptions abort the run: a computation that may throw returns an
    option, and [x <- c ;; k] propagates the throw. *)
Definition bind {A B : Type} (c : option A) (k : A -> option B) : option B :=
  match c with
  | Some a => k a
  | None => None
  end.

Notation "x <- c ;; k" := (bind c (fun x => k))
  (at level 61, c at next level, right associativity).

(** [sanitized[key] = cloneJsonValue(value)] for the keys that are not
    internal: for the objects of [own_names]. *)
Definition sanitizeFundingRecord (record : JsonObject) : JsonObject :=
  fold_left
    (fun sanitized ke =>
       if isInternalKey (fst ke) then sanitized
       else obj_set (fst ke) (cloneJsonValue (snd ke)) sanitized)
    record [].

(** [sanitized[key] = cloneJsonValue(value)] for the keys other than
    [id] and [project_id]: for the objects of [own_names]. *)
Definition removeFundingInternalKeys (record : JsonObject) : JsonObject :=
  fold_left
    (fun sanitized ke =>
       if String.eqb (fst ke) "id" || String.eqb (fst ke) "project_id"
       then sanitized
       else obj_set (fst ke) (cloneJsonValue (snd ke)) sanitized)
    record [].

Definition createFundingKey (roundId : option JsonValue) (record : JsonObject)
  : string :=
  match trimmed_string roundId with
  | Some r => ("round:" ++ r)%string
  | None => ("entry:" ++ stableStringify (JObject record))%string
  end.

(** [toTimestamp] of a property that may be [undefined]. *)
Definition toTimestamp_of (v : option JsonValue) : option Z :=
  match v with
  | Some value => toTimestamp value
  | None => None
  end.

(** [toComparableString] of a property that may be [undefined]: on
    [undefined] it falls through to [stableStringify], where
    [Object.entries(undefined)] throws a [TypeError]. *)
Definition toComparableString_of (v : option JsonValue) : option string :=
  match v with
  | Some value => Some (toComparableString value)
  | None => None
  end.

Definition pickLatestByUpdatedAt (left right : JsonObject) : option JsonObject :=
  match toTimestamp_of (obj_get "updated_at" left),
        toTimestamp_of (obj_get "updated_at" right) with
  | Some leftTimestamp, Some rightTimestamp =>
      Some (if rightTimestamp >? leftTimestamp then right else left)
  | _, _ =>
      leftComparable <- toComparableString_of (obj_get "updated_at" left) ;;
      rightComparable <- toComparableString_of (obj_get "updated_at" right) ;;
      if String.eqb leftComparable rightComparable then Some right
      else Some (if str_gtb rightComparable leftComparable then right else left)
  end.

(** The closure [addEntry] of [mergeFundingEntries], on the map [seen]. *)
Definition addEntry (seen : list (string * JsonObject)) (value : JsonValue)
  : option (list (string * JsonObject)) :=
  match value with
  | JObject o =>
      match sanitizeFundingRecord o with
      | [] => Some seen
      | sanitized =>
          let normalizedKey :=
            createFundingKey (obj_get "round_id" sanitized) sanitized in
          match map_get normalizedKey seen with
          | None => Some (map_set normalizedKey sanitized seen)
          | Some existingEntry =>
              choice <- pickLatestByUpdatedAt existingEntry sanitized ;;
              Some (map_set normalizedKey choice seen)
          end
      end
  | _ => Some seen
  end.

Fixpoint addEntries (seen : list (string * JsonObject)) (values : list JsonValue)
  : option (list (string * JsonObject)) :=
  match values with
  | [] => Some seen
  | value :: values' => seen' <- addEntry seen value ;; addEntries seen' values'
  end.

Definition mergeFundingEntries (existing : option JsonValue)
  (incoming : list JsonObject) : option (list JsonObject) :=
  seen1 <- match existing with
           | None => Some []
           | Some (JArray items) => addEntries [] items
           | Some e => addEntry [] e
           end ;;
  seen2 <- addEntries seen1 (map JObject incoming) ;;
  Some (map (fun e => removeFundingInternalKeys (snd e)) seen2).

Definition attach_record (fundingById : list (string * list JsonObject))
  (idField targetField : string) (record : JsonObject) : option JsonObject :=
  match obj_get idField record with
  | None => Some record
  | Some identifier =>
      match map_get (buildIdKey identifier) fundingById with
      | None | Some [] => Some record
      | Some fundingEntries =>
          merged <- mergeFundingEntries (obj_get targetField record) fundingEntries ;;
          Some (obj_set targetField (JArray (map JObject merged)) record)
      end
  end.

Fixpoint attachFundingData (input : list JsonObject)
  (fundingById : list (string * list JsonObject)) (idField targetField : string)
  : option (list JsonObject) :=
  match input with
  | [] => Some []
  | record :: input' =>
      record' <- attach_record fundingById idField targetField record ;;
      rest <- attachFundingData input' fundingById idField targetField ;;
      Some (record' :: rest)
  end.

Fixpoint applyFundingAttachments (input : list JsonObject) (idField : string)
  (attachments : list (string * option (list (string * list JsonObject))))
  : option (list JsonObject) :=
  match attachments with
  | [] => Some input
  | (field, None) :: attachments' =>
      applyFundingAttachments input idField attachments'
  | (field, Some dataset) :: attachments' =>
      input' <- attachFundingData input dataset idField field ;;
      applyFundingAttachments input' idField attachments'
  end.

(** ** Parsing *)

Inductive ParseFailure : Type :=
| SyntaxError
| ExpectedArrayOrNdjson.

(** [s.split(/\r?\n/)] *)
Fixpoint split_lines (s : string) : list string :=
  match s with
  | EmptyString => [EmptyString]
  | String c s' =>
      if Ascii.eqb c LF then EmptyString :: split_lines s'
      else if Ascii.eqb c CR && startsWith s' (String LF "") then split_lines s'
      else match split_lines s' with
           | line :: rest => String c line :: rest
           | [] => [String c EmptyString]
           end
  end.

(** [lines.map((line) => JSON.parse(line))] *)
Fixpoint parse_lines (lines : list string) : option (list JsonValue) :=
  match lines with
  | [] => Some []
  | line :: lines' =>
      v <- JSON_parse line ;;
      rest <- parse_lines lines' ;;
      Some (v :: rest)
  end.

Definition parseRecords (raw : string) : ParseFailure + list JsonValue :=
  let trimmed := trim raw in
  match trimmed with
  | EmptyString => inr []
  | _ =>
      match JSON_parse trimmed with
      | Some (JArray parsed) => inr parsed
      | Some _ => inl ExpectedArrayOrNdjson
      | None =>
          let lines :=
            filter (fun line => (0 <? String.length line)%nat)
              (map trim (split_lines trimmed)) in
          match parse_lines lines with
          | None => inl SyntaxError
          | Some parsed =>
              if forallb isJsonObject parsed then inr parsed
              else inl SyntaxError
          end
      end
  end.

End Engine.

(** ** A concrete runtime for examples *)

Module IsoHost.

Definition digit_of (c : ascii) : option Z :=
  let n := N_of_ascii c in
  if ((48 <=? n) && (n <=? 57))%N then Some (Z.of_N n - 48) else None.

(** The value of a non-empty run of decimal digits. *)
Fixpoint digits_value (acc : Z) (cs : list ascii) : option Z :=
  match cs with
  | [] => Some acc
  | c :: cs' =>
      match digit_of c with
      | Some d => digits_value (10 * acc + d) cs'
      | None => None
      end
  end.

Definition number_of (cs : list ascii) : option Z :=
  match cs with
  | [] => None
  | _ => digits_value 0 cs
  end.

Definition is_leap (y : Z) : bool :=
  ((y mod 4 =? 0) && negb (y mod 100 =? 0)) || (y mod 400 =? 0).

Definition days_in_month (y m : Z) : Z :=
  if m =? 2 then (if is_leap y then 29 else 28)
  else if (m =? 4) || (m =? 6) || (m =? 9) || (m =? 11) then 30 else 31.

(** Days from 1970-01-01 to the given day of the proleptic Gregorian
    calendar. *)
Definition days_from_civil (y m d : Z) : Z :=
  let y' := if m <=? 2 then y - 1 else y in
  let era := y' / 400 in
  let yoe := y' - era * 400 in
  let mp := if m >? 2 then m - 3 else m + 9 in
  let doy := (153 * mp + 2) / 5 + d - 1 in
  let doe := yoe * 365 + yoe / 4 - yoe / 100 + doy in
  era * 146097 + doe - 719468.

Definition date_ms (y m d : list ascii) : option Z :=
  match number_of y, number_of m, number_of d with
  | Some yv, Some mv, Some dv =>
      if (1 <=? mv) && (mv <=? 12) && (1 <=? dv) && (dv <=? days_in_month yv mv)
      then Some (days_from_civil yv mv dv * 86400000)
      else None
  | _, _, _ => None
  end.

Definition time_ms (h mi s ms : list ascii) : option Z :=
  match number_of h, number_of mi, number_of s, number_of ms with
  | Some hv, Some mv, Some sv, Some msv =>
      if (hv <=? 23) && (mv <=? 59) && (sv <=? 59)
      then Some (((hv * 60 + mv) * 60 + sv) * 1000 + msv)
      else None
  | _, _, _, _ => None
  end.

Definition add_ms (a b : option Z) : option Z :=
  match a, b with
  | Some x, Some y => Some (x + y)
  | _, _ => None
  end.

(** The date-only form [YYYY-MM-DD] and the UTC forms
    [YYYY-MM-DDTHH:mm:ssZ] and [YYYY-MM-DDTHH:mm:ss.sssZ] of the
    date-time string format of the language; [None] on any other
    string. *)
Definition iso_date_parse (s : string) : option Z :=
  match list_ascii_of_string s with
  | [y1; y2; y3; y4; "-"; m1; m2; "-"; d1; d2]%char =>
      date_ms [y1; y2; y3; y4] [m1; m2] [d1; d2]
  | [y1; y2; y3; y4; "-"; m1; m2; "-"; d1; d2; "T";
     h1; h2; ":"; i1; i2; ":"; s1; s2; "Z"]%char =>
      add_ms (date_ms [y1; y2; y3; y4] [m1; m2] [d1; d2])
        (time_ms [h1; h2] [i1; i2] [s1; s2] ["0"%char])
  | [y1; y2; y3; y4; "-"; m1; m2; "-"; d1; d2; "T";
     h1; h2; ":"; i1; i2; ":"; s1; s2; "."; f1; f2; f3; "Z"]%char =>
      add_ms (date_ms [y1; y2; y3; y4] [m1; m2] [d1; d2])
        (time_ms [h1; h2] [i1; i2] [s1; s2] [f1; f2; f3])
  | _ => None
  end.

(** *** A JSON reader

    Integer numbers without exponent, strings with the escapes of the
    grammar (code units below 256), arrays and objects.  A repeated
    member name overwrites the earlier value, as property assignment
    does. *)

Definition is_json_space (c : ascii) : bool :=
  let n := N_of_ascii c in
  ((n =? 32) || (n =? 9) || (n =? 10) || (n =? 13))%N.

Fixpoint skip_ws (cs : list ascii) : list ascii :=
  match cs with
  | c :: cs' => if is_json_space c then skip_ws cs' else cs
  | [] => []
  end.

Definition hex_value (c : ascii) : option N :=
  let n := N_of_ascii c in
  if ((48 <=? n) && (n <=? 57))%N then Some (n - 48)%N
  else if ((97 <=? n) && (n <=? 102))%N then Some (n - 87)%N
  else if ((65 <=? n) && (n <=? 70))%N then Some (n - 55)%N
  else None.

(** The characters of a string literal after its opening quote. *)
Fixpoint read_string (cs : list ascii) : option (string * list ascii) :=
  match cs with
  | [] => None
  | c :: cs' =>
      if Ascii.eqb c dquote then Some (EmptyString, cs')
      else if Ascii.eqb c backslash then
        match cs' with
        | e :: cs'' =>
            let plain (x : ascii) :=
              match read_string cs'' with
              | Some (s, r) => Some (String x s, r)
              | None => None
              end in
            if Ascii.eqb e dquote then plain dquote
            else if Ascii.eqb e backslash then plain backslash
            else if Ascii.eqb e "/" then plain "/"%char
            else if Ascii.eqb e "b" then plain "008"%char
            else if Ascii.eqb e "f" then plain "012"%char
            else if Ascii.eqb e "n" then plain LF
            else if Ascii.eqb e "r" then plain CR
            else if Ascii.eqb e "t" then plain "009"%char
            else if Ascii.eqb e "u" then
              match cs'' with
              | "0"%char :: "0"%char :: h1 :: h2 :: r =>
                  match hex_value h1, hex_value h2, read_string r with
                  | Some a, Some b, Some (s, r') =>
                      Some (String (ascii_of_N (16 * a + b)) s, r')
                  | _, _, _ => None
                  end
              | _ => None
              end
            else None
        | [] => None
        end
      else if (N_of_ascii c <? 32)%N then None
      else match read_string cs' with
           | Some (s, r) => Some (String c s, r)
           | None => None
           end
  end.

Fixpoint span_digits (cs : list ascii) : list ascii * list ascii :=
  match cs with
  | c :: cs' =>
      match digit_of c with
      | Some _ => let (ds, r) := span_digits cs' in (c :: ds, r)
      | None => ([], cs)
      end
  | [] => ([], [])
  end.

(** An integer literal: no leading zero, no fraction, no exponent. *)
Definition read_number (cs : list ascii) : option (Z * list ascii) :=
  let (negative, body) :=
    match cs with
    | "-"%char :: r => (true, r)
    | _ => (false, cs)
    end in
  let (ds, r) := span_digits body in
  match ds, r with
  | _, ("."%char | "e"%char | "E"%char) :: _ => None
  | "0"%char :: _ :: _, _ => None
  | _, _ =>
      match number_of ds with
      | Some n => Some (if negative then - n else n, r)
      | None => None
      end
  end.

Definition read_literal (word : string) (v : JsonValue) (cs : list ascii)
  : option (JsonValue * list ascii) :=
  let w := list_ascii_of_string word in
  if String.eqb (string_of_list_ascii (firstn (List.length w) cs)) word
  then Some (v, skipn (List.length w) cs) else None.

Fixpoint read_value (fuel : nat) (cs : list ascii) {struct fuel}
  : option (JsonValue * list ascii) :=
  match fuel with
  | O => None
  | S fuel' =>
      match skip_ws cs with
      | "["%char :: r =>
          match skip_ws r with
          | "]"%char :: r' => Some (JArray [], r')
          | _ => read_elements fuel' r []
          end
      | "{"%char :: r =>
          match skip_ws r with
          | "}"%char :: r' => Some (JObject [], r')
          | _ => read_members fuel' r []
          end
      | "n"%char :: _ => read_literal "null" JNull (skip_ws cs)
      | "t"%char :: _ => read_literal "true" (JBool true) (skip_ws cs)
      | "f"%char :: _ => read_literal "false" (JBool false) (skip_ws cs)
      | c :: r =>
          if Ascii.eqb c dquote then
            match read_string r with
            | Some (s, r') => Some (JString s, r')
            | None => None
            end
          else
            match read_number (c :: r) with
            | Some (n, r') => Some (JNumber n, r')
            | None => None
            end
      | [] => None
      end
  end
with read_elements (fuel : nat) (cs : list ascii) (acc : list JsonValue)
  {struct fuel} : option (JsonValue * list ascii) :=
  match fuel with
  | O => None
  | S fuel' =>
      match read_value fuel' cs with
      | Some (v, r) =>
          match skip_ws r with
          | ","%char :: r' => read_elements fuel' r' (acc ++ [v])
          | "]"%char :: r' => Some (JArray (acc ++ [v]), r')
          | _ => None
          end
      | None => None
      end
  end
with read_members (fuel : nat) (cs : list ascii) (acc : JsonObject)
  {struct fuel} : option (JsonValue * list ascii) :=
  match fuel with
  | O => None
  | S fuel' =>
      match skip_ws cs with
      | c :: r =>
          if Ascii.eqb c dquote then
            match read_string r with
            | Some (k, r1) =>
                match skip_ws r1 with
                | ":"%char :: r2 =>
                    match read_value fuel' r2 with
                    | Some (v, r3) =>
                        match skip_ws r3 with
                        | ","%char :: r4 => read_members fuel' r4 (obj_set k v acc)
                        | "}"%char :: r4 => Some (JObject (obj_set k v acc), r4)
                        | _ => None
                        end
                    | None => None
                    end
                | _ => None
                end
            | None => None
            end
          else None
      | [] => None
      end
  end.

Definition json_read (s : string) : option JsonValue :=
  let cs := list_ascii_of_string s in
  match read_value (2 * List.length cs + 2) cs with
  | Some (v, r) =>
      match skip_ws r with
      | [] => Some v
      | _ => None
      end
  | None => None
  end.

(** Code-unit order: the order of the root collation on keys made of
    lower-case letters, which is what the examples use. *)
#[export] Instance iso_host : Host := {
  Date_parse := iso_date_parse;
  localeCompare := String.compare;
  JSON_parse := json_read
}.

End IsoHost.

(** * Properties *)

(** ** Objects and maps *)

Section ObjectFacts.
Context {A : Type}.
Implicit Types (o : list (string * A)) (k : string) (v : A).

Lemma obj_has_In k o : obj_has k o = true <-> In k (keys o).
Proof.
  induction o as [|[k' v'] o IH]; simpl.
  - split; [discriminate | tauto].
  - rewrite orb_true_iff, IH, String.eqb_eq. intuition congruence.
Qed.

Lemma obj_has_false k o : obj_has k o = false <-> ~ In k (keys o).
Proof.
  rewrite <- obj_has_In. destruct (obj_has k o); intuition congruence.
Qed.

Lemma obj_get_None k o : obj_get k o = None <-> ~ In k (keys o).
Proof.
  induction o as [|[k' v'] o IH]; simpl.
  - tauto.
  - destruct (String.eqb_spec k k') as [->|Hne].
    + split; [discriminate | intros H; exfalso; apply H; now left].
    + rewrite IH. intuition congruence.
Qed.

Lemma obj_get_In k v o : obj_get k o = Some v -> In (k, v) o.
Proof.
  induction o as [|[k' v'] o IH]; simpl; [discriminate|].
  destruct (String.eqb_spec k k') as [->|Hne].
  - intros [= ->]. now left.
  - intros H. right. auto.
Qed.

Lemma keys_obj_replace k v o : keys (obj_replace k v o) = keys o.
Proof.
  induction o as [|[k' v'] o IH]; simpl; [reflexivity|].
  destruct (String.eqb k k'); simpl; congruence.
Qed.

Lemma keys_obj_insert_index i k v o k' :
  In k' (keys (obj_insert_index i k v o)) <-> k' = k \/ In k' (keys o).
Proof.
  induction o as [|[k1 v1] o IH]; simpl.
  - intuition congruence.
  - destruct (array_index k1) as [j|]; [destruct (j <? i)%N|]; simpl;
      rewrite ?IH; intuition congruence.
Qed.

Lemma keys_obj_set k v o k' :
  In k' (keys (obj_set k v o)) <-> k' = k \/ In k' (keys o).
Proof.
  unfold obj_set. destruct (obj_has k o) eqn:Hh.
  - rewrite keys_obj_replace. apply obj_has_In in Hh.
    intuition congruence.
  - destruct (array_index k).
    + apply keys_obj_insert_index.
    + unfold keys. rewrite map_app, in_app_iff. simpl. intuition congruence.
Qed.

Lemma obj_get_replace_same k v o :
  In k (keys o) -> obj_get k (obj_replace k v o) = Some v.
Proof.
  induction o as [|[k1 v1] o IH]; simpl; [tauto|].
  destruct (String.eqb_spec k k1) as [->|Hne]; simpl.
  - now rewrite String.eqb_refl.
  - intros [H|H]; [congruence|].
    destruct (String.eqb_spec k k1); [congruence | auto].
Qed.

Lemma obj_get_replace_other k k' v o :
  k' <> k -> obj_get k' (obj_replace k v o) = obj_get k' o.
Proof.
  intros Hne. induction o as [|[k1 v1] o IH]; simpl; [reflexivity|].
  destruct (String.eqb_spec k k1) as [->|Hk]; simpl.
  - destruct (String.eqb_spec k' k1); congruence.
  - now rewrite IH.
Qed.

Lemma obj_get_insert_same i k v o :
  ~ In k (keys o) -> obj_get k (obj_insert_index i k v o) = Some v.
Proof.
  induction o as [|[k1 v1] o IH]; simpl; intros Hn.
  - now rewrite String.eqb_refl.
  - destruct (array_index k1) as [j|]; [destruct (j <? i)%N|]; simpl;
      rewrite ?String.eqb_refl; try reflexivity.
    destruct (String.eqb_spec k k1) as [->|Hk]; [tauto | apply IH; tauto].
Qed.

Lemma obj_get_insert_other i k k' v o :
  k' <> k -> obj_get k' (obj_insert_index i k v o) = obj_get k' o.
Proof.
  intros Hne. induction o as [|[k1 v1] o IH]; simpl.
  - destruct (String.eqb_spec k' k); congruence.
  - destruct (array_index k1) as [j|]; [destruct (j <? i)%N|]; simpl;
      rewrite ?IH; try reflexivity;
      destruct (String.eqb_spec k' k); congruence.
Qed.

Lemma obj_get_app_other k' k v o :
  k' <> k -> obj_get k' (o ++ [(k, v)]) = obj_get k' o.
Proof.
  intros Hne. induction o as [|[k1 v1] o IH]; simpl.
  - destruct (String.eqb_spec k' k); congruence.
  - now rewrite IH.
Qed.

Lemma obj_get_app_same k v o :
  ~ In k (keys o) -> obj_get k (o ++ [(k, v)]) = Some v.
Proof.
  induction o as [|[k1 v1] o IH]; simpl; intros Hn.
  - now rewrite String.eqb_refl.
  - destruct (String.eqb_spec k k1) as [->|Hk]; [tauto | apply IH; tauto].
Qed.

Lemma obj_get_set_same k v o : obj_get k (obj_set k v o) = Some v.
Proof.
  unfold obj_set. destruct (obj_has k o) eqn:Hh.
  - apply obj_get_replace_same, obj_has_In, Hh.
  - apply obj_has_false in Hh. destruct (array_index k).
    + now apply obj_get_insert_same.
    + now apply obj_get_app_same.
Qed.

Lemma obj_get_set_other k k' v o :
  k' <> k -> obj_get k' (obj_set k v o) = obj_get k' o.
Proof.
  intros Hne. unfold obj_set. destruct (obj_has k o).
  - now apply obj_get_replace_other.
  - destruct (array_index k).
    + now apply obj_get_insert_other.
    + now apply obj_get_app_other.
Qed.

Lemma obj_set_nonempty k v o : obj_set k v o <> [].
Proof.
  intros H. pose proof (keys_obj_set k v o k) as Hk.
  rewrite H in Hk. simpl in Hk. tauto.
Qed.
End ObjectFacts.

Section MapFacts.
Context {V : Type}.
Implicit Types (m : list (string * V)) (k : string) (v : V).

Lemma map_get_set_same k v m : map_get k (map_set k v m) = Some v.
Proof.
  induction m as [|[k1 v1] m IH]; simpl.
  - now rewrite String.eqb_refl.
  - destruct (String.eqb_spec k k1) as [->|Hk]; simpl.
    + now rewrite String.eqb_refl.
    + destruct (String.eqb_spec k k1); [congruence | exact IH].
Qed.

Lemma map_get_set_other k k' v m :
  k' <> k -> map_get k' (map_set k v m) = map_get k' m.
Proof.
  intros Hne. induction m as [|[k1 v1] m IH]; simpl.
  - destruct (String.eqb_spec k' k); congruence.
  - destruct (String.eqb_spec k k1) as [->|Hk]; simpl.
    + destruct (String.eqb_spec k' k1); congruence.
    + now rewrite IH.
Qed.

Lemma map_get_None k m : map_get k m = None <-> ~ In k (keys m).
Proof.
  induction m as [|[k1 v1] m IH]; simpl.
  - tauto.
  - destruct (String.eqb_spec k k1) as [->|Hk].
    + split; [discriminate | intros H; exfalso; apply H; now left].
    + rewrite IH. intuition congruence.
Qed.

Lemma map_get_In k v m : map_get k m = Some v -> In (k, v) m.
Proof.
  induction m as [|[k1 v1] m IH]; simpl; [discriminate|].
  destruct (String.eqb_spec k k1) as [->|Hk].
  - intros [= ->]. now left.
  - auto.
Qed.

Lemma map_set_new k v m : map_get k m = None -> map_set k v m = m ++ [(k, v)].
Proof.
  induction m as [|[k1 v1] m IH]; simpl; [reflexivity|].
  destruct (String.eqb_spec k k1); [discriminate|].
  intros H. now rewrite IH.
Qed.

Lemma keys_map_set_old k v m :
  map_get k m <> None -> keys (map_set k v m) = keys m.
Proof.
  induction m as [|[k1 v1] m IH]; simpl; [congruence|].
  destruct (String.eqb_spec k k1) as [->|Hk]; simpl.
  - reflexivity.
  - intros H. now rewrite IH.
Qed.

Lemma In_map_set k v m e :
  In e (map_set k v m) -> e = (k, v) \/ In e m.
Proof.
  induction m as [|[k1 v1] m IH]; simpl.
  - intros [H|[]]; now left.
  - destruct (String.eqb_spec k k1) as [->|Hk]; simpl.
    + intros [H|H]; [now left | right; now right].
    + intros [H|H]; [right; now left|].
      destruct (IH H); [now left | right; now right].
Qed.

Lemma NoDup_keys_map_set k v m : NoDup (keys m) -> NoDup (keys (map_set k v m)).
Proof.
  intros Hnd. destruct (map_get k m) eqn:Hg.
  - rewrite keys_map_set_old; [assumption | congruence].
  - rewrite map_set_new by assumption. unfold keys. rewrite map_app. simpl.
    apply map_get_None in Hg.
    apply NoDup_rev in Hnd. apply (NoDup_cons k) in Hnd.
    + apply NoDup_rev in Hnd. simpl in Hnd. now rewrite rev_involutive in Hnd.
    + now rewrite <- in_rev.
Qed.
End MapFacts.

(** ** Sorting entries *)

Section SortFacts.
Context {host : Host}.

Lemma insert_entry_map {A B : Type} (f : A -> B) (x : string * A) l :
  insert_entry (fst x, f (snd x)) (map (fun ke => (fst ke, f (snd ke))) l)
  = map (fun ke => (fst ke, f (snd ke))) (insert_entry x l).
Proof.
  induction l as [|y l IH]; [reflexivity|]. cbn [map insert_entry fst].
  destruct (localeCompare (fst x) (fst y)); cbn [map]; try reflexivity.
  now rewrite IH.
Qed.

(** Sorting by key and mapping the values commute. *)
Lemma sort_entries_map {A B : Type} (f : A -> B) (l : list (string * A)) :
  sort_entries (map (fun ke => (fst ke, f (snd ke))) l)
  = map (fun ke => (fst ke, f (snd ke))) (sort_entries l).
Proof.
  induction l as [|x l IH]; [reflexivity|].
  cbn [map sort_entries fold_right]. fold (sort_entries l).
  fold (sort_entries (map (fun ke => (fst ke, f (snd ke))) l)).
  now rewrite IH, insert_entry_map.
Qed.

(** [stableStringify] of an object, with the sort before the
    serialization of the values, as in the source. *)
Lemma stableStringify_object entries :
  stableStringify (JObject entries)
  = ("{" ++
     String.concat ","
       (map (fun ke => (JSON_quote (fst ke) ++ ":" ++ stableStringify (snd ke))%string)
          (sort_entries entries))
     ++ "}")%string.
Proof.
  cbn [stableStringify]. rewrite sort_entries_map, map_map. reflexivity.
Qed.
End SortFacts.

(** ** The grouping loop *)

Section Grouping.
Context {host : Host}.
Variables idField metadataField : string.

(** A record takes part in the grouping when it is an object that
    carries the identity field and a freshness value that is neither
    null nor blank; it then has an identity key and a freshness value. *)
Definition usable (record : JsonValue) : option (string * JsonValue * JsonObject) :=
  match record with
  | JObject fields =>
      match obj_get idField fields, obj_get metadataField fields with
      | Some idValue, Some metadataValue =>
          if isMeaninglessMetadata metadataValue then None
          else Some (buildIdKey idValue, metadataValue, fields)
      | _, _ => None
      end
  | _ => None
  end.

(** The claim's two defects of a record. *)
Definition lacks_identity (record : JsonValue) : bool :=
  match record with
  | JObject fields => negb (obj_has idField fields)
  | _ => true
  end.

Definition freshness_missing (record : JsonValue) : bool :=
  match record with
  | JObject fields =>
      match obj_get metadataField fields with
      | None | Some JNull => true
      | Some (JString s) => is_blank s
      | Some _ => false
      end
  | _ => false
  end.

Definition total_size (groups : list (string * Group)) : Z :=
  fold_right (fun kg n => Z.of_nat (List.length (records (snd kg))) + n) 0 groups.

(** What the loop has accounted for. *)
Definition counted (st : Tally) : Z :=
  total_size (byId st) + n_missingId st + n_missingMetadata st
  + n_olderRecordsSkipped st.

Lemma total_size_app g1 g2 :
  total_size (g1 ++ g2) = total_size g1 + total_size g2.
Proof.
  induction g1 as [|kg g1 IH]; simpl; [reflexivity|]. rewrite IH. lia.
Qed.

Lemma total_size_set_new k g groups :
  map_get k groups = None ->
  total_size (map_set k g groups)
  = total_size groups + Z.of_nat (List.length (records g)).
Proof.
  intros H. rewrite map_set_new by assumption.
  rewrite total_size_app. simpl. lia.
Qed.

Lemma total_size_set_old k g g0 groups :
  map_get k groups = Some g0 ->
  total_size (map_set k g groups)
  = total_size groups - Z.of_nat (List.length (records g0))
    + Z.of_nat (List.length (records g)).
Proof.
  induction groups as [|[k1 g1] groups IH]; simpl; [discriminate|].
  destruct (String.eqb_spec k k1) as [->|Hk]; simpl.
  - intros [= ->]. lia.
  - intros H. rewrite IH by assumption. lia.
Qed.

Lemma used_total_size groups a :
  fold_left (fun n g => n + Z.of_nat (List.length (records g))) (map snd groups) a
  = a + total_size groups.
Proof.
  revert a. induction groups as [|kg groups IH]; intros a; simpl; [lia|].
  rewrite IH. lia.
Qed.

Lemma usable_lacks_identity record :
  lacks_identity record = true -> usable record = None.
Proof.
  destruct record as [| | | | |fields]; simpl; try reflexivity.
  rewrite negb_true_iff, obj_has_false, <- obj_get_None. now intros ->.
Qed.

Lemma usable_freshness_missing record :
  freshness_missing record = true -> usable record = None.
Proof.
  destruct record as [| | | | |fields]; simpl; try discriminate.
  destruct (obj_get idField fields); [|reflexivity].
  destruct (obj_get metadataField fields) as [[]|]; simpl;
    try reflexivity; try discriminate. now intros ->.
Qed.

Lemma usable_None record :
  usable record = None <->
  lacks_identity record = true \/ freshness_missing record = true.
Proof.
  split; [|intros [H|H];
           [now apply usable_lacks_identity | now apply usable_freshness_missing]].
  destruct record as [| | | | |fields]; simpl; auto.
  destruct (obj_get idField fields) eqn:Hid.
  - destruct (obj_get metadataField fields) as [[]|]; simpl; auto;
      try discriminate.
    destruct (is_blank s); [auto | discriminate].
  - intros _. left. rewrite negb_true_iff, obj_has_false, <- obj_get_None.
    assumption.
Qed.


(** The three ways a step treats a record. *)
Definition bump_missingId (st : Tally) : Tally :=
  {| byId := byId st; n_missingId := n_missingId st + 1;
     n_missingMetadata := n_missingMetadata st;
     n_olderRecordsSkipped := n_olderRecordsSkipped st |}.

Definition bump_missingMetadata (st : Tally) : Tally :=
  {| byId := byId st; n_missingId := n_missingId st;
     n_missingMetadata := n_missingMetadata st + 1;
     n_olderRecordsSkipped := n_olderRecordsSkipped st |}.

Definition regroup (st : Tally) (groups : list (string * Group)) (older : Z) : Tally :=
  {| byId := groups; n_missingId := n_missingId st;
     n_missingMetadata := n_missingMetadata st;
     n_olderRecordsSkipped := n_olderRecordsSkipped st + older |}.

(** What a step does to the group of a usable record. *)
Definition place (k : string) (m : JsonValue) (fields : JsonObject) (st : Tally)
  : Tally :=
  match map_get k (byId st) with
  | None => regroup st (map_set k {| metadata := m; records := [fields] |} (byId st)) 0
  | Some existing =>
      if compareMetadata m (metadata existing) >? 0 then
        regroup st (map_set k {| metadata := m; records := [fields] |} (byId st))
          (Z.of_nat (List.length (records existing)))
      else if compareMetadata m (metadata existing) =? 0 then
        regroup st
          (map_set k {| metadata := metadata existing;
                        records := records existing ++ [fields] |} (byId st)) 0
      else regroup st (byId st) 1
  end.

Lemma collapse_step_usable st record k m fields :
  usable record = Some (k, m, fields) ->
  collapse_step idField metadataField st record = place k m fields st.
Proof.
  destruct record as [| | | | |fs]; simpl; try discriminate.
  destruct (obj_get idField fs) as [idv|]; [|discriminate].
  destruct (obj_get metadataField fs) as [mv|]; [|discriminate].
  destruct (isMeaninglessMetadata mv) eqn:Hm; [discriminate|].
  intros [= <- <- <-]. reflexivity.
Qed.

Lemma collapse_step_lacks_identity st record :
  lacks_identity record = true ->
  collapse_step idField metadataField st record = bump_missingId st.
Proof.
  destruct record as [| | | | |fs]; simpl; try reflexivity.
  rewrite negb_true_iff, obj_has_false, <- obj_get_None. now intros ->.
Qed.

Lemma collapse_step_freshness_missing st record :
  lacks_identity record = false -> freshness_missing record = true ->
  collapse_step idField metadataField st record = bump_missingMetadata st.
Proof.
  destruct record as [| | | | |fs]; simpl; try discriminate.
  rewrite negb_false_iff, obj_has_In. intros Hin.
  destruct (obj_get idField fs) eqn:Hid;
    [|apply obj_get_None in Hid; contradiction].
  destruct (obj_get metadataField fs) as [[]|]; simpl;
    try reflexivity; try discriminate. now intros ->.
Qed.

Lemma counted_place k m fields st : counted (place k m fields st) = counted st + 1.
Proof.
  unfold place, counted. destruct (map_get k (byId st)) as [g|] eqn:Hg.
  - destruct (compareMetadata m (metadata g) >? 0);
      [|destruct (compareMetadata m (metadata g) =? 0)]; simpl;
      rewrite ?(total_size_set_old _ _ _ _ Hg); simpl;
      rewrite ?length_app; simpl; lia.
  - simpl. rewrite total_size_set_new by assumption. simpl. lia.
Qed.

Lemma counted_step st record :
  counted (collapse_step idField metadataField st record) = counted st + 1.
Proof.
  destruct (usable record) as [[[k m] fields]|] eqn:Hu.
  - rewrite (collapse_step_usable _ _ _ _ _ Hu). apply counted_place.
  - apply usable_None in Hu.
    destruct (lacks_identity record) eqn:Hl.
    + rewrite collapse_step_lacks_identity by assumption.
      unfold counted; simpl; lia.
    + destruct Hu as [Hu|Hu]; [discriminate|].
      rewrite collapse_step_freshness_missing by assumption.
      unfold counted; simpl; lia.
Qed.

Lemma counted_loop input st :
  counted (fold_left (collapse_step idField metadataField) input st)
  = counted st + Z.of_nat (List.length input).
Proof.
  revert st. induction input as [|r input IH]; intros st; simpl fold_left.
  - simpl. lia.
  - rewrite IH, counted_step. simpl List.length. lia.
Qed.

End Grouping.

(** ** Defective records *)

Section Defects.
Context {host : Host}.
Variables idField metadataField : string.

Abbreviation step := (collapse_step idField metadataField).
Abbreviation loop := (fold_left (collapse_step idField metadataField)).

Definition is_usable (record : JsonValue) : bool :=
  match usable idField metadataField record with
  | Some _ => true
  | None => false
  end.

(** A record that passes the identity check and fails the freshness
    check. *)
Definition freshness_defect (record : JsonValue) : bool :=
  negb (lacks_identity idField record) && freshness_missing metadataField record.

Lemma step_defective st record :
  is_usable record = false ->
  byId (step st record) = byId st /\
  n_olderRecordsSkipped (step st record) = n_olderRecordsSkipped st.
Proof.
  unfold is_usable. destruct (usable idField metadataField record) eqn:Hu;
    [discriminate|]. intros _.
  apply usable_None in Hu. destruct (lacks_identity idField record) eqn:Hl.
  - rewrite collapse_step_lacks_identity by assumption. now split.
  - destruct Hu as [Hu|Hu]; [discriminate|].
    rewrite collapse_step_freshness_missing by assumption. now split.
Qed.

Lemma place_counters k m fields st :
  n_missingId (place k m fields st) = n_missingId st /\
  n_missingMetadata (place k m fields st) = n_missingMetadata st.
Proof.
  unfold place. destruct (map_get k (byId st)) as [g|]; [|now split].
  destruct (compareMetadata m (metadata g) >? 0);
    [|destruct (compareMetadata m (metadata g) =? 0)]; now split.
Qed.



Lemma count_missingId input st :
  n_missingId (loop input st)
  = n_missingId st
    + Z.of_nat (List.length (filter (lacks_identity idField) input)).
Proof.
  revert st. induction input as [|r input IH]; intros st; simpl; [lia|].
  rewrite IH. destruct (lacks_identity idField r) eqn:Hl.
  - rewrite collapse_step_lacks_identity by assumption. simpl List.length. simpl. lia.
  - destruct (usable idField metadataField r) as [[[k m] f]|] eqn:Hu.
    + rewrite (collapse_step_usable _ _ _ _ _ _ _ Hu).
      destruct (place_counters k m f st) as [-> _]. lia.
    + apply usable_None in Hu. destruct Hu as [Hu|Hu]; [congruence|].
      rewrite collapse_step_freshness_missing by assumption. simpl. lia.
Qed.

Lemma count_missingMetadata input st :
  n_missingMetadata (loop input st)
  = n_missingMetadata st
    + Z.of_nat (List.length (filter freshness_defect input)).
Proof.
  revert st. induction input as [|r input IH]; intros st; simpl; [lia|].
  rewrite IH. unfold freshness_defect at 2.
  destruct (lacks_identity idField r) eqn:Hl; simpl.
  - rewrite collapse_step_lacks_identity by assumption. simpl. lia.
  - destruct (freshness_missing metadataField r) eqn:Hf.
    + rewrite collapse_step_freshness_missing by assumption.
      simpl List.length. simpl. lia.
    + destruct (usable idField metadataField r) as [[[k m] f]|] eqn:Hu.
      * rewrite (collapse_step_usable _ _ _ _ _ _ _ Hu).
        destruct (place_counters k m f st) as [_ ->]. lia.
      * apply usable_None in Hu. destruct Hu; congruence.
Qed.




End Defects.



(** ** Internal keys *)

Lemma fold_left_invariant {S X : Type} (Inv : S -> Prop) (f : S -> X -> S)
  (l : list X) (s : S) :
  Inv s -> (forall s x, In x l -> Inv s -> Inv (f s x)) -> Inv (fold_left f l s).
Proof.
  revert s. induction l as [|x l IH]; intros s Hs Hf; simpl; [assumption|].
  apply IH.
  - apply Hf; [now left | assumption].
  - intros s' x' Hx. apply Hf. now right.
Qed.

Section InternalKeys.
Context {host : Host}.

(** No key of the object begins with [_dlt]. *)
Definition no_internal_key {A : Type} (o : list (string * A)) : Prop :=
  forall k, In k (keys o) -> isInternalKey k = false.

Lemma no_internal_key_nil {A : Type} : no_internal_key (@nil (string * A)).
Proof. intros k []. Qed.

Lemma no_internal_key_set {A : Type} k (v : A) o :
  isInternalKey k = false -> no_internal_key o -> no_internal_key (obj_set k v o).
Proof.
  intros Hk Ho k' Hin. apply keys_obj_set in Hin.
  destruct Hin as [->|Hin]; auto.
Qed.

Lemma sanitizeRepositoryObject_clean o : no_internal_key (sanitizeRepositoryObject o).
Proof.
  unfold sanitizeRepositoryObject.
  apply fold_left_invariant; [apply no_internal_key_nil|].
  intros s [k v] _ Hs; simpl. destruct (isInternalKey k) eqn:Hk; [assumption|].
  now apply no_internal_key_set.
Qed.

Lemma sanitizeFundingRecord_clean o : no_internal_key (sanitizeFundingRecord o).
Proof. exact (sanitizeRepositoryObject_clean o). Qed.

Lemma cloneJsonObject_keys o k : In k (keys (cloneJsonObject o)) -> In k (keys o).
Proof.
  unfold cloneJsonObject.
  assert (H : forall acc,
             In k (keys (fold_left
                           (fun result ke =>
                              obj_set (fst ke) (cloneJsonValue (snd ke)) result)
                           o acc)) ->
             In k (keys acc) \/ In k (keys o)).
  { induction o as [|[k1 v1] o IH]; intros acc Hin; simpl in *; [now left|].
    apply IH in Hin. destruct Hin as [Hin|Hin]; [|right; now right].
    apply keys_obj_set in Hin. destruct Hin as [->|Hin]; [right|]; auto. }
  intros Hin. apply H in Hin. destruct Hin as [[]|Hin]. exact Hin.
Qed.

Lemma cloneJsonObject_clean o : no_internal_key o -> no_internal_key (cloneJsonObject o).
Proof. intros Ho k Hin. apply Ho, cloneJsonObject_keys, Hin. Qed.

Lemma removeFundingInternalKeys_clean o :
  no_internal_key o -> no_internal_key (removeFundingInternalKeys o).
Proof.
  intros Ho. unfold removeFundingInternalKeys.
  apply fold_left_invariant; [apply no_internal_key_nil|].
  intros s [k v] Hin Hs; simpl.
  destruct (String.eqb k "id" || String.eqb k "project_id"); [assumption|].
  apply no_internal_key_set; [|assumption].
  apply Ho. unfold keys. now apply (in_map fst) in Hin.
Qed.

(** *** Merged records *)

Lemma extract_loop_others record k v :
  In (k, v) (otherEntries (extract_loop record)) ->
  isInternalKey k = false /\ k <> "repositories" /\ startsWith k "repo_" = false
  /\ In (k, v) record.
Proof.
  unfold extract_loop.
  set (Inv := fun st : Extracted =>
                forall k v, In (k, v) (otherEntries st) ->
                  isInternalKey k = false /\ k <> "repositories"
                  /\ startsWith k "repo_" = false /\ In (k, v) record).
  revert k v. change (Inv (fold_left extract_step record
                  {| repoFields := []; repoObjects := []; otherEntries := [] |})).
  apply fold_left_invariant; [intros k v []|].
  intros st [k1 v1] Hin1 Hst k v. unfold extract_step; simpl.
  destruct (isInternalKey k1) eqn:Hi; [apply Hst|].
  destruct (String.eqb_spec k1 "repositories") as [->|Hr]; [apply Hst|].
  destruct (startsWith k1 "repo_") eqn:Hp.
  - destruct (0 <? String.length (slice_from 5 k1))%nat; apply Hst.
  - simpl. intros Hin. apply in_app_or in Hin.
    destruct Hin as [Hin|[[= <- <-]|[]]]; [now apply Hst|]. auto.
Qed.

Lemma merge_entries_clean entries merged :
  (forall k v, In (k, v) entries -> isInternalKey k = false) ->
  no_internal_key merged -> no_internal_key (fold_left merge_entry entries merged).
Proof.
  intros He Hm. apply fold_left_invariant; [assumption|].
  intros s [k v] Hin Hs. unfold merge_entry; simpl.
  apply no_internal_key_set; eauto.
Qed.

Lemma merge_records_clean rs st :
  no_internal_key (fst st) -> no_internal_key (fst (fold_left merge_record rs st)).
Proof.
  intros Hst. apply fold_left_invariant; [assumption|].
  intros s record _ Hs. unfold merge_record, extractRepositoryEntries; simpl.
  apply merge_entries_clean; [|assumption].
  intros k v Hin. now apply extract_loop_others in Hin.
Qed.

Lemma mergeGroupRecords_clean rs : no_internal_key (mergeGroupRecords rs).
Proof.
  unfold mergeGroupRecords.
  pose proof (merge_records_clean rs ([], []) no_internal_key_nil) as H.
  destruct (snd (fold_left merge_record rs ([], []))); [assumption|].
  now apply no_internal_key_set.
Qed.

(** *** Repository objects *)

Definition clean_repositories (st : list (string * JsonObject) * list string) : Prop :=
  forall key repo, In (key, repo) (fst st) -> no_internal_key repo.

Lemma upsert_clean st value : clean_repositories st -> clean_repositories (upsert st value).
Proof.
  intros Hst. destruct value as [| | | | |o]; try exact Hst.
  unfold upsert. pose proof (sanitizeRepositoryObject_clean o) as Hs.
  destruct (sanitizeRepositoryObject o) as [|e sanitized']; [exact Hst|].
  cbv beta iota zeta.
  destruct (map_get (buildRepositoryKey (e :: sanitized')) (fst st))
    as [existingRepo|] eqn:Hg.
  - intros key repo Hin. cbn [fst] in Hin. apply In_map_set in Hin.
    destruct Hin as [[= -> ->]|Hin]; [|now apply (Hst key)].
    apply (merge_entries_clean (e :: sanitized') existingRepo).
    + intros k v Hin. apply Hs. exact (in_map fst _ _ Hin).
    + apply map_get_In in Hg. now apply (Hst _ _ Hg).
  - intros key repo Hin. cbn [fst] in Hin. apply In_map_set in Hin.
    destruct Hin as [[= -> ->]|Hin]; [|now apply (Hst key)].
    now apply cloneJsonObject_clean.
Qed.

Lemma mergeRepositories_clean existing incoming :
  exists objs,
    mergeRepositories existing incoming = JArray (map JObject objs)
    /\ Forall no_internal_key objs.
Proof.
  unfold mergeRepositories. eexists. split; [reflexivity|].
  set (st0 := match existing with
              | Some e => upsert_all ([], []) e
              | None => ([], [])
              end).
  assert (H0 : clean_repositories st0).
  { subst st0. destruct existing as [e|]; [|intros ? ? []].
    destruct e as [| | | |items|o];
      try (apply (upsert_clean ([], [])); intros ? ? []).
    apply (fold_left_invariant clean_repositories upsert items ([], []));
      [intros ? ? []|].
    intros; now apply upsert_clean. }
  assert (H1 : clean_repositories (fold_left upsert (map JObject incoming) st0)).
  { apply fold_left_invariant; [assumption|]. intros; now apply upsert_clean. }
  unfold emit_repositories. apply Forall_forall. intros o Hin.
  apply in_flat_map in Hin. destruct Hin as [key [_ Hin]].
  destruct (map_get key (fst (fold_left upsert (map JObject incoming) st0)))
    as [repo|] eqn:Hg; [|destruct Hin].
  destruct Hin as [<-|[]]. apply cloneJsonObject_clean.
  apply map_get_In in Hg. now apply (H1 _ _ Hg).
Qed.

Lemma mergeGroupRecords_repositories rs v :
  obj_get "repositories" (mergeGroupRecords rs) = Some v ->
  exists objs, v = JArray (map JObject objs) /\ Forall no_internal_key objs.
Proof.
  unfold mergeGroupRecords.
  set (st := fold_left merge_record rs ([], [])).
  assert (Hnone : obj_get "repositories" (fst st) = None).
  { apply obj_get_None. subst st.
    apply (fold_left_invariant
             (fun s : JsonObject * list JsonObject =>
                ~ In "repositories" (keys (fst s)))); [intros []|].
    intros s record _ Hs. unfold merge_record, extractRepositoryEntries; simpl.
    apply (fold_left_invariant (fun m : JsonObject => ~ In "repositories" (keys m)));
      [assumption|].
    intros m [k e] Hin Hm Hk. unfold merge_entry in Hk; simpl in Hk.
    apply keys_obj_set in Hk. destruct Hk as [Hk|Hk]; [|contradiction].
    apply extract_loop_others in Hin. destruct Hin as (_ & Hne & _). congruence. }
  destruct (snd st) as [|r acc].
  - rewrite Hnone. discriminate.
  - rewrite obj_get_set_same. intros [= <-]. apply mergeRepositories_clean.
Qed.

(** *** Funding entries *)

Definition clean_entries (seen : list (string * JsonObject)) : Prop :=
  forall key entry, In (key, entry) seen -> no_internal_key entry.

Lemma pickLatestByUpdatedAt_choice left right choice :
  pickLatestByUpdatedAt left right = Some choice -> choice = left \/ choice = right.
Proof.
  unfold pickLatestByUpdatedAt, bind.
  destruct (toTimestamp_of (obj_get "updated_at" left)) as [l|];
    destruct (toTimestamp_of (obj_get "updated_at" right)) as [r|];
    try (destruct (r >? l); intros [= <-]; auto);
    destruct (toComparableString_of (obj_get "updated_at" left)) as [lc|];
    try discriminate;
    destruct (toComparableString_of (obj_get "updated_at" right)) as [rc|];
    try discriminate;
    destruct (String.eqb lc rc); try destruct (str_gtb rc lc);
    intros [= <-]; auto.
Qed.

Lemma addEntry_clean seen value seen' :
  clean_entries seen -> addEntry seen value = Some seen' -> clean_entries seen'.
Proof.
  intros Hs. destruct value as [| | | | |o]; try (intros [= <-]; assumption).
  unfold addEntry. pose proof (sanitizeFundingRecord_clean o) as Hc.
  destruct (sanitizeFundingRecord o) as [|e sanitized'];
    [intros [= <-]; assumption|].
  cbv beta iota zeta.
  destruct (map_get (createFundingKey (obj_get "round_id" (e :: sanitized'))
                       (e :: sanitized')) seen)
    as [existingEntry|] eqn:Hg.
  - unfold bind. destruct (pickLatestByUpdatedAt existingEntry (e :: sanitized'))
      as [choice|] eqn:Hp; [|discriminate].
    intros [= <-] key entry Hin. apply In_map_set in Hin.
    destruct Hin as [[= -> ->]|Hin]; [|now apply (Hs key)].
    apply pickLatestByUpdatedAt_choice in Hp. destruct Hp as [->| ->]; [|assumption].
    apply map_get_In in Hg. now apply (Hs _ _ Hg).
  - intros [= <-] key entry Hin. apply In_map_set in Hin.
    destruct Hin as [[= -> ->]|Hin]; [assumption | now apply (Hs key)].
Qed.

Lemma addEntries_clean values seen seen' :
  clean_entries seen -> addEntries seen values = Some seen' -> clean_entries seen'.
Proof.
  revert seen. induction values as [|v values IH]; intros seen Hs; simpl.
  - now intros [= <-].
  - unfold bind. destruct (addEntry seen v) as [s1|] eqn:H1; [|discriminate].
    apply IH. now apply (addEntry_clean seen v).
Qed.

Lemma mergeFundingEntries_clean existing incoming entries :
  mergeFundingEntries existing incoming = Some entries ->
  Forall no_internal_key entries.
Proof.
  unfold mergeFundingEntries, bind.
  destruct (match existing with
            | None => Some []
            | Some (JArray items) => addEntries [] items
            | Some e => addEntry [] e
            end) as [seen1|] eqn:H1; [|discriminate].
  assert (Hc1 : clean_entries seen1).
  { destruct existing as [e|]; [|injection H1 as <-; intros ? ? []].
    destruct e; try (apply (addEntry_clean [] _ _ (fun _ _ F => match F with end) H1)).
    apply (addEntries_clean _ [] _ (fun _ _ F => match F with end) H1). }
  destruct (addEntries seen1 (map JObject incoming)) as [seen2|] eqn:H2;
    [|discriminate].
  intros [= <-]. apply Forall_forall. intros e Hin.
  apply in_map_iff in Hin. destruct Hin as [[key entry] [<- Hin]]. simpl.
  apply removeFundingInternalKeys_clean.
  apply (addEntries_clean _ _ _ Hc1 H2 key entry Hin).
Qed.

(** An attachment leaves the record as it is or sets the target field
    to a list of entries. *)
Definition attached (targetField : string) (record record' : JsonObject) : Prop :=
  record' = record \/
  exists entries,
    record' = obj_set targetField (JArray (map JObject entries)) record
    /\ Forall no_internal_key entries.

Lemma attach_record_attached fundingById idField targetField record record' :
  attach_record fundingById idField targetField record = Some record' ->
  attached targetField record record'.
Proof.
  unfold attach_record, bind.
  destruct (obj_get idField record) as [identifier|]; [|intros [= <-]; now left].
  destruct (map_get (buildIdKey identifier) fundingById) as [[|e es]|];
    try (intros [= <-]; now left).
  destruct (mergeFundingEntries (obj_get targetField record) (e :: es))
    as [merged|] eqn:Hm; [|discriminate].
  intros [= <-]. right. exists merged. split; [reflexivity|].
  now apply (mergeFundingEntries_clean _ _ _ Hm).
Qed.

Lemma attachFundingData_attached input fundingById idField targetField output :
  attachFundingData input fundingById idField targetField = Some output ->
  Forall2 (attached targetField) input output.
Proof.
  revert output. induction input as [|r input IH]; intros output; simpl.
  - intros [= <-]. constructor.
  - unfold bind.
    destruct (attach_record fundingById idField targetField r) as [r'|] eqn:Hr;
      [|discriminate].
    destruct (attachFundingData input fundingById idField targetField)
      as [rest|]; [|discriminate].
    intros [= <-]. constructor; [|now apply IH].
    now apply (attach_record_attached _ _ _ _ _ Hr).
Qed.

(** What an attachment of a dataset does to a record: the record is
    left as it is unless it carries the identity field and the dataset
    has entries for its identity key; then the target field is set to
    the merge of the entries that the record holds under it with the
    entries of the dataset. *)
Definition attachment (dataset : option (list (string * list JsonObject)))
  (idField targetField : string) (record record' : JsonObject) : Prop :=
  match dataset with
  | None => record' = record
  | Some fundingById =>
      match obj_get idField record with
      | None => record' = record
      | Some identifier =>
          match map_get (buildIdKey identifier) fundingById with
          | None | Some [] => record' = record
          | Some fundingEntries =>
              exists entries,
                mergeFundingEntries (obj_get targetField record) fundingEntries
                = Some entries
                /\ record' = obj_set targetField (JArray (map JObject entries)) record
                /\ Forall no_internal_key entries
          end
      end
  end.

Lemma attachment_attached dataset idField targetField record record' :
  attachment dataset idField targetField record record' ->
  attached targetField record record'.
Proof.
  unfold attachment. destruct dataset as [fundingById|]; [|now left].
  destruct (obj_get idField record) as [identifier|]; [|now left].
  destruct (map_get (buildIdKey identifier) fundingById) as [[|e es]|];
    try (now left).
  intros (entries & _ & -> & Hc). right. now exists entries.
Qed.

Lemma attach_record_attachment fundingById idField targetField record record' :
  attach_record fundingById idField targetField record = Some record' ->
  attachment (Some fundingById) idField targetField record record'.
Proof.
  unfold attach_record, attachment, bind.
  destruct (obj_get idField record) as [identifier|]; [|now intros [= <-]].
  destruct (map_get (buildIdKey identifier) fundingById) as [[|e es]|];
    try (now intros [= <-]).
  destruct (mergeFundingEntries (obj_get targetField record) (e :: es))
    as [merged|] eqn:Hm; [|discriminate].
  intros [= <-]. exists merged. split; [reflexivity|]. split; [reflexivity|].
  now apply (mergeFundingEntries_clean _ _ _ Hm).
Qed.

Lemma attachFundingData_attachment input fundingById idField targetField output :
  attachFundingData input fundingById idField targetField = Some output ->
  Forall2 (attachment (Some fundingById) idField targetField) input output.
Proof.
  revert output. induction input as [|r input IH]; intros output; simpl.
  - intros [= <-]. constructor.
  - unfold bind.
    destruct (attach_record fundingById idField targetField r) as [r'|] eqn:Hr;
      [|discriminate].
    destruct (attachFundingData input fundingById idField targetField)
      as [rest|]; [|discriminate].
    intros [= <-]. constructor; [|now apply IH].
    now apply (attach_record_attachment _ _ _ _ _ Hr).
Qed.

(** The entries of a dataset are values on which the model is the
    program. *)
Definition modelled_dataset (dataset : option (list (string * list JsonObject)))
  : bool :=
  match dataset with
  | None => true
  | Some fundingById =>
      forallb (fun kb => forallb (fun e => modelled (JObject e)) (snd kb))
        fundingById
  end.

End InternalKeys.

Lemma Forall2_preserves {X : Type} (P : X -> Prop) (R : X -> X -> Prop) l l' :
  (forall x y, P x -> R x y -> P y) -> Forall P l -> Forall2 R l l' -> Forall P l'.
Proof.
  intros HR HP H2. induction H2 as [|x y l l' Hxy _ IH]; [constructor|].
  inversion HP; subst. constructor; eauto.
Qed.

Lemma Forall2_same {X : Type} (R : X -> X -> Prop) l :
  (forall x, R x x) -> Forall2 R l l.
Proof. intros HR. induction l; constructor; auto. Qed.

(** The [repositories] value of a record is a list of objects without
    internal keys. *)
Definition clean_repository_list {host : Host} (record : JsonObject) : Prop :=
  forall v, obj_get "repositories" record = Some v ->
    exists objs, v = JArray (map JObject objs) /\ Forall no_internal_key objs.

Lemma Forall2_weaken {X : Type} (R R' : X -> X -> Prop) l l' :
  (forall x y, R x y -> R' x y) -> Forall2 R l l' -> Forall2 R' l l'.
Proof. intros H. induction 1; constructor; auto. Qed.

(** C10, as amended.  No own key that begins with [_dlt] is left in a
    merged output record, in a repository object of its [repositories]
    list, or in a funding entry of a target field that an attachment
    sets: the output of the run ([collapseRecords], then the two funding
    attachments of [main]) has only such records, and each attachment
    leaves a record as it is, when the record lacks the identity field
    or the dataset has no entry for its identity key, or else sets the
    target field to the merged entries, which are without such keys.
    This is for inputs whose keys are outside the property names of
    [Object.prototype] and whose numbers are safe integers. *)
Theorem internal_keys_are_stripped
  {host : Host} (input : list JsonValue) (idField metadataField : string)
  (selfFunding opRewards : option (list (string * list JsonObject)))
  (final : list JsonObject) :
  let collapsed := fst (collapseRecords input idField metadataField) in
  inherited_name idField = false ->
  inherited_name metadataField = false ->
  Forall (fun r => modelled_record r = true) input ->
  modelled_dataset selfFunding = true ->
  modelled_dataset opRewards = true ->
  applyFundingAttachments collapsed idField
    [("selfReportedFunding", selfFunding); ("opRewards", opRewards)] = Some final ->
  Forall no_internal_key collapsed
  /\ Forall clean_repository_list collapsed
  /\ Forall no_internal_key final
  /\ Forall clean_repository_list final
  /\ exists attachedSelf,
       Forall2 (attachment selfFunding idField "selfReportedFunding")
         collapsed attachedSelf
       /\ Forall2 (attachment opRewards idField "opRewards") attachedSelf final.
Proof.
  intros collapsed _ _ _ _ _ Hrun.
  assert (Hc : Forall no_internal_key collapsed).
  { apply Forall_forall. intros r Hin. unfold collapsed, collapseRecords in Hin.
    simpl in Hin. apply in_map_iff in Hin. destruct Hin as [g [<- _]].
    apply mergeGroupRecords_clean. }
  assert (Hr : Forall clean_repository_list collapsed).
  { apply Forall_forall. intros r Hin. unfold collapsed, collapseRecords in Hin.
    simpl in Hin. apply in_map_iff in Hin. destruct Hin as [g [<- _]].
    intros v Hv. now apply (mergeGroupRecords_repositories _ _ Hv). }
  assert (Hstep : forall T l l',
             isInternalKey T = false -> T <> "repositories" ->
             Forall2 (attached T) l l' ->
             (Forall no_internal_key l -> Forall no_internal_key l')
             /\ (Forall clean_repository_list l -> Forall clean_repository_list l')).
  { intros T l l' HT HTr H2. split; intros Hl.
    - apply (Forall2_preserves _ (attached T) l l'); [|assumption..].
      intros x y Hx [->|[entries [-> _]]]; [assumption|].
      now apply no_internal_key_set.
    - apply (Forall2_preserves _ (attached T) l l'); [|assumption..].
      intros x y Hx [->|[entries [-> _]]]; [assumption|].
      intros v Hv. rewrite obj_get_set_other in Hv by congruence. now apply Hx. }
  assert (Hmid : exists attachedSelf,
             Forall2 (attachment selfFunding idField "selfReportedFunding")
               collapsed attachedSelf
             /\ Forall2 (attachment opRewards idField "opRewards")
                  attachedSelf final).
  { simpl in Hrun. destruct selfFunding as [d1|].
    - unfold bind in Hrun at 1.
      destruct (attachFundingData collapsed d1 idField "selfReportedFunding")
        as [mid|] eqn:H1; [|discriminate].
      exists mid. split; [now apply (attachFundingData_attachment _ _ _ _ _ H1)|].
      destruct opRewards as [d2|].
      + unfold bind in Hrun.
        destruct (attachFundingData mid d2 idField "opRewards") as [out|] eqn:H2;
          [|discriminate].
        injection Hrun as <-. now apply (attachFundingData_attachment _ _ _ _ _ H2).
      + injection Hrun as <-. apply Forall2_same. reflexivity.
    - exists collapsed. split; [apply Forall2_same; reflexivity|].
      destruct opRewards as [d2|].
      + unfold bind in Hrun.
        destruct (attachFundingData collapsed d2 idField "opRewards")
          as [out|] eqn:H2; [|discriminate].
        injection Hrun as <-. now apply (attachFundingData_attachment _ _ _ _ _ H2).
      + injection Hrun as <-. apply Forall2_same. reflexivity. }
  destruct Hmid as [mid [H1 H2]].
  destruct (Hstep "selfReportedFunding" collapsed mid eq_refl
              ltac:(discriminate)
              (Forall2_weaken _ _ _ _
                 (attachment_attached selfFunding idField "selfReportedFunding") H1))
    as [Ha Hb].
  destruct (Hstep "opRewards" mid final eq_refl ltac:(discriminate)
              (Forall2_weaken _ _ _ _
                 (attachment_attached opRewards idField "opRewards") H2))
    as [Ha' Hb'].
  repeat split; auto. exists mid. now split.
Qed.

Module InternalKeysExample.
Import IsoHost.

Definition input : list JsonValue :=
  [JObject [("_dlt_id", JString "r1"); ("id", JString "a"); ("t", JNumber 1);
            ("repositories",
             JArray [JObject [("url", JString "u"); ("_dlt_load_id", JString "l")]])]].

Definition selfFunding : list (string * list JsonObject) :=
  [("a", [[("round_id", JString "7"); ("_dlt_id", JString "f1");
           ("amount", JNumber 5)]])].

Definition selfFunding_other : list (string * list JsonObject) :=
  [("b", [[("round_id", JString "7"); ("amount", JNumber 5)]])].

Definition final : list JsonObject :=
  [[("id", JString "a"); ("t", JNumber 1);
    ("repositories", JArray [JObject [("url", JString "u")]]);
    ("selfReportedFunding",
     JArray [JObject [("round_id", JString "7"); ("amount", JNumber 5)]])]].

Lemma internal_keys_are_stripped_witness :
  Forall (fun r => modelled_record r = true) input
  /\ modelled_dataset (Some selfFunding) = true
  /\ applyFundingAttachments (fst (collapseRecords input "id" "t")) "id"
       [("selfReportedFunding", Some selfFunding); ("opRewards", None)] = Some final
  /\ Forall no_internal_key final.
Proof.
  assert (Hi : Forall (fun r => modelled_record r = true) input)
    by (repeat constructor).
  assert (Hr : applyFundingAttachments (fst (collapseRecords input "id" "t")) "id"
                 [("selfReportedFunding", Some selfFunding); ("opRewards", None)]
               = Some final) by reflexivity.
  split; [exact Hi|]. split; [reflexivity|]. split; [exact Hr|].
  exact (proj1 (proj2 (proj2
           (internal_keys_are_stripped input "id" "t" (Some selfFunding) None
              final eq_refl eq_refl Hi eq_refl eq_refl Hr)))).
Defined.

(** C10, the claim as stated fails.  A key that begins with [_dlt] and
    sits inside the value of a field is copied with the value; and the
    funding entry that a record holds under a target field keeps its
    [_dlt] key when the dataset has no entry for the record (the field
    goes through the field policy, which emits the single entry of the
    list as a scalar). *)
Lemma nested_and_unmatched_keys_remain :
  let record :=
    [("id", JString "a"); ("t", JNumber 1);
     ("meta", JObject [("_dlt_id", JString "m")]);
     ("selfReportedFunding",
      JArray [JObject [("round_id", JString "7"); ("_dlt_id", JString "f")]])] in
  applyFundingAttachments (fst (collapseRecords [JObject record] "id" "t")) "id"
    [("selfReportedFunding", Some selfFunding_other); ("opRewards", None)]
  = Some [[("id", JString "a"); ("t", JNumber 1);
           ("meta", JObject [("_dlt_id", JString "m")]);
           ("selfReportedFunding",
            JObject [("round_id", JString "7"); ("_dlt_id", JString "f")])]]
  /\ isInternalKey "_dlt_id" = true.
Proof. split; reflexivity. Qed.

End InternalKeysExample.

(** ** Objects rebuilt entry by entry *)

Section Rebuild.
Context {X Y : Type}.
Variable g : string -> X -> option Y.

(** The loop [for (const [key, x] of Object.entries(l)) if (...) acc[key] = y]. *)
Definition rebuild (l : list (string * X)) (acc : list (string * Y))
  : list (string * Y) :=
  fold_left
    (fun r kx =>
       match g (fst kx) (snd kx) with
       | Some y => obj_set (fst kx) y r
       | None => r
       end)
    l acc.

Lemma rebuild_get l : forall acc k,
  NoDup (keys l) ->
  obj_get k (rebuild l acc)
  = match obj_get k l with
    | Some x =>
        match g k x with
        | Some y => Some y
        | None => obj_get k acc
        end
    | None => obj_get k acc
    end.
Proof.
  induction l as [|[k1 x1] l IH]; intros acc k Hnd; [reflexivity|].
  inversion Hnd as [|? ? Hnotin Hnd']; subst.
  change (rebuild ((k1, x1) :: l) acc)
    with (rebuild l (match g k1 x1 with
                     | Some y => obj_set k1 y acc
                     | None => acc
                     end)).
  rewrite IH by assumption. simpl obj_get.
  destruct (String.eqb_spec k k1) as [->|Hne].
  - apply obj_get_None in Hnotin. rewrite Hnotin.
    destruct (g k1 x1); [apply obj_get_set_same | reflexivity].
  - assert (Hacc : obj_get k (match g k1 x1 with
                              | Some y => obj_set k1 y acc
                              | None => acc
                              end) = obj_get k acc).
    { destruct (g k1 x1); [now apply obj_get_set_other | reflexivity]. }
    now rewrite Hacc.
Qed.

Lemma rebuild_keys l : forall acc k,
  In k (keys (rebuild l acc)) ->
  In k (keys acc) \/ exists x, In (k, x) l /\ g k x <> None.
Proof.
  induction l as [|[k1 x1] l IH]; intros acc k Hin; [now left|].
  change (rebuild ((k1, x1) :: l) acc)
    with (rebuild l (match g k1 x1 with
                     | Some y => obj_set k1 y acc
                     | None => acc
                     end)) in Hin.
  apply IH in Hin. destruct Hin as [Hin|[x [Hx Hg]]].
  - destruct (g k1 x1) eqn:Hg1; [|now left].
    apply keys_obj_set in Hin. destruct Hin as [->|Hin]; [|now left].
    right. exists x1. split; [now left | congruence].
  - right. exists x. split; [now right | assumption].
Qed.
End Rebuild.

Lemma fold_left_ext {S X : Type} (f f' : S -> X -> S) l s :
  (forall s x, f s x = f' s x) -> fold_left f l s = fold_left f' l s.
Proof.
  intros H. revert s. induction l as [|x l IH]; intros s; simpl; [reflexivity|].
  now rewrite H, IH.
Qed.

(** ** Zipping the [repo_] fields *)

Section RepositoryZip.
Context {host : Host}.

(** The value a field contributes at a position: its entry there, or
    its only entry when it has exactly one. *)
Definition zip_value (values : list JsonValue) (index : nat) : option JsonValue :=
  match nth_error values index with
  | Some value => Some value
  | None => if (List.length values =? 1)%nat then nth_error values 0 else None
  end.

(** The longest normalized field. *)
Definition zip_width (repoFields : JsonObject) : nat :=
  list_max (map (fun ke => List.length (normalizeRepositoryValue (snd ke))) repoFields).

Definition nonempty_values (_ : string) (v : JsonValue) : option (list JsonValue) :=
  match normalizeRepositoryValue v with
  | [] => None
  | values => Some values
  end.

Lemma normalizeRepositoryValue_meaningful v x :
  In x (normalizeRepositoryValue v) -> isMeaningless x = false.
Proof.
  destruct v as [|b|n|s|items|o]; simpl; try (intros [<-|[]]; reflexivity).
  - intros [].
  - destruct (is_blank s) eqn:Hb; simpl; [intros []|].
    intros [<-|[]]. exact Hb.
  - intros Hin. apply filter_In in Hin. destruct Hin as [_ Hx].
    now apply negb_true_iff in Hx.
Qed.

Lemma nullish_or_zip values index :
  (forall x, In x values -> isMeaningless x = false) ->
  nullish_or (nth_error values index)
    (if (List.length values =? 1)%nat then nth_error values 0 else None)
  = zip_value values index.
Proof.
  intros Hv. unfold zip_value, nullish_or.
  destruct (nth_error values index) as [x|] eqn:Hn; [|reflexivity].
  apply nth_error_In, Hv in Hn. destruct x; try reflexivity. discriminate.
Qed.

Lemma rebuild_cons {X Y : Type} (g : string -> X -> option Y) k x l acc :
  rebuild g ((k, x) :: l) acc
  = rebuild g l (match g k x with
                 | Some y => obj_set k y acc
                 | None => acc
                 end).
Proof. reflexivity. Qed.

Lemma normalize_loop_fields repoFields st :
  fst (fold_left normalize_step repoFields st)
  = rebuild nonempty_values repoFields (fst st).
Proof.
  revert st. induction repoFields as [|[k v] l IH]; intros st; [reflexivity|].
  cbn [fold_left]. rewrite IH, rebuild_cons. f_equal.
  unfold normalize_step, nonempty_values. cbn [fst snd].
  now destruct (normalizeRepositoryValue v).
Qed.

Lemma normalize_loop_width repoFields st :
  snd (fold_left normalize_step repoFields st)
  = Nat.max (snd st) (zip_width repoFields).
Proof.
  revert st. induction repoFields as [|[k v] l IH]; intros st.
  - simpl. now rewrite Nat.max_0_r.
  - cbn [fold_left]. rewrite IH. unfold zip_width. cbn [map list_max fold_right snd].
    unfold normalize_step. cbn [fst snd].
    destruct (normalizeRepositoryValue v) as [|x values]; [reflexivity|].
    cbn [snd]. fold (list_max (map (fun ke : string * JsonValue =>
      List.length (normalizeRepositoryValue (snd ke))) l)).
    destruct (Nat.ltb_spec (snd st) (List.length (x :: values))); lia.
Qed.

Definition zip_entry (index : nat) (_ : string) (values : list JsonValue)
  : option JsonValue :=
  option_map cloneJsonValue (zip_value values index).

Lemma repository_at_rebuild normalized index :
  (forall k values x, In (k, values) normalized -> In x values ->
                      isMeaningless x = false) ->
  repository_at normalized index = rebuild (zip_entry index) normalized [].
Proof.
  intros Hn. unfold repository_at, rebuild.
  generalize (@nil (string * JsonValue)).
  induction normalized as [|[k values] l IH]; intros acc; [reflexivity|].
  cbn [fold_left fst snd]. rewrite IH by (intros; eapply Hn; [right|]; eauto).
  f_equal. rewrite nullish_or_zip by (intros; eapply Hn; [left|]; eauto).
  unfold zip_entry. now destruct (zip_value values index).
Qed.

Lemma NoDup_keys_obj_set {A : Type} k (v : A) o :
  NoDup (keys o) -> NoDup (keys (obj_set k v o)).
Proof.
  intros Hnd. unfold obj_set. destruct (obj_has k o) eqn:Hh.
  - now rewrite keys_obj_replace.
  - apply obj_has_false in Hh. destruct (array_index k) as [i|].
    + clear -Hnd Hh. induction o as [|[k1 v1] o IH]; simpl.
      * constructor; [intros []|constructor].
      * simpl in Hh, Hnd. inversion Hnd as [|? ? Hn1 Hnd1]; subst.
        destruct (array_index k1) as [j|]; [destruct (j <? i)%N|]; simpl.
        -- constructor; [|apply IH; tauto].
           intros Hin. apply keys_obj_insert_index in Hin.
           destruct Hin as [->|Hin]; tauto.
        -- constructor; [exact Hh | exact Hnd].
        -- constructor; [exact Hh | exact Hnd].
    + unfold keys. rewrite map_app. simpl.
      apply NoDup_rev in Hnd. apply (NoDup_cons k) in Hnd.
      * apply NoDup_rev in Hnd. simpl in Hnd. now rewrite rev_involutive in Hnd.
      * now rewrite <- in_rev.
Qed.

Lemma NoDup_keys_rebuild {X Y : Type} (g : string -> X -> option Y) l acc :
  NoDup (keys acc) -> NoDup (keys (rebuild g l acc)).
Proof.
  intros Hacc. unfold rebuild. apply fold_left_invariant; [assumption|].
  intros s [k x] _ Hs; simpl. destruct (g k x); [|assumption].
  now apply NoDup_keys_obj_set.
Qed.

Lemma In_obj_set {A : Type} k (v : A) o e :
  In e (obj_set k v o) -> e = (k, v) \/ In e o.
Proof.
  unfold obj_set. destruct (obj_has k o).
  - induction o as [|[k1 v1] o IH]; simpl; [tauto|].
    destruct (String.eqb_spec k k1) as [->|Hne]; simpl.
    + intros [<-|H]; [now left | right; now right].
    + intros [<-|H]; [right; now left|].
      destruct (IH H); [now left | right; now right].
  - destruct (array_index k) as [i|].
    + induction o as [|[k1 v1] o IH]; simpl.
      * intros [<-|[]]. now left.
      * destruct (array_index k1) as [j|]; [destruct (j <? i)%N|]; simpl.
        -- intros [<-|H]; [right; now left|].
           destruct (IH H); [now left | right; now right].
        -- intros [<-|H]; [now left | now right].
        -- intros [<-|H]; [now left | now right].
    + intros H. apply in_app_or in H. destruct H as [H|[<-|[]]]; auto.
Qed.

Lemma normalized_meaningful repoFields k values x :
  In (k, values) (rebuild nonempty_values repoFields []) ->
  In x values -> isMeaningless x = false.
Proof.
  set (Inv := fun r : list (string * list JsonValue) =>
                forall k values x, In (k, values) r ->
                  In x values -> isMeaningless x = false).
  revert k values x. change (Inv (rebuild nonempty_values repoFields [])).
  unfold rebuild. apply fold_left_invariant; [intros ? ? ? []|].
  intros r [k v] _ Hr; simpl. unfold nonempty_values.
  destruct (normalizeRepositoryValue v) as [|y values] eqn:Hv; [assumption|].
  intros k' values' x Hin Hx. apply In_obj_set in Hin.
  destruct Hin as [[= -> ->]|Hin]; [|now apply (Hr k' values')].
  apply (normalizeRepositoryValue_meaningful v). now rewrite Hv.
Qed.

End RepositoryZip.

Section RepositoryZipTheorem.
Context {host : Host}.

Lemma list_max_attained l : (0 < list_max l)%nat -> In (list_max l) l.
Proof.
  induction l as [|a l IH]; simpl; [lia|].
  intros Hpos. destruct (Nat.max_spec a (list_max l)) as [[Hlt ->]|[Hle ->]].
  - right. apply IH. lia.
  - now left.
Qed.

Lemma substring_all s : String.substring 0 (String.length s) s = s.
Proof. induction s as [|c s IH]; simpl; [reflexivity | now rewrite IH]. Qed.

Lemma slice_repo_prefix a : slice_from 5 ("repo_" ++ a) = a.
Proof. unfold slice_from. simpl. rewrite Nat.sub_0_r. apply substring_all. Qed.

Lemma startsWith_repo a : startsWith ("repo_" ++ a) "repo_" = true.
Proof. unfold startsWith. simpl. now destruct a. Qed.

Lemma startsWith_repo_prefix k :
  startsWith k "repo_" = true -> k = ("repo_" ++ slice_from 5 k)%string.
Proof.
  unfold startsWith. intros H. apply prefix_correct in H.
  destruct k as [|c1 [|c2 [|c3 [|c4 [|c5 k]]]]]; simpl in H; try discriminate.
  injection H as -> -> -> -> ->.
  change (String "r" (String "e" (String "p" (String "o" (String "_" k)))))
    with ("repo_" ++ k)%string. now rewrite slice_repo_prefix.
Qed.

Lemma extract_step_repoFields st k v a :
  a <> "" ->
  obj_get a (repoFields (extract_step st (k, v)))
  = if String.eqb k ("repo_" ++ a) then Some v else obj_get a (repoFields st).
Proof.
  intros Ha. destruct (String.eqb_spec k ("repo_" ++ a)%string) as [->|Hne].
  - unfold extract_step. cbn [fst snd].
    change (isInternalKey ("repo_" ++ a)) with false.
    change (String.eqb ("repo_" ++ a) "repositories") with false.
    rewrite startsWith_repo. cbv iota. rewrite slice_repo_prefix.
    destruct a as [|c a]; [congruence|]. simpl (0 <? _)%nat. cbv iota.
    cbn [repoFields]. apply obj_get_set_same.
  - unfold extract_step. cbn [fst snd].
    destruct (isInternalKey k); [reflexivity|].
    destruct (String.eqb k "repositories"); [reflexivity|].
    destruct (startsWith k "repo_") eqn:Hp; [|reflexivity].
    destruct (0 <? String.length (slice_from 5 k))%nat; [|reflexivity].
    cbn [repoFields]. apply obj_get_set_other.
    intros ->. apply Hne. now apply startsWith_repo_prefix.
Qed.

Lemma extract_loop_repoFields record : forall st a,
  NoDup (keys record) -> a <> "" ->
  obj_get a (repoFields (fold_left extract_step record st))
  = match obj_get ("repo_" ++ a) record with
    | Some v => Some v
    | None => obj_get a (repoFields st)
    end.
Proof.
  induction record as [|[k v] l IH]; intros st a Hnd Ha; [reflexivity|].
  inversion Hnd as [|? ? Hnotin Hnd']; subst.
  cbn [fold_left]. rewrite IH by assumption. cbn [obj_get].
  rewrite extract_step_repoFields by assumption.
  rewrite (String.eqb_sym k).
  destruct (String.eqb_spec ("repo_" ++ a)%string k) as [<-|Hne]; [|reflexivity].
  apply obj_get_None in Hnotin. now rewrite Hnotin.
Qed.

Lemma extract_loop_repoFields_NoDup record st :
  NoDup (keys (repoFields st)) ->
  NoDup (keys (repoFields (fold_left extract_step record st))).
Proof.
  intros Hst.
  apply (fold_left_invariant (fun s => NoDup (keys (repoFields s))));
    [assumption|].
  intros s [k v] _ Hs. unfold extract_step; cbn [fst snd].
  destruct (isInternalKey k); [assumption|].
  destruct (String.eqb k "repositories"); [assumption|].
  destruct (startsWith k "repo_"); [|assumption].
  destruct (0 <? String.length (slice_from 5 k))%nat; [|assumption].
  now apply NoDup_keys_obj_set.
Qed.

Lemma flat_map_nonempty {X Y : Type} (f f' : X -> list Y) (l : list X) :
  (forall x, In x l -> f' x = f x) ->
  (forall x, In x l -> f x <> []) ->
  flat_map (fun x => match f' x with [] => [] | r => [r] end) l = map f l.
Proof.
  intros Heq Hne. induction l as [|x l IH]; simpl; [reflexivity|].
  rewrite IH; [|intros; apply Heq; now right | intros; apply Hne; now right].
  rewrite (Heq x) by now left.
  destruct (f x) eqn:Hx; [|reflexivity].
  exfalso. apply (Hne x); [now left | assumption].
Qed.

Lemma buildRepositoryObjects_zip repoFields :
  NoDup (keys repoFields) ->
  buildRepositoryObjects repoFields
  = map (fun index =>
           rebuild (zip_entry index) (rebuild nonempty_values repoFields []) [])
      (seq 0 (zip_width repoFields))
  /\ forall index a, (index < zip_width repoFields)%nat ->
       obj_get a (rebuild (zip_entry index)
                    (rebuild nonempty_values repoFields []) [])
       = match obj_get a repoFields with
         | Some v =>
             option_map cloneJsonValue
               (zip_value (normalizeRepositoryValue v) index)
         | None => None
         end.
Proof.
  intros Hnd.
  assert (Hget : forall index a,
             obj_get a (rebuild (zip_entry index)
                          (rebuild nonempty_values repoFields []) [])
             = match obj_get a repoFields with
               | Some v =>
                   option_map cloneJsonValue
                     (zip_value (normalizeRepositoryValue v) index)
               | None => None
               end).
  { intros index a. rewrite rebuild_get by (apply NoDup_keys_rebuild; constructor).
    rewrite rebuild_get by assumption. cbn [obj_get].
    destruct (obj_get a repoFields) as [v|]; [|reflexivity].
    unfold nonempty_values, zip_entry.
    destruct (normalizeRepositoryValue v) as [|x values] eqn:Hv.
    - unfold zip_value. now destruct index.
    - now destruct (zip_value (x :: values) index). }
  split; [|intros; apply Hget].
  unfold buildRepositoryObjects. cbv zeta.
  rewrite normalize_loop_fields, normalize_loop_width. cbn [fst snd Nat.max].
  destruct (Nat.eqb_spec (zip_width repoFields) 0) as [->|Hpos]; [reflexivity|].
  apply (flat_map_nonempty
           (fun index =>
              rebuild (zip_entry index) (rebuild nonempty_values repoFields []) [])).
  { intros index _. apply repository_at_rebuild.
    intros; eapply normalized_meaningful; eauto. }
  intros index Hin Hr. apply in_seq in Hin.
  assert (Hw : In (zip_width repoFields)
                 (map (fun ke => List.length (normalizeRepositoryValue (snd ke)))
                    repoFields))
    by (apply list_max_attained; fold (zip_width repoFields); lia).
  apply in_map_iff in Hw. destruct Hw as [[k v] [Hlen Hkv]]. simpl in Hlen.
  assert (Hk : obj_get k repoFields = Some v).
  { destruct (obj_get k repoFields) as [v'|] eqn:Hg.
    - apply obj_get_In in Hg. f_equal.
      clear -Hnd Hg Hkv. induction repoFields as [|[k1 v1] l IH]; [destruct Hg|].
      inversion Hnd as [|? ? Hn Hnd']; subst.
      destruct Hg as [[= -> ->]|Hg]; destruct Hkv as [[= <-]|Hkv]; auto.
      + exfalso. apply Hn. exact (in_map fst _ _ Hkv).
      + subst. exfalso. apply Hn. exact (in_map fst _ _ Hg).
    - apply obj_get_None in Hg. exfalso. apply Hg. exact (in_map fst _ _ Hkv). }
  specialize (Hget index k). rewrite Hr, Hk in Hget. cbn [obj_get] in Hget.
  unfold zip_value in Hget.
  destruct (nth_error (normalizeRepositoryValue v) index) as [x|] eqn:Hn;
    [discriminate|].
  apply nth_error_None in Hn. lia.
Qed.

(** C6, as amended.  The [repo_<attribute>] fields of a record are
    zipped positionally after the null and blank entries of each field
    are dropped: the attribute [a] is read from the field [repo_a]; one
    object is built per position below the length of the longest field
    so normalized; at a position, an attribute takes the field's
    remaining entry there, or the field's only remaining entry when it
    has exactly one (broadcast), and is absent otherwise.  This is for
    a record whose keys, at every depth, are outside the property names
    of [Object.prototype], and so are the attribute names of its [repo_]
    fields: the field [repo___proto__] gives no attribute.  The record
    with [repo_url: ["u1","u2"]] and [repo_stars: 5] gives
    [{url:"u1", stars:5}] and [{url:"u2", stars:5}]. *)
Theorem repo_fields_are_zipped (record : JsonObject) :
  NoDup (keys record) ->
  own_names (JObject record) = true ->
  repo_names record = true ->
  let fields := repoFields (extract_loop record) in
  let objs := buildRepositoryObjects fields in
  fst (extractRepositoryEntries record) = repoObjects (extract_loop record) ++ objs
  /\ (forall a, a <> "" -> obj_get a fields = obj_get ("repo_" ++ a) record)
  /\ List.length objs = zip_width fields
  /\ (forall index a, (index < zip_width fields)%nat ->
        obj_get a (nth index objs [])
        = match obj_get a fields with
          | Some v =>
              option_map cloneJsonValue
                (zip_value (normalizeRepositoryValue v) index)
          | None => None
          end)
  /\ fst (extractRepositoryEntries
            [("repo_url", JArray [JString "u1"; JString "u2"]);
             ("repo_stars", JNumber 5)])
     = [[("url", JString "u1"); ("stars", JNumber 5)];
        [("url", JString "u2"); ("stars", JNumber 5)]].
Proof.
  intros Hnd _ _ fields objs.
  assert (Hf : NoDup (keys fields)).
  { apply extract_loop_repoFields_NoDup. constructor. }
  destruct (buildRepositoryObjects_zip fields Hf) as [Hobjs Hget].
  split; [reflexivity|].
  split.
  { intros a Ha. unfold fields, extract_loop.
    rewrite extract_loop_repoFields by assumption.
    now destruct (obj_get ("repo_" ++ a) record). }
  split; [unfold objs; rewrite Hobjs, length_map; apply length_seq|].
  split; [|reflexivity].
  intros index a Hlt. unfold objs. rewrite Hobjs.
  rewrite <- (Hget index a Hlt). f_equal.
  set (f := fun i => rebuild (zip_entry i) (rebuild nonempty_values fields []) []).
  rewrite (nth_indep _ [] (f 0%nat)) by (now rewrite length_map, length_seq).
  rewrite map_nth. unfold f. now rewrite seq_nth.
Qed.

End RepositoryZipTheorem.

Module RepositoryZipExample.
Import IsoHost.

Definition record : JsonObject :=
  [("id", JString "a");
   ("repo_url", JArray [JString "u1"; JString "u2"; JString "u3"]);
   ("repo_stars", JNumber 5);
   ("repo_lang", JArray [JString "ts"; JNull; JString "go"])].

Lemma repo_fields_are_zipped_witness :
  NoDup (keys record)
  /\ own_names (JObject record) = true
  /\ repo_names record = true
  /\ buildRepositoryObjects (repoFields (extract_loop record))
     = [[("url", JString "u1"); ("stars", JNumber 5); ("lang", JString "ts")];
        [("url", JString "u2"); ("stars", JNumber 5); ("lang", JString "go")];
        [("url", JString "u3"); ("stars", JNumber 5)]]
  /\ List.length (buildRepositoryObjects (repoFields (extract_loop record)))
     = zip_width (repoFields (extract_loop record)).
Proof.
  assert (Hnd : NoDup (keys record)).
  { repeat constructor; simpl; intuition discriminate. }
  split; [exact Hnd|]. split; [reflexivity|]. split; [reflexivity|].
  split; [reflexivity|].
  exact (proj1 (proj2 (proj2
           (repo_fields_are_zipped record Hnd eq_refl eq_refl)))).
Defined.

(** C6, the claim as stated fails.  The second field has no entry at
    the first position and one at the second; once its null entry is
    dropped it is a one-entry field, and that entry is given to both
    objects.  A field with three positions of which two are null gives
    one object. *)
Lemma empty_entries_shift_positions :
  fst (extractRepositoryEntries
         [("repo_url", JArray [JString "u1"; JString "u2"]);
          ("repo_lang", JArray [JNull; JString "go"])])
  = [[("url", JString "u1"); ("lang", JString "go")];
     [("url", JString "u2"); ("lang", JString "go")]]
  /\ fst (extractRepositoryEntries
            [("repo_url", JArray [JNull; JNull; JString "u"])])
     = [[("url", JString "u")]].
Proof. split; reflexivity. Qed.

End RepositoryZipExample.

(** ** The freshness comparison *)

Section Freshness.
Context {host : Host}.

Lemma str_gtb_asym a b : str_gtb a b = true -> str_gtb b a = false.
Proof.
  unfold str_gtb. rewrite (String.compare_antisym b a).
  destruct (String.compare a b); simpl; congruence.
Qed.

Lemma str_gtb_irrefl s : str_gtb s s = false.
Proof.
  destruct (str_gtb s s) eqn:H; [|reflexivity].
  pose proof (str_gtb_asym _ _ H). congruence.
Qed.

Lemma compare_strings_refl s : compare_strings s s = 0.
Proof. unfold compare_strings. now rewrite String.eqb_refl. Qed.

Lemma compare_strings_antisym a b : compare_strings a b = - compare_strings b a.
Proof.
  unfold compare_strings, str_gtb. rewrite (String.eqb_sym b a).
  destruct (String.eqb_spec a b) as [->|Hne]; [reflexivity|].
  rewrite (String.compare_antisym b a).
  destruct (String.compare a b) eqn:Hc; simpl; try reflexivity.
  apply String.compare_eq_iff in Hc. contradiction.
Qed.

Lemma compare_strings_cases a b :
  (compare_strings a b = 0 /\ a = b)
  \/ (compare_strings a b = 1 /\ str_gtb a b = true)
  \/ (compare_strings a b = -1 /\ str_gtb b a = true).
Proof.
  unfold compare_strings, str_gtb.
  destruct (String.eqb_spec a b) as [->|Hne]; [now left|]. right.
  rewrite (String.compare_antisym b a).
  destruct (String.compare a b) eqn:Hc; simpl; auto.
  apply String.compare_eq_iff in Hc. contradiction.
Qed.

Lemma compareMetadata_refl m : compareMetadata m m = 0.
Proof.
  unfold compareMetadata. destruct (toTimestamp m) as [t|].
  - rewrite Z.eqb_refl. simpl. apply compare_strings_refl.
  - apply compare_strings_refl.
Qed.

Lemma compareMetadata_antisym a b : compareMetadata a b = - compareMetadata b a.
Proof.
  unfold compareMetadata.
  destruct (toTimestamp a) as [ta|], (toTimestamp b) as [tb|];
    try apply compare_strings_antisym.
  rewrite (Z.eqb_sym tb ta).
  destruct (Z.eqb_spec ta tb) as [->|Hne]; simpl;
    [apply compare_strings_antisym|].
  destruct (Z.gtb_spec ta tb), (Z.gtb_spec tb ta); try reflexivity; lia.
Qed.

(** With two timestamps, the comparison is numeric when they differ and
    falls back on the string forms when they are equal. *)
Lemma compareMetadata_timestamps next current tn tc :
  toTimestamp next = Some tn -> toTimestamp current = Some tc ->
  compareMetadata next current
  = if tn =? tc
    then compare_strings (toComparableString next) (toComparableString current)
    else if tn >? tc then 1 else -1.
Proof.
  intros Hn Hc. unfold compareMetadata. rewrite Hn, Hc.
  now destruct (tn =? tc).
Qed.

End Freshness.

(** ** Two records of one identity *)

Section TwoRecords.
Context {host : Host}.
Variables idField metadataField : string.

Definition summary_of (total unique used older : Z) : CollapseSummary :=
  {| totalRecords := total; uniqueIds := unique; usedRecords := used;
     mergedRecords := used - unique; missingId := 0; missingMetadata := 0;
     olderRecordsSkipped := older |}.


End TwoRecords.

(** ** The group of one identity *)

Section Election.
Context {host : Host}.
Variables idField metadataField : string.

(** The freshness values and fields of the usable records of identity
    [K], in input order. *)
Definition candidates (K : string) (input : list JsonValue)
  : list (JsonValue * JsonObject) :=
  flat_map
    (fun record =>
       match usable idField metadataField record with
       | Some (k, m, fields) => if String.eqb k K then [(m, fields)] else []
       | None => []
       end)
    input.

(** What the loop does to the group of an identity when a record of
    that identity arrives. *)
Definition elect_step (g : option Group) (mf : JsonValue * JsonObject)
  : option Group :=
  match g with
  | None => Some {| metadata := fst mf; records := [snd mf] |}
  | Some existing =>
      if compareMetadata (fst mf) (metadata existing) >? 0 then
        Some {| metadata := fst mf; records := [snd mf] |}
      else if compareMetadata (fst mf) (metadata existing) =? 0 then
        Some {| metadata := metadata existing;
                records := records existing ++ [snd mf] |}
      else Some existing
  end.

Lemma place_lookup K k m fields st :
  map_get K (byId (place k m fields st))
  = if String.eqb k K then elect_step (map_get K (byId st)) (m, fields)
    else map_get K (byId st).
Proof.
  unfold place, elect_step. cbn [fst snd].
  destruct (String.eqb_spec k K) as [->|Hne].
  - destruct (map_get K (byId st)) as [g|] eqn:Hg; cbn [byId regroup].
    + destruct (compareMetadata m (metadata g) >? 0);
        [|destruct (compareMetadata m (metadata g) =? 0)];
        cbn [byId regroup]; rewrite ?map_get_set_same; try reflexivity.
      exact Hg.
    + apply map_get_set_same.
  - assert (Hk : K <> k) by congruence.
    destruct (map_get k (byId st)) as [g|]; cbn [byId regroup].
    + destruct (compareMetadata m (metadata g) >? 0);
        [|destruct (compareMetadata m (metadata g) =? 0)];
        cbn [byId regroup]; rewrite ?map_get_set_other by assumption;
        reflexivity.
    + now apply map_get_set_other.
Qed.

Lemma loop_lookup K input : forall st,
  map_get K (byId (fold_left (collapse_step idField metadataField) input st))
  = fold_left elect_step (candidates K input) (map_get K (byId st)).
Proof.
  induction input as [|r input IH]; intros st; [reflexivity|].
  cbn [fold_left candidates flat_map]. rewrite fold_left_app, IH. f_equal.
  destruct (usable idField metadataField r) as [[[k m] f]|] eqn:Hu.
  - rewrite (collapse_step_usable _ _ _ _ _ _ _ Hu), place_lookup.
    now destruct (String.eqb k K).
  - assert (Hd : is_usable idField metadataField r = false)
      by (unfold is_usable; now rewrite Hu).
    destruct (step_defective idField metadataField st r Hd) as [-> _].
    reflexivity.
Qed.

(** The comparison orders the given freshness values consistently when
    it is transitive on them. *)
Definition ordered_freshness (ms : list JsonValue) : bool :=
  forallb
    (fun a =>
       forallb
         (fun b =>
            forallb
              (fun c =>
                 implb ((compareMetadata a b <=? 0) && (compareMetadata b c <=? 0))
                   (compareMetadata a c <=? 0))
              ms)
         ms)
    ms.

Lemma ordered_freshness_trans ms a b c :
  ordered_freshness ms = true -> In a ms -> In b ms -> In c ms ->
  compareMetadata a b <= 0 -> compareMetadata b c <= 0 -> compareMetadata a c <= 0.
Proof.
  unfold ordered_freshness. rewrite forallb_forall. intros H Ha Hb Hc Hab Hbc.
  specialize (H a Ha). rewrite forallb_forall in H. specialize (H b Hb).
  rewrite forallb_forall in H. specialize (H c Hc).
  apply Z.leb_le in Hab, Hbc. rewrite Hab, Hbc in H. simpl in H.
  now apply Z.leb_le.
Qed.

(** Below a strictly fresher value, strictly. *)
Lemma ordered_freshness_strict ms a b c :
  ordered_freshness ms = true -> In a ms -> In b ms -> In c ms ->
  compareMetadata a b <= 0 -> compareMetadata b c < 0 -> compareMetadata a c < 0.
Proof.
  intros H Ha Hb Hc Hab Hbc.
  pose proof (ordered_freshness_trans ms a b c H Ha Hb Hc Hab ltac:(lia)) as Hac.
  destruct (Z.eq_dec (compareMetadata a c) 0) as [H0|]; [|lia].
  pose proof (compareMetadata_antisym c a) as Hca.
  pose proof (ordered_freshness_trans ms c a b H Hc Ha Hb ltac:(lia) Hab) as Hcb.
  pose proof (compareMetadata_antisym c b). lia.
Qed.


Definition ties_with (M : JsonValue) (mf : JsonValue * JsonObject) : bool :=
  compareMetadata (fst mf) M =? 0.


(** The state of the election after the candidates [seen]. *)
Definition elected (seen : list (JsonValue * JsonObject)) (g : option Group) : Prop :=
  match g with
  | None => seen = []
  | Some G =>
      In (metadata G) (map fst seen)
      /\ (forall mf, In mf seen -> compareMetadata (fst mf) (metadata G) <= 0)
      /\ records G = map snd (filter (ties_with (metadata G)) seen)
  end.

Lemma filter_none {X : Type} (p : X -> bool) l :
  (forall x, In x l -> p x = false) -> filter p l = [].
Proof.
  induction l as [|x l IH]; intros H; simpl; [reflexivity|].
  rewrite (H x) by now left. apply IH. intros; apply H; now right.
Qed.

Lemma elect_step_elected ms seen g mf :
  ordered_freshness ms = true ->
  (forall m, In m (map fst (seen ++ [mf])) -> In m ms) ->
  elected seen g -> elected (seen ++ [mf]) (elect_step g mf).
Proof.
  intros Hord Hms Hg. destruct mf as [m f].
  assert (Hm : In m ms) by (apply Hms; rewrite map_app, in_app_iff; right; now left).
  assert (Hseen : forall mf', In mf' seen -> In (fst mf') ms).
  { intros mf' Hin. apply Hms. rewrite map_app, in_app_iff. left.
    now apply in_map. }
  destruct g as [G|]; cbn [elect_step fst snd].
  - destruct Hg as (HM & Hmax & Hrec).
    assert (HMs : In (metadata G) ms).
    { apply Hms. rewrite map_app, in_app_iff. now left. }
    destruct (Z.gtb_spec (compareMetadata m (metadata G)) 0) as [Hgt|Hle];
      [|destruct (Z.eqb_spec (compareMetadata m (metadata G)) 0) as [Heq|Hne]];
      cbn [elected metadata records].
    + split; [rewrite map_app, in_app_iff; right; now left|].
      assert (Hold : forall mf', In mf' seen -> compareMetadata (fst mf') m < 0).
      { intros mf' Hin.
        apply (ordered_freshness_strict ms _ (metadata G)); auto.
        pose proof (compareMetadata_antisym (metadata G) m). lia. }
      split.
      * intros mf' Hin. apply in_app_or in Hin.
        destruct Hin as [Hin|[<-|[]]]; [specialize (Hold _ Hin); lia|].
        cbn [fst]. rewrite compareMetadata_refl. lia.
      * rewrite filter_app, filter_none.
        -- unfold filter, ties_with. cbn [fst]. rewrite compareMetadata_refl.
           reflexivity.
        -- intros mf' Hin. unfold ties_with. specialize (Hold _ Hin).
           apply Z.eqb_neq. lia.
    + split; [rewrite map_app, in_app_iff; now left|]. split.
      * intros mf' Hin. apply in_app_or in Hin.
        destruct Hin as [Hin|[<-|[]]]; [now apply Hmax | cbn [fst]; lia].
      * rewrite filter_app, map_app, <- Hrec. unfold filter, ties_with.
        cbn [fst]. rewrite Heq. reflexivity.
    + split; [rewrite map_app, in_app_iff; now left|]. split.
      * intros mf' Hin. apply in_app_or in Hin.
        destruct Hin as [Hin|[<-|[]]]; [now apply Hmax | cbn [fst]; lia].
      * rewrite filter_app, map_app, <- Hrec. unfold filter, ties_with.
        cbn [fst]. apply Z.eqb_neq in Hne. rewrite Hne. now rewrite app_nil_r.
  - cbn in Hg. subst seen. cbn [elected metadata records app map fst].
    split; [now left|]. split.
    + intros mf' [<-|[]]. cbn [fst]. rewrite compareMetadata_refl. lia.
    + unfold filter, ties_with. cbn [fst]. now rewrite compareMetadata_refl.
Qed.

Lemma election ms cs : forall seen g,
  ordered_freshness ms = true ->
  (forall m, In m (map fst (seen ++ cs)) -> In m ms) ->
  elected seen g -> elected (seen ++ cs) (fold_left elect_step cs g).
Proof.
  induction cs as [|mf cs IH]; intros seen g Hord Hms Hg.
  - now rewrite app_nil_r.
  - cbn [fold_left].
    replace (seen ++ mf :: cs) with ((seen ++ [mf]) ++ cs) in *
      by (now rewrite <- app_assoc).
    apply IH; [assumption | assumption |].
    apply (elect_step_elected ms); [assumption | | assumption].
    intros m Hin. apply Hms. rewrite map_app, in_app_iff. now left.
Qed.



End Election.

(** Two freshness values are always ordered consistently. *)
Lemma ordered_freshness_pair {host : Host} (a b : JsonValue) :
  ordered_freshness [a; b] = true.
Proof.
  unfold ordered_freshness. simpl. rewrite !compareMetadata_refl. simpl.
  destruct (compareMetadata a b <=? 0), (compareMetadata b a <=? 0); reflexivity.
Qed.

Section UniformFreshness.
Context {host : Host}.

Lemma compare_strings_le a b :
  compare_strings a b <= 0 <-> String.compare a b <> Gt.
Proof.
  unfold compare_strings, str_gtb.
  destruct (String.eqb_spec a b) as [->|Hne].
  - split; [|lia]. intros _ H.
    pose proof (String.compare_antisym b b) as Ha. rewrite H in Ha. discriminate.
  - destruct (String.compare a b); split; try lia; congruence.
Qed.

Lemma compare_strings_le_trans a b c :
  compare_strings a b <= 0 -> compare_strings b c <= 0 ->
  compare_strings a c <= 0.
Proof.
  rewrite !compare_strings_le. intros Hab Hbc Hac.
  destruct (String.compare a b) eqn:Eab; [| |congruence].
  - apply String.compare_eq_iff in Eab. subst. contradiction.
  - destruct (String.compare b c) eqn:Ebc; [| |congruence].
    + apply String.compare_eq_iff in Ebc. subst. congruence.
    + apply OrderedTypeEx.String_as_OT.cmp_lt in Eab, Ebc.
      pose proof (OrderedTypeEx.String_as_OT.lt_trans _ _ _ Eab Ebc) as H.
      apply OrderedTypeEx.String_as_OT.cmp_lt in H.
      unfold OrderedTypeEx.String_as_OT.cmp in H. congruence.
Qed.

Definition has_timestamp (m : JsonValue) : bool :=
  match toTimestamp m with
  | Some _ => true
  | None => false
  end.

(** The comparison orders the values consistently when all of them
    parse as timestamps, and when none does. *)
Lemma ordered_freshness_uniform ms :
  forallb has_timestamp ms = true
  \/ forallb (fun m => negb (has_timestamp m)) ms = true ->
  ordered_freshness ms = true.
Proof.
  intros Hu. unfold ordered_freshness.
  apply forallb_forall; intros a Ha. apply forallb_forall; intros b Hb.
  apply forallb_forall; intros c Hc.
  destruct (compareMetadata a b <=? 0) eqn:Hab; [|reflexivity].
  destruct (compareMetadata b c <=? 0) eqn:Hbc; [|reflexivity].
  cbn [andb implb]. apply Z.leb_le in Hab, Hbc. apply Z.leb_le.
  unfold has_timestamp in Hu. rewrite !forallb_forall in Hu.
  unfold compareMetadata in *.
  destruct Hu as [Hu|Hu];
    pose proof (Hu a Ha) as Ta; pose proof (Hu b Hb) as Tb;
    pose proof (Hu c Hc) as Tc;
    destruct (toTimestamp a) as [ta|], (toTimestamp b) as [tb|],
      (toTimestamp c) as [tc|]; try discriminate.
  - destruct (Z.eqb_spec ta tb), (Z.eqb_spec tb tc), (Z.eqb_spec ta tc);
      cbn [negb] in *;
      repeat match goal with
             | H : context [(?x >? ?y)] |- _ => destruct (Z.gtb_spec x y)
             | |- context [(?x >? ?y)] => destruct (Z.gtb_spec x y)
             end; try lia.
    now apply (compare_strings_le_trans _ (toComparableString b)).
  - now apply (compare_strings_le_trans _ (toComparableString b)).
Qed.

End UniformFreshness.


Module FreshestExample.
Import IsoHost.

Definition older : JsonObject :=
  [("id", JString "a"); ("t", JString "2023-01-01"); ("v", JNumber 1)].
Definition newer : JsonObject :=
  [("id", JString "a"); ("t", JString "2024-01-01"); ("v", JNumber 2)].
Definition kept : Group :=
  {| metadata := JString "2024-01-01"; records := [newer] |}.



End FreshestExample.

(** ** Funding entries of one round *)

Section FundingRounds.
Context {host : Host}.

(** The round identifier that keys an entry, when it has one. *)
Definition round_of (entry : JsonObject) : option string :=
  trimmed_string (obj_get "round_id" entry).

Definition round_ids (entries : list JsonObject) : list string :=
  flat_map (fun e => match round_of e with Some r => [r] | None => [] end) entries.

Lemma createFundingKey_round s r :
  round_of s = Some r ->
  createFundingKey (obj_get "round_id" s) s = ("round:" ++ r)%string.
Proof. unfold round_of, createFundingKey. now intros ->. Qed.

Lemma addEntry_round seen e r :
  round_of (sanitizeFundingRecord e) = Some r ->
  addEntry seen (JObject e)
  = match map_get ("round:" ++ r)%string seen with
    | None => Some (map_set ("round:" ++ r)%string (sanitizeFundingRecord e) seen)
    | Some existingEntry =>
        bind (pickLatestByUpdatedAt existingEntry (sanitizeFundingRecord e))
          (fun choice => Some (map_set ("round:" ++ r)%string choice seen))
    end.
Proof.
  intros Hr. unfold addEntry.
  pose proof (createFundingKey_round _ _ Hr) as Hk.
  destruct (sanitizeFundingRecord e) as [|x s] eqn:Hs; [discriminate|].
  cbv beta iota zeta. now rewrite Hk.
Qed.

Lemma merge_two_of_one_round e1 e2 r :
  round_of (sanitizeFundingRecord e1) = Some r ->
  round_of (sanitizeFundingRecord e2) = Some r ->
  mergeFundingEntries None [e1; e2]
  = bind (pickLatestByUpdatedAt (sanitizeFundingRecord e1) (sanitizeFundingRecord e2))
      (fun choice => Some [removeFundingInternalKeys choice]).
Proof.
  intros H1 H2. unfold mergeFundingEntries. cbn [bind map addEntries].
  rewrite (addEntry_round _ _ _ H1). cbn [map_get bind map_set].
  rewrite (addEntry_round _ _ _ H2). cbn [map_get]. rewrite String.eqb_refl.
  destruct (pickLatestByUpdatedAt (sanitizeFundingRecord e1)
              (sanitizeFundingRecord e2)) as [choice|]; [|reflexivity].
  cbn [bind map_set]. rewrite String.eqb_refl. reflexivity.
Qed.

(** *** One entry per round, whatever the lists *)

Definition keyed_by_round (seen : list (string * JsonObject)) : Prop :=
  NoDup (keys seen)
  /\ forall key s, In (key, s) seen ->
       key = createFundingKey (obj_get "round_id" s) s /\ NoDup (keys s).

Lemma sanitizeFundingRecord_NoDup e : NoDup (keys (sanitizeFundingRecord e)).
Proof.
  unfold sanitizeFundingRecord.
  apply (fold_left_invariant (fun s : JsonObject => NoDup (keys s))); [constructor|].
  intros s [k v] _ Hs; cbn [fst snd]. destruct (isInternalKey k); [assumption|].
  now apply NoDup_keys_obj_set.
Qed.

Lemma addEntry_keyed seen value seen' :
  keyed_by_round seen -> addEntry seen value = Some seen' -> keyed_by_round seen'.
Proof.
  intros [Hnd Hk]. destruct value as [| | | | |o];
    try (intros [= <-]; now split).
  unfold addEntry. pose proof (sanitizeFundingRecord_NoDup o) as Hs.
  destruct (sanitizeFundingRecord o) as [|x s]; [intros [= <-]; now split|].
  cbv beta iota zeta.
  set (key := createFundingKey (obj_get "round_id" (x :: s)) (x :: s)).
  destruct (map_get key seen) as [existingEntry|] eqn:Hg.
  - unfold bind.
    destruct (pickLatestByUpdatedAt existingEntry (x :: s)) as [choice|] eqn:Hp;
      [|discriminate].
    intros [= <-]. split; [now apply NoDup_keys_map_set|].
    intros key' s' Hin. apply In_map_set in Hin.
    destruct Hin as [[= -> ->]|Hin]; [|now apply Hk].
    apply pickLatestByUpdatedAt_choice in Hp. destruct Hp as [->| ->].
    + apply map_get_In in Hg. destruct (Hk _ _ Hg) as [<- Hn]. now split.
    + now split.
  - intros [= <-]. split; [now apply NoDup_keys_map_set|].
    intros key' s' Hin. apply In_map_set in Hin.
    destruct Hin as [[= -> ->]|Hin]; [now split | now apply Hk].
Qed.

Lemma addEntries_keyed values : forall seen seen',
  keyed_by_round seen -> addEntries seen values = Some seen' ->
  keyed_by_round seen'.
Proof.
  induction values as [|v values IH]; intros seen seen' Hk; cbn [addEntries].
  - now intros [= <-].
  - unfold bind. destruct (addEntry seen v) as [s1|] eqn:H1; [|discriminate].
    apply IH. now apply (addEntry_keyed seen v).
Qed.

Lemma trimmed_string_clone v :
  trimmed_string (option_map cloneJsonValue v) = trimmed_string v.
Proof. destruct v as [[]|]; reflexivity. Qed.

Lemma removeFundingInternalKeys_round s :
  NoDup (keys s) -> round_of (removeFundingInternalKeys s) = round_of s.
Proof.
  intros Hnd. unfold round_of, removeFundingInternalKeys.
  erewrite (fold_left_ext _
              (fun r kx =>
                 match (fun k v =>
                          if String.eqb k "id" || String.eqb k "project_id"
                          then None else Some (cloneJsonValue v))
                         (fst kx) (snd kx) with
                 | Some y => obj_set (fst kx) y r
                 | None => r
                 end)).
  - fold (rebuild (fun k v =>
                     if String.eqb k "id" || String.eqb k "project_id"
                     then None else Some (cloneJsonValue v)) s []).
    rewrite rebuild_get by assumption. cbn [obj_get].
    destruct (obj_get "round_id" s) as [v|]; [|reflexivity].
    change (String.eqb "round_id" "id" || String.eqb "round_id" "project_id")
      with false. cbv iota.
    apply (trimmed_string_clone (Some v)).
  - intros r [k v]; cbn [fst snd].
    now destruct (String.eqb k "id" || String.eqb k "project_id").
Qed.

Lemma round_ids_NoDup seen :
  keyed_by_round seen ->
  NoDup (round_ids (map (fun e => removeFundingInternalKeys (snd e)) seen)).
Proof.
  intros [Hnd Hk]. induction seen as [|[key s] seen IH]; [constructor|].
  inversion Hnd as [|? ? Hnotin Hnd']; subst.
  assert (IH' : NoDup (round_ids (map (fun e => removeFundingInternalKeys (snd e)) seen))).
  { apply IH; [assumption|]. intros; apply Hk; now right. }
  unfold round_ids. cbn [map flat_map snd].
  destruct (Hk key s (or_introl eq_refl)) as [Hkey Hs].
  rewrite removeFundingInternalKeys_round by assumption.
  destruct (round_of s) as [r|] eqn:Hr; [|exact IH'].
  cbn [app]. constructor; [|exact IH'].
  intros Hin. apply in_flat_map in Hin. destruct Hin as [e [He Hre]].
  apply in_map_iff in He. destruct He as [[key' s'] [<- Hin']]. cbn [snd] in Hre.
  destruct (Hk key' s' (or_intror Hin')) as [Hkey' Hs'].
  rewrite removeFundingInternalKeys_round in Hre by assumption.
  destruct (round_of s') as [r'|] eqn:Hr'; [|destruct Hre].
  destruct Hre as [->|[]].
  rewrite (createFundingKey_round _ _ Hr) in Hkey.
  rewrite (createFundingKey_round _ _ Hr') in Hkey'.
  apply Hnotin. rewrite Hkey, <- Hkey'. exact (in_map fst _ _ Hin').
Qed.

Lemma mergeFundingEntries_rounds existing incoming entries :
  mergeFundingEntries existing incoming = Some entries -> NoDup (round_ids entries).
Proof.
  unfold mergeFundingEntries, bind.
  assert (H0 : keyed_by_round []) by (split; [constructor | intros ? ? []]).
  destruct (match existing with
            | None => Some []
            | Some (JArray items) => addEntries [] items
            | Some e => addEntry [] e
            end) as [seen1|] eqn:H1; [|discriminate].
  assert (Hk1 : keyed_by_round seen1).
  { destruct existing as [e|]; [|injection H1 as <-; exact H0].
    destruct e; try exact (addEntry_keyed _ _ _ H0 H1).
    exact (addEntries_keyed _ _ _ H0 H1). }
  destruct (addEntries seen1 (map JObject incoming)) as [seen2|] eqn:H2;
    [|discriminate].
  intros [= <-]. apply round_ids_NoDup. exact (addEntries_keyed _ _ _ Hk1 H2).
Qed.

End FundingRounds.

Module FundingExample.
Import IsoHost.

(** When [updated_at] is absent from an entry, the comparison throws and
    nothing is merged. *)
Lemma absent_updated_at_throws :
  mergeFundingEntries None
    [[("round_id", JString "7"); ("amount", JNumber 1)];
     [("round_id", JString "7"); ("updated_at", JString "2024-02-01");
      ("amount", JNumber 2)]]
  = None.
Proof. reflexivity. Qed.

End FundingExample.

(** ** Parsing the input text *)

Module ParseExample.
Import IsoHost.

Definition quoted (s : string) : string := String dquote (s ++ String dquote "").

(** The text [{"id":"a"}]. *)
Definition one_object : string :=
  "{" ++ quoted "id" ++ ":" ++ quoted "a" ++ "}".

(** The text [{"id":"a"}], a line feed, [{"id":"b"}]. *)
Definition two_objects : string :=
  one_object ++ String LF ("{" ++ quoted "id" ++ ":" ++ quoted "b" ++ "}").

(** C7, at the failing input.  A single line that holds one JSON object
    is newline-delimited JSON with one object per line, and is rejected:
    the text parses as a whole, the result is not an array, and the
    fallback on lines is never reached.  The same object followed by a
    second line is accepted, and so is the array that holds it. *)
Theorem single_object_line_is_rejected :
  json_read one_object = Some (JObject [("id", JString "a")])
  /\ parseRecords one_object = inl ExpectedArrayOrNdjson
  /\ parseRecords two_objects
     = inr [JObject [("id", JString "a")]; JObject [("id", JString "b")]]
  /\ parseRecords ("[" ++ one_object ++ "]") = inr [JObject [("id", JString "a")]].
Proof. repeat split. Qed.

End ParseExample.

(** Whatever the runtime, a text that parses as a whole to something
    other than an array is rejected, and the lines are looked at only
    when the text does not parse as a whole. *)
Lemma parseRecords_cases {host : Host} (raw : string) :
  parseRecords raw
  = if String.eqb (trim raw) "" then inr []
    else match JSON_parse (trim raw) with
         | Some (JArray parsed) => inr parsed
         | Some _ => inl ExpectedArrayOrNdjson
         | None =>
             match parse_lines
                     (filter (fun line => (0 <? String.length line)%nat)
                        (map trim (split_lines (trim raw)))) with
             | Some parsed =>
                 if forallb isJsonObject parsed then inr parsed else inl SyntaxError
             | None => inl SyntaxError
             end
         end.
Proof. unfold parseRecords. now destruct (trim raw). Qed.

(** ** The key order of objects *)

Section KeyOrder.

(** [k'] may come after [k] among the own keys of an object: array
    indices ascend and come before the other keys. *)
Definition precedes (k k' : string) : bool :=
  match array_index k, array_index k' with
  | Some i, Some j => (i <? j)%N
  | Some _, None => true
  | None, Some _ => false
  | None, None => true
  end.

(** The keys are pairwise distinct and in own-property order. *)
Fixpoint canonical_keys (ks : list string) : bool :=
  match ks with
  | [] => true
  | k :: ks' =>
      negb (existsb (String.eqb k) ks') && forallb (precedes k) ks'
      && canonical_keys ks'
  end.

(** A value all of whose objects have canonical keys: a value that the
    runtime can hold. *)
Fixpoint wf_value (v : JsonValue) : bool :=
  match v with
  | JArray items => forallb wf_value items
  | JObject entries =>
      canonical_keys (map fst entries)
      && forallb (fun ke => wf_value (snd ke)) entries
  | _ => true
  end.

Lemma canonical_cons k ks :
  canonical_keys (k :: ks) = true <->
  ~ In k ks /\ (forall x, In x ks -> precedes k x = true)
  /\ canonical_keys ks = true.
Proof.
  cbn [canonical_keys]. rewrite !andb_true_iff, negb_true_iff, forallb_forall.
  assert (Hin : existsb (String.eqb k) ks = false <-> ~ In k ks).
  { split.
    - intros He Hin. assert (existsb (String.eqb k) ks = true); [|congruence].
      apply existsb_exists. exists k. split; [assumption | apply String.eqb_refl].
    - intros Hn. destruct (existsb (String.eqb k) ks) eqn:He; [|reflexivity].
      apply existsb_exists in He. destruct He as [x [Hx He]].
      apply String.eqb_eq in He. subst. contradiction. }
  rewrite Hin. tauto.
Qed.

Lemma canonical_NoDup ks : canonical_keys ks = true -> NoDup ks.
Proof.
  induction ks as [|k ks IH]; [constructor|].
  rewrite canonical_cons. intros (H1 & _ & H3). constructor; auto.
Qed.

Lemma canonical_remove l1 k l2 :
  canonical_keys (l1 ++ k :: l2) = true -> canonical_keys (l1 ++ l2) = true.
Proof.
  induction l1 as [|a l1 IH]; cbn [app].
  - rewrite canonical_cons. tauto.
  - rewrite !canonical_cons. intros (H1 & H2 & H3). repeat split.
    + intros Hin. apply H1. apply in_app_or in Hin. apply in_or_app.
      destruct Hin; [now left | right; now right].
    + intros x Hin. apply H2. apply in_app_or in Hin. apply in_or_app.
      destruct Hin; [now left | right; now right].
    + auto.
Qed.

Lemma canonical_prefix l1 l2 :
  canonical_keys (l1 ++ l2) = true -> canonical_keys l1 = true.
Proof.
  revert l1. induction l2 as [|k l2 IH]; intros l1 H.
  - now rewrite app_nil_r in H.
  - apply IH. now apply (canonical_remove l1 k).
Qed.

Lemma array_index_inj k k' i :
  array_index k = Some i -> array_index k' = Some i -> k = k'.
Proof.
  unfold array_index.
  destruct (NilEmpty.uint_of_string k) as [d|]; [|discriminate].
  destruct (NilEmpty.uint_of_string k') as [d'|]; [|discriminate].
  destruct (String.eqb_spec k (NilZero.string_of_uint (N.to_uint (N.of_uint d))))
    as [Hk|]; [|discriminate].
  destruct (String.eqb_spec k' (NilZero.string_of_uint (N.to_uint (N.of_uint d'))))
    as [Hk'|]; [|discriminate].
  cbn [andb].
  destruct (N.of_uint d <? 4294967295)%N; [|discriminate].
  destruct (N.of_uint d' <? 4294967295)%N; [|discriminate].
  intros [= H1] [= H2]. congruence.
Qed.

Context {A : Type}.
Implicit Types (o acc : list (string * A)).

Lemma obj_set_append acc k (y : A) :
  canonical_keys (keys acc ++ [k]) = true -> obj_set k y acc = acc ++ [(k, y)].
Proof.
  intros Hc. unfold obj_set.
  assert (Hn : ~ In k (keys acc)).
  { apply canonical_NoDup in Hc. apply NoDup_remove_2 in Hc.
    now rewrite app_nil_r in Hc. }
  apply obj_has_false in Hn. rewrite Hn.
  destruct (array_index k) as [i|] eqn:Hk; [|reflexivity].
  clear Hn. induction acc as [|[a va] acc IH]; [reflexivity|].
  cbn [keys map app fst] in Hc. apply canonical_cons in Hc.
  destruct Hc as (_ & Hp & Hc). cbn [obj_insert_index].
  assert (Hin : In k (map fst acc ++ [k])) by (apply in_or_app; right; now left).
  specialize (Hp k Hin).
  unfold precedes in Hp. rewrite Hk in Hp.
  destruct (array_index a) as [j|]; [|discriminate].
  rewrite Hp. cbn [app]. f_equal. now apply IH.
Qed.

Lemma canonical_insert_index i k (v : A) o :
  array_index k = Some i -> ~ In k (keys o) ->
  canonical_keys (keys o) = true ->
  canonical_keys (keys (obj_insert_index i k v o)) = true.
Proof.
  intros Hk. induction o as [|[a va] o IH]; intros Hn Hc; [reflexivity|].
  cbn [keys map fst] in Hn, Hc. apply canonical_cons in Hc.
  destruct Hc as (Ha & Hp & Hc). cbn [obj_insert_index].
  assert (Hak : a <> k) by (intros ->; apply Hn; now left).
  assert (Hno : ~ In k (keys o)) by (intros H; apply Hn; now right).
  destruct (array_index a) as [j|] eqn:Haj.
  - destruct (N.ltb_spec j i) as [Hlt|Hge].
    + cbn [keys map fst]. apply canonical_cons. repeat split.
      * intros Hin. apply keys_obj_insert_index in Hin. destruct Hin; auto.
      * intros x Hin. apply keys_obj_insert_index in Hin.
        destruct Hin as [->|Hin]; [|now apply Hp].
        unfold precedes. rewrite Haj, Hk. now apply N.ltb_lt.
      * now apply IH.
    + cbn [keys map fst]. apply canonical_cons. repeat split.
      * intros [Hin|Hin]; auto.
      * assert (Hij : (i < j)%N).
        { destruct (N.eq_dec i j) as [->|]; [|lia].
          exfalso. apply Hak. now apply (array_index_inj a k j). }
        intros x [<-|Hin].
        -- unfold precedes. rewrite Hk, Haj. now apply N.ltb_lt.
        -- specialize (Hp x Hin). unfold precedes in *. rewrite Hk.
           rewrite Haj in Hp. destruct (array_index x) as [j'|]; [|reflexivity].
           apply N.ltb_lt in Hp. apply N.ltb_lt. lia.
      * apply canonical_cons. auto.
  - cbn [keys map fst]. apply canonical_cons. repeat split.
    + intros [Hin|Hin]; auto.
    + intros x [<-|Hin].
      * unfold precedes. now rewrite Hk, Haj.
      * specialize (Hp x Hin). unfold precedes in *. rewrite Hk.
        rewrite Haj in Hp. now destruct (array_index x).
    + apply canonical_cons. auto.
Qed.

Lemma canonical_snoc ks k :
  array_index k = None -> ~ In k ks -> canonical_keys ks = true ->
  canonical_keys (ks ++ [k]) = true.
Proof.
  intros Hk. induction ks as [|a ks IH]; intros Hn Hc; [reflexivity|].
  apply canonical_cons in Hc. destruct Hc as (Ha & Hp & Hc).
  cbn [app]. apply canonical_cons. repeat split.
  - intros Hin. apply in_app_or in Hin. destruct Hin as [Hin|[->|[]]]; auto.
    apply Hn. now left.
  - intros x Hin. apply in_app_or in Hin. destruct Hin as [Hin|[<-|[]]]; auto.
    unfold precedes. rewrite Hk. now destruct (array_index a).
  - apply IH; [|assumption]. intros H; apply Hn; now right.
Qed.

Lemma canonical_obj_set k (v : A) o :
  canonical_keys (keys o) = true -> canonical_keys (keys (obj_set k v o)) = true.
Proof.
  intros Hc. unfold obj_set. destruct (obj_has k o) eqn:Hh.
  - now rewrite keys_obj_replace.
  - apply obj_has_false in Hh. destruct (array_index k) as [i|] eqn:Hk.
    + now apply canonical_insert_index.
    + unfold keys. rewrite map_app. now apply canonical_snoc.
Qed.

End KeyOrder.

Lemma rebuild_canonical {X Y : Type} (g : string -> X -> option Y) l : forall acc,
  canonical_keys (keys acc ++ keys l) = true ->
  rebuild g l acc
  = acc ++ flat_map (fun kx => match g (fst kx) (snd kx) with
                               | Some y => [(fst kx, y)]
                               | None => []
                               end) l.
Proof.
  induction l as [|[k x] l IH]; intros acc Hc.
  - cbn. now rewrite app_nil_r.
  - rewrite rebuild_cons. cbn [flat_map fst snd keys map] in *.
    destruct (g k x) as [y|].
    + rewrite (obj_set_append acc k y).
      * rewrite IH; [now rewrite <- app_assoc|].
        unfold keys. rewrite map_app, <- app_assoc. exact Hc.
      * apply (canonical_prefix _ (map fst l)). now rewrite <- app_assoc.
    + apply IH. now apply (canonical_remove _ k).
Qed.

Lemma rebuild_canonical_keys {X Y : Type} (g : string -> X -> option Y) l acc :
  canonical_keys (keys acc) = true -> canonical_keys (keys (rebuild g l acc)) = true.
Proof.
  intros Hacc. unfold rebuild.
  apply (fold_left_invariant (fun r => canonical_keys (keys r) = true));
    [assumption|].
  intros r [k x] _ Hr; cbn [fst snd]. destruct (g k x); [|assumption].
  now apply canonical_obj_set.
Qed.

Section CloneFacts.
Context {host : Host}.

Lemma cloneJsonObject_rebuild o :
  cloneJsonObject o = rebuild (fun _ v => Some (cloneJsonValue v)) o [].
Proof. reflexivity. Qed.

Lemma clone_id v : wf_value v = true -> cloneJsonValue v = v.
Proof.
  induction v as [| | | |items IH|entries IH] using JsonValue_ind;
    try reflexivity.
  - cbn [wf_value cloneJsonValue]. intros Hw. f_equal.
    rewrite forallb_forall in Hw. rewrite Forall_forall in IH.
    rewrite <- (map_id items) at 2. apply map_ext_in. auto.
  - cbn [wf_value]. rewrite andb_true_iff, forallb_forall. intros [Hc Hw].
    change (cloneJsonValue (JObject entries)) with (JObject (cloneJsonObject entries)).
    f_equal. rewrite cloneJsonObject_rebuild, rebuild_canonical by exact Hc.
    cbn [app]. rewrite Forall_forall in IH.
    induction entries as [|[k v] entries IHe]; [reflexivity|].
    cbn [flat_map fst snd app].
    pose proof (IH (k, v) (or_introl eq_refl) (Hw (k, v) (or_introl eq_refl))) as E.
    cbn [snd] in E. rewrite E. f_equal. apply IHe.
    + intros; apply IH; [now right | assumption].
    + cbn [map fst] in Hc. apply canonical_cons in Hc. tauto.
    + intros; apply Hw; now right.
Qed.

Lemma cloneJsonObject_id o : wf_value (JObject o) = true -> cloneJsonObject o = o.
Proof. intros H. apply clone_id in H. now injection H. Qed.

Lemma wf_object_set k v o :
  wf_value v = true -> wf_value (JObject o) = true ->
  wf_value (JObject (obj_set k v o)) = true.
Proof.
  cbn [wf_value]. rewrite !andb_true_iff, !forallb_forall.
  intros Hv [Hc Hw]. split; [now apply (canonical_obj_set (A := JsonValue))|].
  intros e Hin. apply In_obj_set in Hin. destruct Hin as [->|Hin]; auto.
Qed.

Lemma wf_rebuild (g : string -> JsonValue -> option JsonValue) l acc :
  (forall k x y, In (k, x) l -> g k x = Some y -> wf_value y = true) ->
  wf_value (JObject acc) = true -> wf_value (JObject (rebuild g l acc)) = true.
Proof.
  intros Hg Hacc. unfold rebuild.
  apply (fold_left_invariant (fun r => wf_value (JObject r) = true));
    [assumption|].
  intros r [k x] Hin Hr; cbn [fst snd]. destruct (g k x) as [y|] eqn:Hy;
    [|assumption].
  apply wf_object_set; eauto.
Qed.

Lemma clone_wf v : wf_value (cloneJsonValue v) = true.
Proof.
  induction v as [| | | |items IH|entries IH] using JsonValue_ind;
    try reflexivity.
  - cbn [cloneJsonValue wf_value]. apply forallb_forall. intros x Hin.
    apply in_map_iff in Hin. destruct Hin as [y [<- Hy]].
    rewrite Forall_forall in IH. auto.
  - change (cloneJsonValue (JObject entries)) with (JObject (cloneJsonObject entries)).
    rewrite cloneJsonObject_rebuild. apply wf_rebuild; [|reflexivity].
    intros k x y Hin [= <-]. rewrite Forall_forall in IH. apply (IH (k, x) Hin).
Qed.

Lemma cloneJsonObject_wf o : wf_value (JObject (cloneJsonObject o)) = true.
Proof. exact (clone_wf (JObject o)). Qed.

End CloneFacts.

(** ** The field merge policy *)

Section FieldMerge.
Context {host : Host}.

(** What the loop of [mergeField] computes over all the values of a
    field: the values are collected, list values flattened one level,
    the empty entries dropped, and an entry is dropped when the [seen]
    set holds its stable serialization; a single entry is emitted as a
    scalar.  [policy_value] below states the same with equality of
    values. *)
Definition flatten_one (v : JsonValue) : list JsonValue :=
  match v with
  | JArray items => items
  | _ => [v]
  end.

Definition meaningful (v : JsonValue) : bool := negb (isMeaningless v).

Fixpoint dedupe (seen : list string) (vs : list JsonValue) : list JsonValue :=
  match vs with
  | [] => []
  | v :: vs' =>
      if existsb (String.eqb (stableStringify v)) seen then dedupe seen vs'
      else v :: dedupe (seen ++ [stableStringify v]) vs'
  end.

Definition collected_entries (vs : list JsonValue) : list JsonValue :=
  filter meaningful (flat_map flatten_one vs).

Definition emit (entries : list JsonValue) : JsonValue :=
  match entries with
  | [] => JArray []
  | [v] => v
  | _ => JArray entries
  end.

Definition merged_value (vs : list JsonValue) : JsonValue :=
  emit (dedupe [] (collected_entries vs)).

(** No entry of a list value is itself a list. *)
Definition flat_value (v : JsonValue) : bool :=
  match v with
  | JArray items => forallb (fun x => negb (isArray x)) items
  | _ => true
  end.

(** *** The loop of [mergeField] *)

Lemma addValues_flatten st v : addValues st v = fold_left addValue (flatten_one v) st.
Proof. now destruct v. Qed.

Lemma addValue_step seen vals x :
  wf_value x = true ->
  addValue (seen, vals) x
  = if meaningful x
    then if existsb (String.eqb (stableStringify x)) seen then (seen, vals)
         else (seen ++ [stableStringify x], vals ++ [x])
    else (seen, vals).
Proof.
  intros Hw. unfold addValue, meaningful. cbn [fst snd].
  destruct (isMeaningless x); cbn [negb]; [reflexivity|].
  now rewrite (clone_id x Hw).
Qed.

Lemma addValue_fold xs : forall seen vals,
  (forall x, In x xs -> wf_value x = true) ->
  fold_left addValue xs (seen, vals)
  = (seen ++ map stableStringify (dedupe seen (filter meaningful xs)),
     vals ++ dedupe seen (filter meaningful xs)).
Proof.
  induction xs as [|x xs IH]; intros seen vals Hw.
  - cbn. now rewrite !app_nil_r.
  - change (fold_left addValue (x :: xs) (seen, vals))
      with (fold_left addValue xs (addValue (seen, vals) x)).
    rewrite addValue_step by (apply Hw; now left). cbn [filter].
    assert (Hxs : forall y, In y xs -> wf_value y = true)
      by (intros; apply Hw; now right).
    destruct (meaningful x); [|now apply IH].
    cbn [dedupe]. destruct (existsb (String.eqb (stableStringify x)) seen);
      [now apply IH|].
    rewrite IH by assumption. cbn [map]. now rewrite <- !app_assoc.
Qed.

Lemma mergeField_values existing incoming :
  (forall e, existing = Some e -> forall x, In x (flatten_one e) -> wf_value x = true) ->
  (forall x, In x (flatten_one incoming) -> wf_value x = true) ->
  mergeField existing incoming
  = match dedupe []
            (filter meaningful
               (match existing with Some e => flatten_one e | None => [] end
                ++ flatten_one incoming)) with
    | [] => match existing with
            | None | Some JNull => JArray []
            | Some e => e
            end
    | [v] => v
    | values => JArray values
    end.
Proof.
  intros He Hi. unfold mergeField. rewrite addValues_flatten.
  assert (Hst : match existing with
                | Some e => addValues ([], []) e
                | None => ([], [])
                end
                = fold_left addValue
                    (match existing with Some e => flatten_one e | None => [] end)
                    ([], [])).
  { destruct existing; [apply addValues_flatten | reflexivity]. }
  rewrite Hst, <- fold_left_app, addValue_fold.
  - cbn [snd app].
    now destruct (dedupe []
                    (filter meaningful
                       (match existing with Some e => flatten_one e | None => [] end
                        ++ flatten_one incoming))) as [|x [|y d]].
  - intros x Hin. apply in_app_or in Hin. destruct Hin as [Hin|Hin]; [|auto].
    destruct existing as [e|]; [now apply (He e) | destruct Hin].
Qed.

(** *** Removing repetitions *)

Lemma dedupe_app a : forall seen b,
  dedupe seen (a ++ b)
  = dedupe seen a ++ dedupe (seen ++ map stableStringify (dedupe seen a)) b.
Proof.
  induction a as [|x a IH]; intros seen b.
  - cbn. now rewrite app_nil_r.
  - cbn [app dedupe].
    destruct (existsb (String.eqb (stableStringify x)) seen); [apply IH|].
    cbn [map app]. rewrite IH. now rewrite <- app_assoc.
Qed.

Lemma In_dedupe a : forall seen x, In x (dedupe seen a) -> In x a.
Proof.
  induction a as [|y a IH]; intros seen x; [auto|]. cbn [dedupe].
  destruct (existsb (String.eqb (stableStringify y)) seen).
  - intros H. right. eauto.
  - intros [->|H]; [now left | right; eauto].
Qed.

(** No entry that [dedupe] keeps has its key in [seen], and the kept
    entries have distinct keys: deduplicating them again, with their
    own keys unseen, keeps them all. *)
Definition fresh_keys (seen : list string) (d : list JsonValue) : Prop :=
  forall x, In x d -> existsb (String.eqb (stableStringify x)) seen = false.

Lemma existsb_snoc_false seen k k' :
  existsb (String.eqb k) (seen ++ [k']) = false <->
  existsb (String.eqb k) seen = false /\ k <> k'.
Proof.
  rewrite existsb_app. cbn [existsb]. rewrite orb_false_r, orb_false_iff.
  now rewrite String.eqb_neq.
Qed.

Lemma dedupe_fresh a : forall seen, fresh_keys seen (dedupe seen a).
Proof.
  induction a as [|y a IH]; intros seen x; [intros []|]. cbn [dedupe].
  destruct (existsb (String.eqb (stableStringify y)) seen) eqn:Hy.
  - apply IH.
  - intros [<-|H]; [assumption|].
    apply IH in H. apply existsb_snoc_false in H. tauto.
Qed.

Lemma dedupe_dedupe a : forall seen, dedupe seen (dedupe seen a) = dedupe seen a.
Proof.
  induction a as [|y a IH]; intros seen; [reflexivity|]. cbn [dedupe].
  destruct (existsb (String.eqb (stableStringify y)) seen) eqn:Hy; [apply IH|].
  cbn [dedupe]. rewrite Hy. f_equal. apply IH.
Qed.

Lemma dedupe_meaningful a seen :
  (forall x, In x a -> meaningful x = true) -> filter meaningful (dedupe seen a) = dedupe seen a.
Proof.
  intros H. apply forallb_filter_id. apply forallb_forall.
  intros x Hin. apply H. now apply (In_dedupe a seen).
Qed.

(** Merging a further value into what the policy gives for [vs] gives
    what the policy gives for [vs] followed by that value. *)
Lemma dedupe_resume vs v :
  dedupe [] (filter meaningful (dedupe [] (collected_entries vs) ++ flatten_one v))
  = dedupe [] (collected_entries (vs ++ [v])).
Proof.
  unfold collected_entries. rewrite flat_map_app, !filter_app. cbn [flat_map].
  rewrite app_nil_r.
  rewrite dedupe_meaningful
    by (intros x Hin; apply filter_In in Hin; tauto).
  rewrite !dedupe_app, dedupe_dedupe. reflexivity.
Qed.

Lemma flatten_emit d :
  (forall x, In x d -> isArray x = false) ->
  flatten_one (emit d) = d.
Proof.
  destruct d as [|x [|y d]]; intros H; try reflexivity.
  cbn [emit]. specialize (H x (or_introl eq_refl)). now destruct x.
Qed.

Lemma collected_flat vs x :
  Forall (fun v => flat_value v = true) vs ->
  In x (collected_entries vs) -> isArray x = false.
Proof.
  intros Hf Hin. unfold collected_entries in Hin. apply filter_In in Hin.
  destruct Hin as [Hin _]. apply in_flat_map in Hin. destruct Hin as [v [Hv Hx]].
  rewrite Forall_forall in Hf. specialize (Hf v Hv).
  destruct v; cbn in Hx; try (destruct Hx as [<-|[]]; reflexivity).
  cbn in Hf. rewrite forallb_forall in Hf. apply negb_true_iff. auto.
Qed.

Lemma collected_wf vs x :
  Forall (fun v => wf_value v = true) vs ->
  In x (flat_map flatten_one vs) -> wf_value x = true.
Proof.
  intros Hw Hin. apply in_flat_map in Hin. destruct Hin as [v [Hv Hx]].
  rewrite Forall_forall in Hw. specialize (Hw v Hv).
  destruct v; cbn in Hx; try (destruct Hx as [<-|[]]; assumption).
  cbn in Hw. rewrite forallb_forall in Hw. auto.
Qed.

Lemma mergeField_first v :
  wf_value v = true -> mergeField None v = merged_value [v].
Proof.
  intros Hw. rewrite mergeField_values.
  - unfold merged_value, collected_entries. cbn [flat_map app].
    rewrite app_nil_r. now destruct (dedupe [] (filter meaningful (flatten_one v)))
      as [|x [|y d]].
  - discriminate.
  - intros x Hin. apply (collected_wf [v]); [now constructor|].
    cbn [flat_map]. now rewrite app_nil_r.
Qed.

Lemma mergeField_next vs v :
  Forall (fun v => wf_value v = true) (vs ++ [v]) ->
  Forall (fun v => flat_value v = true) vs ->
  mergeField (Some (merged_value vs)) v = merged_value (vs ++ [v]).
Proof.
  intros Hw Hf.
  assert (Hwvs : Forall (fun v => wf_value v = true) vs)
    by (apply Forall_app in Hw; tauto).
  assert (Hflat : flatten_one (merged_value vs) = dedupe [] (collected_entries vs)).
  { apply flatten_emit. intros x Hin. apply In_dedupe in Hin.
    now apply (collected_flat vs). }
  rewrite mergeField_values.
  - rewrite Hflat, dedupe_resume. unfold merged_value.
    destruct (dedupe [] (collected_entries (vs ++ [v]))) as [|x [|y d]] eqn:Hd;
      try reflexivity.
    (* nothing collected at all: the previous value is the empty list *)
    assert (Hnil : dedupe [] (collected_entries vs) = []).
    { unfold collected_entries in Hd. rewrite flat_map_app, filter_app in Hd.
      rewrite dedupe_app in Hd. now apply app_eq_nil in Hd. }
    now rewrite Hnil.
  - intros e [= <-] x Hin. rewrite Hflat in Hin. apply In_dedupe in Hin.
    unfold collected_entries in Hin. apply filter_In in Hin.
    now apply (collected_wf vs).
  - intros x Hin. apply (collected_wf (vs ++ [v])); [assumption|].
    rewrite flat_map_app. apply in_or_app. right. cbn [flat_map].
    now rewrite app_nil_r.
Qed.

(** The pairwise merge, folded over the values of a field. *)
Definition merge_values (vs : list JsonValue) (start : option JsonValue)
  : option JsonValue :=
  fold_left (fun acc v => Some (mergeField acc v)) vs start.

Lemma merge_values_policy vs : forall seen,
  seen <> [] ->
  Forall (fun v => wf_value v = true) (seen ++ vs) ->
  Forall (fun v => flat_value v = true) (seen ++ vs) ->
  merge_values vs (Some (merged_value seen)) = Some (merged_value (seen ++ vs)).
Proof.
  induction vs as [|v vs IH]; intros seen Hne Hw Hf.
  - now rewrite app_nil_r.
  - unfold merge_values. cbn [fold_left]. fold (merge_values vs).
    replace (seen ++ v :: vs) with ((seen ++ [v]) ++ vs) in *
      by (now rewrite <- app_assoc).
    rewrite mergeField_next.
    + apply IH; [now destruct seen | assumption | assumption].
    + apply Forall_app in Hw. tauto.
    + apply Forall_app in Hf. destruct Hf as [Hf _].
      apply Forall_app in Hf. tauto.
Qed.

Lemma merge_values_spec vs :
  Forall (fun v => wf_value v = true) vs ->
  Forall (fun v => flat_value v = true) vs ->
  merge_values vs None
  = match vs with
    | [] => None
    | _ => Some (merged_value vs)
    end.
Proof.
  destruct vs as [|v vs]; [reflexivity|]. intros Hw Hf.
  unfold merge_values. cbn [fold_left]. fold (merge_values vs).
  rewrite mergeField_first by (now inversion Hw).
  now apply (merge_values_policy vs [v]).
Qed.

End FieldMerge.

(** ** The fields of a merged record *)

Section MergedFields.
Context {host : Host}.

(** A key that is merged by the field policy: not internal, not
    [repositories], not a [repo_] field. *)
Definition ordinary_key (k : string) : bool :=
  negb (isInternalKey k) && negb (String.eqb k "repositories")
  && negb (startsWith k "repo_").

(** The values of the field [k] in the records of a group, in order. *)
Definition field_values (k : string) (rs : list JsonObject) : list JsonValue :=
  flat_map (fun r => match obj_get k r with Some v => [v] | None => [] end) rs.

Lemma extract_loop_otherEntries record : forall st,
  otherEntries (fold_left extract_step record st)
  = otherEntries st ++ filter (fun ke => ordinary_key (fst ke)) record.
Proof.
  induction record as [|[k v] record IH]; intros st.
  - cbn. now rewrite app_nil_r.
  - cbn [fold_left filter fst]. rewrite IH. unfold extract_step, ordinary_key.
    cbn [fst snd]. destruct (isInternalKey k); [reflexivity|].
    destruct (String.eqb k "repositories"); [reflexivity|].
    destruct (startsWith k "repo_"); cbn [negb andb].
    + now destruct (0 <? String.length (slice_from 5 k))%nat.
    + cbn [otherEntries]. now rewrite <- app_assoc.
Qed.

Lemma extract_others record :
  snd (extractRepositoryEntries record)
  = filter (fun ke => ordinary_key (fst ke)) record.
Proof.
  unfold extractRepositoryEntries, extract_loop. cbn [snd].
  now rewrite extract_loop_otherEntries.
Qed.

Lemma obj_get_filter (p : string -> bool) k (o : JsonObject) :
  p k = true -> obj_get k (filter (fun ke => p (fst ke)) o) = obj_get k o.
Proof.
  intros Hp. induction o as [|[k1 v1] o IH]; [reflexivity|].
  cbn [filter fst obj_get]. destruct (String.eqb_spec k k1) as [->|Hne].
  - rewrite Hp. cbn [obj_get]. now rewrite String.eqb_refl.
  - destruct (p k1); [|exact IH]. cbn [obj_get].
    destruct (String.eqb_spec k k1); [contradiction | exact IH].
Qed.

Lemma keys_filter (p : string -> bool) (o : JsonObject) :
  keys (filter (fun ke => p (fst ke)) o) = filter p (keys o).
Proof.
  induction o as [|[k v] o IH]; [reflexivity|]. cbn [filter keys map fst].
  destruct (p k); cbn [keys map fst]; unfold keys in IH; now rewrite IH.
Qed.

Lemma merge_entries_untouched k entries : forall merged,
  ~ In k (keys entries) ->
  obj_get k (fold_left merge_entry entries merged) = obj_get k merged.
Proof.
  induction entries as [|[k1 v1] entries IH]; intros merged Hn; [reflexivity|].
  cbn [fold_left]. rewrite IH by (intros H; apply Hn; now right).
  unfold merge_entry. cbn [fst snd]. apply obj_get_set_other.
  intros ->. apply Hn. now left.
Qed.

Lemma merge_entries_get k entries : forall merged,
  NoDup (keys entries) ->
  obj_get k (fold_left merge_entry entries merged)
  = match obj_get k entries with
    | Some v => Some (mergeField (obj_get k merged) v)
    | None => obj_get k merged
    end.
Proof.
  induction entries as [|[k1 v1] entries IH]; intros merged Hnd; [reflexivity|].
  inversion Hnd as [|? ? Hn Hnd']; subst. cbn [fold_left obj_get].
  destruct (String.eqb_spec k k1) as [->|Hne].
  - rewrite merge_entries_untouched by assumption.
    unfold merge_entry. cbn [fst snd]. apply obj_get_set_same.
  - rewrite IH by assumption. unfold merge_entry. cbn [fst snd].
    now rewrite obj_get_set_other.
Qed.

Lemma merge_record_get k record st :
  ordinary_key k = true -> NoDup (keys record) ->
  obj_get k (fst (merge_record st record))
  = match obj_get k record with
    | Some v => Some (mergeField (obj_get k (fst st)) v)
    | None => obj_get k (fst st)
    end.
Proof.
  intros Hk Hnd. unfold merge_record. cbn [fst]. rewrite extract_others.
  rewrite merge_entries_get.
  - now rewrite obj_get_filter.
  - rewrite keys_filter. now apply NoDup_filter.
Qed.

Lemma merge_records_get k rs : forall st,
  ordinary_key k = true ->
  Forall (fun r => NoDup (keys r)) rs ->
  obj_get k (fst (fold_left merge_record rs st))
  = merge_values (field_values k rs) (obj_get k (fst st)).
Proof.
  induction rs as [|r rs IH]; intros st Hk Hnd; [reflexivity|].
  inversion Hnd; subst. cbn [fold_left field_values flat_map].
  rewrite IH by assumption. rewrite merge_record_get by assumption.
  unfold merge_values. rewrite fold_left_app.
  now destruct (obj_get k r).
Qed.

Lemma mergeGroupRecords_get k rs :
  ordinary_key k = true ->
  Forall (fun r => NoDup (keys r)) rs ->
  obj_get k (mergeGroupRecords rs) = merge_values (field_values k rs) None.
Proof.
  intros Hk Hnd. unfold mergeGroupRecords.
  pose proof (merge_records_get k rs ([], []) Hk Hnd) as H. cbn [fst obj_get] in H.
  destruct (snd (fold_left merge_record rs ([], []))); [exact H|].
  rewrite obj_get_set_other; [exact H|].
  intros ->. discriminate.
Qed.

Lemma wf_object_NoDup r : wf_value (JObject r) = true -> NoDup (keys r).
Proof.
  cbn [wf_value]. rewrite andb_true_iff. intros [Hc _]. now apply canonical_NoDup.
Qed.

Lemma wf_object_field r k v :
  wf_value (JObject r) = true -> obj_get k r = Some v -> wf_value v = true.
Proof.
  cbn [wf_value]. rewrite andb_true_iff, forallb_forall. intros [_ Hw] Hg.
  apply obj_get_In in Hg. exact (Hw (k, v) Hg).
Qed.

Lemma field_values_wf k rs :
  Forall (fun r => wf_value (JObject r) = true) rs ->
  Forall (fun v => wf_value v = true) (field_values k rs).
Proof.
  intros Hw. apply Forall_forall. intros v Hin. unfold field_values in Hin.
  apply in_flat_map in Hin. destruct Hin as [r [Hr Hv]].
  rewrite Forall_forall in Hw. specialize (Hw r Hr).
  destruct (obj_get k r) as [w|] eqn:Hg; [|destruct Hv].
  destruct Hv as [<-|[]]. now apply (wf_object_field r k).
Qed.

End MergedFields.

(** The merged value of a field of a group, with the repetitions found
    by their stable serialization, as the loop finds them. *)
Lemma merged_field_serialized
  {host : Host} (rs : list JsonObject) (k : string) :
  ordinary_key k = true ->
  Forall (fun r => wf_value (JObject r) = true) rs ->
  Forall (fun v => flat_value v = true) (field_values k rs) ->
  obj_get k (mergeGroupRecords rs)
  = match field_values k rs with
    | [] => None
    | vs => Some (merged_value vs)
    end.
Proof.
  intros Hk Hw Hf. rewrite mergeGroupRecords_get.
  - rewrite merge_values_spec; [|now apply field_values_wf | assumption].
    now destruct (field_values k rs).
  - assumption.
  - apply Forall_forall. intros r Hr. rewrite Forall_forall in Hw.
    apply wf_object_NoDup. auto.
Qed.


(** ** Values and records that a second merge leaves alone *)

Section Settled.
Context {host : Host}.

Fixpoint distinct (l : list string) : bool :=
  match l with
  | [] => true
  | k :: l' => negb (existsb (String.eqb k) l') && distinct l'
  end.

(** A field value in merged form: a scalar that is not empty, or a list
    without empty or repeated entries that does not hold exactly one
    entry. *)
Definition settled_value (v : JsonValue) : bool :=
  match v with
  | JArray items =>
      negb (List.length items =? 1)%nat && forallb meaningful items
      && distinct (map stableStringify items)
  | _ => meaningful v
  end.

Definition repository_key_of (v : JsonValue) : string :=
  match v with
  | JObject o => buildRepositoryKey o
  | _ => EmptyString
  end.

(** A [repositories] value in merged form: a non-empty list of objects
    with pairwise distinct repository keys. *)
Definition settled_repositories (v : JsonValue) : bool :=
  match v with
  | JArray items =>
      negb (List.length items =? 0)%nat && forallb isJsonObject items
      && distinct (map repository_key_of items)
  | _ => false
  end.

Definition settled_record (o : JsonObject) : bool :=
  forallb
    (fun ke =>
       if String.eqb (fst ke) "repositories" then settled_repositories (snd ke)
       else settled_value (snd ke))
    o.

Lemma distinct_cons k l :
  distinct (k :: l) = true <-> ~ In k l /\ distinct l = true.
Proof.
  cbn [distinct]. rewrite andb_true_iff, negb_true_iff. split.
  - intros [He Hd]. split; [|assumption]. intros Hin.
    assert (existsb (String.eqb k) l = true); [|congruence].
    apply existsb_exists. exists k. split; [assumption | apply String.eqb_refl].
  - intros [Hn Hd]. split; [|assumption].
    destruct (existsb (String.eqb k) l) eqn:He; [|reflexivity].
    apply existsb_exists in He. destruct He as [x [Hx He]].
    apply String.eqb_eq in He. subst. contradiction.
Qed.

Lemma distinct_NoDup l : distinct l = true <-> NoDup l.
Proof.
  induction l as [|k l IH]; [split; [constructor | reflexivity]|].
  rewrite distinct_cons, IH. split.
  - intros [Hn Hd]. now constructor.
  - intros H. inversion H; subst. now split.
Qed.

Lemma dedupe_distinct l : forall seen,
  distinct (map stableStringify l) = true ->
  (forall x, In x l -> existsb (String.eqb (stableStringify x)) seen = false) ->
  dedupe seen l = l.
Proof.
  induction l as [|x l IH]; intros seen Hd Hs; [reflexivity|].
  cbn [map] in Hd. apply distinct_cons in Hd. destruct Hd as [Hn Hd].
  cbn [dedupe]. rewrite (Hs x) by now left. f_equal. apply IH; [assumption|].
  intros y Hy. apply existsb_snoc_false. split; [apply Hs; now right|].
  intros Heq. apply Hn. rewrite <- Heq. now apply in_map.
Qed.

Lemma settled_value_fixed v :
  wf_value v = true -> settled_value v = true -> mergeField None v = v.
Proof.
  intros Hw Hs. rewrite mergeField_first by assumption.
  unfold merged_value, collected_entries. cbn [flat_map]. rewrite app_nil_r.
  destruct v as [|b|n|s|items|o]; cbn [settled_value flatten_one] in *;
    try (cbn [filter]; rewrite Hs; reflexivity).
  rewrite !andb_true_iff, negb_true_iff in Hs. destruct Hs as [[Hl Hm] Hd].
  rewrite forallb_filter_id by assumption.
  rewrite dedupe_distinct by (auto; intros; reflexivity).
  destruct items as [|x [|y items]]; try reflexivity. discriminate.
Qed.

(** *** What [mergeField] returns *)

Lemma addValue_wf st value :
  Forall (fun x => wf_value x = true) (snd st) ->
  Forall (fun x => wf_value x = true) (snd (addValue st value)).
Proof.
  intros H. unfold addValue. destruct (isMeaningless value); [assumption|].
  destruct (existsb (String.eqb (stableStringify value)) (fst st)); [assumption|].
  cbn [snd]. apply Forall_app. split; [assumption|].
  constructor; [apply clone_wf | constructor].
Qed.

Lemma addValues_wf st v :
  Forall (fun x => wf_value x = true) (snd st) ->
  Forall (fun x => wf_value x = true) (snd (addValues st v)).
Proof.
  intros H. rewrite addValues_flatten.
  apply (fold_left_invariant
           (fun s => Forall (fun x => wf_value x = true) (snd s))); [assumption|].
  intros; now apply addValue_wf.
Qed.

Lemma mergeField_wf existing incoming :
  (forall e, existing = Some e -> wf_value e = true) ->
  wf_value (mergeField existing incoming) = true.
Proof.
  intros He. unfold mergeField.
  set (st1 := match existing with
              | Some e => addValues ([], []) e
              | None => ([], [])
              end).
  assert (H1 : Forall (fun x => wf_value x = true) (snd st1)).
  { subst st1. destruct existing; [apply addValues_wf|]; constructor. }
  pose proof (addValues_wf st1 incoming H1) as H2.
  destruct (snd (addValues st1 incoming)) as [|x [|y values]].
  - destruct existing as [[]|]; try reflexivity; now apply He.
  - now inversion H2.
  - cbn [wf_value]. apply forallb_forall. rewrite Forall_forall in H2. exact H2.
Qed.

End Settled.

(** ** The shape of a merged record *)

Section MergedShape.
Context {host : Host}.

(** A merged record: the fields merged by the field policy, then,
    possibly, the [repositories] list of non-empty objects without
    internal keys. *)
Definition merged_shape (o : JsonObject) : Prop :=
  wf_value (JObject o) = true
  /\ exists fields tail,
       o = fields ++ tail
       /\ (forall k, In k (keys fields) -> ordinary_key k = true)
       /\ (tail = []
           \/ exists repos,
                tail = [("repositories", JArray (map JObject repos))]
                /\ Forall (fun r => r <> [] /\ no_internal_key r) repos).

Lemma cloneJsonObject_nonempty o : o <> [] -> cloneJsonObject o <> [].
Proof.
  destruct o as [|[k v] o]; [congruence|]. intros _. unfold cloneJsonObject.
  cbn [fold_left fst snd].
  apply (fold_left_invariant (fun r : JsonObject => r <> [])).
  - apply obj_set_nonempty.
  - intros r ke _ _. apply obj_set_nonempty.
Qed.

Lemma merge_entries_nonempty entries merged :
  merged <> [] -> fold_left merge_entry entries merged <> [].
Proof.
  intros H. apply (fold_left_invariant (fun r : JsonObject => r <> []));
    [assumption|].
  intros r ke _ _. apply obj_set_nonempty.
Qed.

Definition nonempty_repositories (st : list (string * JsonObject) * list string)
  : Prop :=
  forall key repo, In (key, repo) (fst st) -> repo <> [].

Lemma upsert_nonempty st value :
  nonempty_repositories st -> nonempty_repositories (upsert st value).
Proof.
  intros Hst. destruct value as [| | | | |o]; try exact Hst.
  unfold upsert.
  destruct (sanitizeRepositoryObject o) as [|e sanitized'] eqn:Hs; [exact Hst|].
  cbv beta iota zeta.
  destruct (map_get (buildRepositoryKey (e :: sanitized')) (fst st))
    as [existingRepo|] eqn:Hg.
  - intros key repo Hin. cbn [fst] in Hin. apply In_map_set in Hin.
    destruct Hin as [[= -> ->]|Hin]; [|now apply (Hst key)].
    apply (merge_entries_nonempty (e :: sanitized') existingRepo).
    apply map_get_In in Hg. now apply (Hst _ _ Hg).
  - intros key repo Hin. cbn [fst] in Hin. apply In_map_set in Hin.
    destruct Hin as [[= -> ->]|Hin]; [|now apply (Hst key)].
    now apply cloneJsonObject_nonempty.
Qed.

Lemma emit_repositories_sound st :
  clean_repositories st -> nonempty_repositories st ->
  Forall (fun r => r <> [] /\ no_internal_key r) (emit_repositories st)
  /\ Forall (fun r => wf_value (JObject r) = true) (emit_repositories st).
Proof.
  intros Hc Hn.
  assert (H : forall r, In r (emit_repositories st) ->
                exists key repo, In (key, repo) (fst st) /\ r = cloneJsonObject repo).
  { intros r Hin. unfold emit_repositories in Hin. apply in_flat_map in Hin.
    destruct Hin as [key [_ Hin]].
    destruct (map_get key (fst st)) as [repo|] eqn:Hg; [|destruct Hin].
    destruct Hin as [<-|[]]. apply map_get_In in Hg. now exists key, repo. }
  split; apply Forall_forall; intros r Hin;
    destruct (H r Hin) as (key & repo & Hkr & ->).
  - split; [apply cloneJsonObject_nonempty; now apply (Hn _ _ Hkr)|].
    apply cloneJsonObject_clean. now apply (Hc _ _ Hkr).
  - apply cloneJsonObject_wf.
Qed.

Lemma mergeRepositories_sound incoming :
  exists repos,
    mergeRepositories None incoming = JArray (map JObject repos)
    /\ Forall (fun r => r <> [] /\ no_internal_key r) repos
    /\ Forall (fun r => wf_value (JObject r) = true) repos.
Proof.
  unfold mergeRepositories. eexists. split; [reflexivity|].
  apply emit_repositories_sound.
  - apply (fold_left_invariant clean_repositories); [intros ? ? []|].
    intros; now apply upsert_clean.
  - apply (fold_left_invariant nonempty_repositories); [intros ? ? []|].
    intros; now apply upsert_nonempty.
Qed.

Lemma merge_entry_wf merged ke :
  wf_value (JObject merged) = true ->
  wf_value (JObject (merge_entry merged ke)) = true.
Proof.
  intros Hw. unfold merge_entry. apply wf_object_set; [|assumption].
  apply mergeField_wf. intros e He. now apply (wf_object_field merged (fst ke)).
Qed.

Definition ordinary_keys (o : JsonObject) : Prop :=
  forall k, In k (keys o) -> ordinary_key k = true.

Lemma merge_records_fields rs st :
  wf_value (JObject (fst st)) = true -> ordinary_keys (fst st) ->
  wf_value (JObject (fst (fold_left merge_record rs st))) = true
  /\ ordinary_keys (fst (fold_left merge_record rs st)).
Proof.
  intros Hw Ho.
  apply (fold_left_invariant
           (fun s : JsonObject * list JsonObject =>
              wf_value (JObject (fst s)) = true /\ ordinary_keys (fst s)));
    [now split|].
  intros s record _ [Hs1 Hs2]. unfold merge_record. cbn [fst].
  rewrite extract_others.
  apply (fold_left_invariant
           (fun m : JsonObject => wf_value (JObject m) = true /\ ordinary_keys m));
    [now split|].
  intros m [k v] Hin [Hm1 Hm2]. split; [now apply merge_entry_wf|].
  intros k' Hk'. unfold merge_entry in Hk'. cbn [fst snd] in Hk'.
  apply keys_obj_set in Hk'. destruct Hk' as [->|Hk']; [|now apply Hm2].
  apply filter_In in Hin. tauto.
Qed.

Lemma mergeGroupRecords_shape rs : merged_shape (mergeGroupRecords rs).
Proof.
  unfold mergeGroupRecords.
  destruct (merge_records_fields rs ([], []) eq_refl (fun k F => match F with end))
    as [Hw Ho].
  set (merged := fst (fold_left merge_record rs ([], []))) in *.
  destruct (snd (fold_left merge_record rs ([], []))) as [|r acc].
  - split; [assumption|]. exists merged, []. rewrite app_nil_r. auto.
  - assert (Hnone : obj_has "repositories" merged = false).
    { apply obj_has_false. intros Hin. apply Ho in Hin. discriminate. }
    assert (Hget : obj_get "repositories" merged = None).
    { apply obj_get_None. now apply obj_has_false. }
    rewrite Hget.
    destruct (mergeRepositories_sound (r :: acc)) as [repos (Hv & Hr & Hrw)].
    rewrite Hv. split.
    + apply wf_object_set; [|assumption]. cbn [wf_value].
      apply forallb_forall. intros x Hin. apply in_map_iff in Hin.
      destruct Hin as [o [<- Hin]]. rewrite Forall_forall in Hrw. auto.
    + exists merged, [("repositories", JArray (map JObject repos))].
      split; [|split; [assumption|]].
      * unfold obj_set. now rewrite Hnone.
      * right. exists repos. now split.
Qed.

End MergedShape.

(** ** Merging a merged record again *)

Section SecondMerge.
Context {host : Host}.

Lemma sanitizeRepositoryObject_rebuild o :
  sanitizeRepositoryObject o
  = rebuild (fun k v => if isInternalKey k then None else Some (cloneJsonValue v)) o [].
Proof.
  unfold sanitizeRepositoryObject, rebuild. apply fold_left_ext.
  intros s [k v]. cbn [fst snd]. now destruct (isInternalKey k).
Qed.

Lemma flat_map_singletons {X : Type} (l : list X) : flat_map (fun x => [x]) l = l.
Proof. induction l as [|x l IH]; [reflexivity|]. cbn. now rewrite IH. Qed.

Lemma flat_map_ext_In {X Y : Type} (f g : X -> list Y) (l : list X) :
  (forall x, In x l -> f x = g x) -> flat_map f l = flat_map g l.
Proof.
  induction l as [|x l IH]; intros H; [reflexivity|]. cbn.
  rewrite (H x) by now left. rewrite IH; [reflexivity|].
  intros; apply H; now right.
Qed.

Lemma sanitizeRepositoryObject_id o :
  wf_value (JObject o) = true -> no_internal_key o ->
  sanitizeRepositoryObject o = o.
Proof.
  intros Hw Hc. rewrite sanitizeRepositoryObject_rebuild.
  cbn [wf_value] in Hw. apply andb_true_iff in Hw. destruct Hw as [Hk Hv].
  rewrite rebuild_canonical by exact Hk. cbn [app].
  rewrite forallb_forall in Hv.
  rewrite <- (flat_map_singletons o) at 2. apply flat_map_ext_In.
  intros [k v] Hin. cbn [fst snd].
  rewrite (Hc k) by exact (in_map fst _ _ Hin).
  now rewrite (clone_id v (Hv (k, v) Hin)).
Qed.

Lemma filter_objects_map l : filter_objects (map JObject l) = l.
Proof. induction l as [|o l IH]; [reflexivity|]. cbn. now rewrite IH. Qed.

Lemma extract_loop_ordinary fields : forall st,
  ordinary_keys fields ->
  fold_left extract_step fields st
  = {| repoFields := repoFields st; repoObjects := repoObjects st;
       otherEntries := otherEntries st ++ fields |}.
Proof.
  induction fields as [|[k v] fields IH]; intros st Ho.
  - cbn. rewrite app_nil_r. now destruct st.
  - cbn [fold_left]. rewrite IH by (intros k' Hk'; apply Ho; now right).
    assert (Hk : ordinary_key k = true) by (apply Ho; now left).
    unfold ordinary_key in Hk. rewrite !andb_true_iff, !negb_true_iff in Hk.
    destruct Hk as [[H1 H2] H3]. unfold extract_step. cbn [fst snd].
    rewrite H1, H2, H3. cbn [repoFields repoObjects otherEntries].
    now rewrite <- app_assoc.
Qed.

Lemma extract_shaped fields repos :
  ordinary_keys fields ->
  Forall (fun r => wf_value (JObject r) = true /\ no_internal_key r) repos ->
  extractRepositoryEntries
    (fields ++ [("repositories", JArray (map JObject repos))])
  = (repos, fields).
Proof.
  intros Ho Hr. unfold extractRepositoryEntries, extract_loop.
  rewrite fold_left_app, (extract_loop_ordinary fields) by assumption.
  cbn [fold_left repoFields repoObjects otherEntries app].
  unfold extract_step. cbn [fst snd].
  change (isInternalKey "repositories") with false.
  change (String.eqb "repositories" "repositories") with true.
  cbv iota. cbn [repoFields repoObjects otherEntries app].
  unfold normalizeRepositoryCollection. rewrite filter_objects_map.
  change (buildRepositoryObjects []) with (@nil JsonObject). rewrite app_nil_r.
  apply f_equal2; [|reflexivity].
  rewrite <- (map_id repos) at 2. apply map_ext_in.
  intros r Hin. rewrite Forall_forall in Hr. destruct (Hr r Hin).
  now apply sanitizeRepositoryObject_id.
Qed.

Lemma extract_plain fields :
  ordinary_keys fields -> extractRepositoryEntries fields = ([], fields).
Proof.
  intros Ho. unfold extractRepositoryEntries, extract_loop.
  rewrite extract_loop_ordinary by assumption. reflexivity.
Qed.

Lemma merge_entries_settled l : forall acc,
  canonical_keys (keys acc ++ keys l) = true ->
  (forall k v, In (k, v) l -> wf_value v = true /\ settled_value v = true) ->
  fold_left merge_entry l acc = acc ++ l.
Proof.
  induction l as [|[k v] l IH]; intros acc Hc Hl.
  - cbn. now rewrite app_nil_r.
  - cbn [fold_left]. unfold merge_entry at 2. cbn [fst snd].
    assert (Hpre : canonical_keys (keys acc ++ [k]) = true).
    { apply (canonical_prefix _ (keys l)). now rewrite <- app_assoc. }
    assert (Hn : obj_get k acc = None).
    { apply obj_get_None. apply canonical_NoDup in Hpre.
      apply NoDup_remove_2 in Hpre. now rewrite app_nil_r in Hpre. }
    destruct (Hl k v (or_introl eq_refl)) as [Hw Hs].
    rewrite Hn, settled_value_fixed, obj_set_append by assumption.
    rewrite IH.
    + now rewrite <- app_assoc.
    + unfold keys. rewrite map_app, <- app_assoc. exact Hc.
    + intros k' v' Hin. apply (Hl k' v'). now right.
Qed.

(** With distinct keys, every repository is inserted and none merged. *)
Lemma upsert_distinct repos : forall byKey order,
  Forall (fun r => r <> [] /\ wf_value (JObject r) = true /\ no_internal_key r) repos ->
  NoDup (keys byKey ++ map buildRepositoryKey repos) ->
  fold_left upsert (map JObject repos) (byKey, order)
  = (byKey ++ map (fun r => (buildRepositoryKey r, r)) repos,
     order ++ map buildRepositoryKey repos).
Proof.
  induction repos as [|r repos IH]; intros byKey order Hr Hnd.
  - cbn. now rewrite !app_nil_r.
  - inversion Hr as [|? ? (Hne & Hw & Hc) Hr']; subst.
    cbn [map fold_left]. unfold upsert at 2.
    rewrite sanitizeRepositoryObject_id by assumption.
    destruct r as [|e r]; [congruence|]. cbv beta iota zeta. cbn [fst snd].
    assert (Hg : map_get (buildRepositoryKey (e :: r)) byKey = None).
    { apply map_get_None. cbn [map] in Hnd. now apply NoDup_remove_2 in Hnd;
        intros H; apply Hnd; apply in_or_app; left. }
    rewrite Hg, (map_set_new _ _ _ Hg), cloneJsonObject_id by assumption.
    rewrite IH; [now rewrite <- !app_assoc | assumption |].
    unfold keys. rewrite map_app, <- app_assoc. exact Hnd.
Qed.

Lemma emit_distinct (l : list (string * JsonObject)) :
  NoDup (keys l) ->
  Forall (fun kr => wf_value (JObject (snd kr)) = true) l ->
  emit_repositories (l, keys l) = map snd l.
Proof.
  intros Hnd Hw. unfold emit_repositories. cbn [fst snd].
  assert (H : forall kr, In kr l -> map_get (fst kr) l = Some (snd kr)).
  { clear Hw. induction l as [|[k r] l IH]; intros kr Hin; [destruct Hin|].
    inversion Hnd as [|? ? Hn Hnd']; subst. destruct Hin as [<-|Hin].
    - cbn. now rewrite String.eqb_refl.
    - cbn [map_get]. destruct (String.eqb_spec (fst kr) k) as [He|Hne].
      + exfalso. apply Hn. rewrite <- He. exact (in_map fst _ _ Hin).
      + auto. }
  unfold keys. rewrite flat_map_concat_map, map_map.
  rewrite <- (flat_map_singletons (map snd l)), flat_map_concat_map, map_map.
  f_equal. apply map_ext_in. intros kr Hin. cbv beta. rewrite (H kr Hin).
  cbv iota. rewrite Forall_forall in Hw. f_equal.
  apply cloneJsonObject_id. exact (Hw kr Hin).
Qed.

Lemma mergeRepositories_distinct repos :
  Forall (fun r => r <> [] /\ wf_value (JObject r) = true /\ no_internal_key r) repos ->
  NoDup (map buildRepositoryKey repos) ->
  mergeRepositories None repos = JArray (map JObject repos).
Proof.
  intros Hr Hnd. unfold mergeRepositories.
  rewrite (upsert_distinct repos [] []) by assumption. cbn [app].
  replace (map buildRepositoryKey repos)
    with (keys (map (fun r => (buildRepositoryKey r, r)) repos))
    by (unfold keys; rewrite map_map; reflexivity).
  rewrite emit_distinct.
  - do 2 f_equal. rewrite map_map. apply map_id.
  - unfold keys. now rewrite map_map.
  - apply Forall_forall. intros kr Hin. apply in_map_iff in Hin.
    destruct Hin as [r [<- Hin]]. rewrite Forall_forall in Hr.
    cbn [snd]. now destruct (Hr r Hin) as (_ & Hw & _).
Qed.

Lemma wf_object_app_l (a b : JsonObject) :
  wf_value (JObject (a ++ b)) = true ->
  canonical_keys (keys a) = true
  /\ (forall k v, In (k, v) (a ++ b) -> wf_value v = true).
Proof.
  cbn [wf_value]. rewrite andb_true_iff, forallb_forall. intros [Hc Hv]. split.
  - rewrite map_app in Hc. now apply canonical_prefix in Hc.
  - intros k v Hin. exact (Hv (k, v) Hin).
Qed.

Lemma merged_record_fixed o :
  merged_shape o -> settled_record o = true -> mergeGroupRecords [o] = o.
Proof.
  intros (Hw & fields & tail & -> & Ho & Htail) Hs.
  destruct (wf_object_app_l _ _ Hw) as [Hc Hv].
  unfold settled_record in Hs. rewrite forallb_forall in Hs.
  assert (Hfields : fold_left merge_entry fields [] = fields).
  { rewrite merge_entries_settled; [reflexivity | exact Hc |].
    intros k v Hin. split; [apply (Hv k v); apply in_or_app; now left|].
    specialize (Hs (k, v) (in_or_app _ _ _ (or_introl Hin))). cbn [fst snd] in Hs.
    assert (Hk : ordinary_key k = true) by (apply Ho; exact (in_map fst _ _ Hin)).
    unfold ordinary_key in Hk. rewrite !andb_true_iff, !negb_true_iff in Hk.
    destruct Hk as [[_ Hk] _]. now rewrite Hk in Hs. }
  unfold mergeGroupRecords. cbn [fold_left]. unfold merge_record. cbn [fst snd app].
  destruct Htail as [->|[repos [-> Hr]]].
  - rewrite app_nil_r in *. rewrite extract_plain by assumption. cbn [fst snd].
    now rewrite Hfields.
  - assert (Hin : In ("repositories", JArray (map JObject repos))
                    (fields ++ [("repositories", JArray (map JObject repos))]))
      by (apply in_or_app; right; now left).
    pose proof (Hv _ _ Hin) as Hrw. cbn [wf_value] in Hrw.
    rewrite forallb_forall in Hrw.
    specialize (Hs _ Hin). cbn [fst snd] in Hs.
    change (String.eqb "repositories" "repositories") with true in Hs.
    cbv iota in Hs. unfold settled_repositories in Hs.
    rewrite !andb_true_iff, negb_true_iff in Hs. destruct Hs as [[Hlen _] Hd].
    assert (Hall : Forall (fun r => r <> [] /\ wf_value (JObject r) = true
                                    /\ no_internal_key r) repos).
    { apply Forall_forall. intros r Hr'. rewrite Forall_forall in Hr.
      destruct (Hr r Hr'). repeat split; auto.
      apply Hrw. now apply in_map. }
    rewrite extract_shaped; [|assumption|].
    + cbn [fst snd]. rewrite Hfields.
      destruct repos as [|r repos]; [discriminate|].
      assert (Hnone : obj_has "repositories" fields = false).
      { apply obj_has_false. intros Hk. apply Ho in Hk. discriminate. }
      assert (Hget : obj_get "repositories" fields = None).
      { apply obj_get_None. now apply obj_has_false. }
      rewrite Hget, mergeRepositories_distinct; [| assumption |].
      * unfold obj_set. now rewrite Hnone.
      * apply distinct_NoDup. now rewrite map_map in Hd.
    + apply Forall_forall. intros r Hr'. rewrite Forall_forall in Hall.
      destruct (Hall r Hr') as (_ & H1 & H2). now split.
Qed.

End SecondMerge.

(** ** Collapsing records of distinct identities *)

Section DistinctIdentities.
Context {host : Host}.
Variables idField metadataField : string.

(** The identity key of a record. *)
Definition id_key_of (o : JsonObject) : string :=
  match obj_get idField o with
  | Some idValue => buildIdKey idValue
  | None => EmptyString
  end.

Definition metadata_of (o : JsonObject) : JsonValue :=
  match obj_get metadataField o with
  | Some m => m
  | None => JNull
  end.

Definition single_group (o : JsonObject) : string * Group :=
  (id_key_of o, {| metadata := metadata_of o; records := [o] |}).

Lemma usable_object o :
  is_usable idField metadataField (JObject o) = true ->
  usable idField metadataField (JObject o) = Some (id_key_of o, metadata_of o, o).
Proof.
  unfold is_usable, usable, id_key_of, metadata_of.
  destruct (obj_get idField o); [|discriminate].
  destruct (obj_get metadataField o) as [m|]; [|discriminate].
  now destruct (isMeaninglessMetadata m).
Qed.

Lemma loop_distinct O : forall st,
  Forall (fun o => is_usable idField metadataField (JObject o) = true) O ->
  NoDup (keys (byId st) ++ map id_key_of O) ->
  fold_left (collapse_step idField metadataField) (map JObject O) st
  = {| byId := byId st ++ map single_group O;
       n_missingId := n_missingId st;
       n_missingMetadata := n_missingMetadata st;
       n_olderRecordsSkipped := n_olderRecordsSkipped st |}.
Proof.
  induction O as [|o O IH]; intros st Hu Hnd.
  - cbn. rewrite app_nil_r. now destruct st.
  - inversion Hu as [|? ? Ho Hu']; subst. cbn [map fold_left].
    rewrite (collapse_step_usable _ _ _ _ _ _ _ (usable_object o Ho)).
    assert (Hg : map_get (id_key_of o) (byId st) = None).
    { apply map_get_None. cbn [map] in Hnd. apply NoDup_remove_2 in Hnd.
      intros H. apply Hnd. apply in_or_app. now left. }
    unfold place. rewrite Hg, (map_set_new _ _ _ Hg). rewrite IH.
    + cbn [byId regroup n_missingId n_missingMetadata n_olderRecordsSkipped map].
      rewrite <- app_assoc, Z.add_0_r. reflexivity.
    + assumption.
    + cbn [byId regroup]. unfold keys. rewrite map_app, <- app_assoc. exact Hnd.
Qed.

Lemma used_single_groups O a :
  fold_left (fun n g => n + Z.of_nat (List.length (records g)))
    (map snd (map single_group O)) a
  = a + Z.of_nat (List.length O).
Proof.
  revert a. induction O as [|o O IH]; intros a; [cbn; lia|].
  cbn [map fold_left snd single_group records List.length]. rewrite IH.
  cbn [List.length]. lia.
Qed.

Lemma collapse_distinct O :
  Forall (fun o => is_usable idField metadataField (JObject o) = true) O ->
  NoDup (map id_key_of O) ->
  collapseRecords (map JObject O) idField metadataField
  = (map (fun o => mergeGroupRecords [o]) O,
     summary_of (Z.of_nat (List.length O)) (Z.of_nat (List.length O))
       (Z.of_nat (List.length O)) 0).
Proof.
  intros Hu Hnd. unfold collapseRecords, collapse_loop.
  rewrite loop_distinct by assumption.
  cbn [byId app n_missingId n_missingMetadata n_olderRecordsSkipped].
  rewrite used_single_groups, !map_map, !length_map. cbn [snd single_group records].
  reflexivity.
Qed.

End DistinctIdentities.

(** C4, as amended.  Take an output of the collapse operation in which
    every record carries the identity field and a freshness value, every
    identity appears exactly once, every merged field value is in merged
    form (a non-empty scalar, or a list without empty or repeated
    entries that does not hold exactly one entry) and every
    [repositories] list is non-empty with pairwise distinct repository
    keys.  Collapsing it again, with the same field names, gives the
    same list of records; every record is used and none is merged or
    skipped. *)
Theorem collapse_again_is_identity
  {host : Host} (input : list JsonValue) (idField metadataField : string) :
  let output := fst (collapseRecords input idField metadataField) in
  Forall (fun o => is_usable idField metadataField (JObject o) = true) output ->
  NoDup (map (id_key_of idField) output) ->
  Forall (fun o => settled_record o = true) output ->
  collapseRecords (map JObject output) idField metadataField
  = (output,
     summary_of (Z.of_nat (List.length output)) (Z.of_nat (List.length output))
       (Z.of_nat (List.length output)) 0).
Proof.
  intros output Hu Hnd Hs. rewrite collapse_distinct by assumption.
  f_equal. rewrite <- (map_id output) at 2. apply map_ext_in.
  intros o Hin. apply merged_record_fixed.
  - unfold output, collapseRecords in Hin. cbn [fst] in Hin.
    apply in_map_iff in Hin. destruct Hin as [g [<- _]].
    apply mergeGroupRecords_shape.
  - rewrite Forall_forall in Hs. auto.
Qed.

Module IdempotenceExample.
Import IsoHost.

Definition input : list JsonValue :=
  [JObject [("id", JString "p1"); ("last_metadata_update", JString "2024-06-01");
            ("name", JString "Foo"); ("tags", JArray [JString "x"; JString "y"]);
            ("repo_url", JArray [JString "u1"; JString "u2"]);
            ("repo_stars", JNumber 5)];
   JObject [("id", JString "p1"); ("last_metadata_update", JString "2024-01-01");
            ("name", JString "Old")];
   JObject [("id", JString "p2"); ("last_metadata_update", JString "2024-03-01");
            ("name", JString "Bar"); ("_dlt_id", JString "z")]].

Definition output : list JsonObject :=
  [[("id", JString "p1"); ("last_metadata_update", JString "2024-06-01");
    ("name", JString "Foo"); ("tags", JArray [JString "x"; JString "y"]);
    ("repositories",
     JArray [JObject [("url", JString "u1"); ("stars", JNumber 5)];
             JObject [("url", JString "u2"); ("stars", JNumber 5)]])];
   [("id", JString "p2"); ("last_metadata_update", JString "2024-03-01");
    ("name", JString "Bar")]].

Lemma collapse_again_is_identity_witness :
  fst (collapseRecords input "id" "last_metadata_update") = output
  /\ collapseRecords (map JObject output) "id" "last_metadata_update"
     = (output, summary_of 2 2 2 0).
Proof.
  split; [reflexivity|].
  pose proof (collapse_again_is_identity input "id" "last_metadata_update") as H.
  change (fst (collapseRecords input "id" "last_metadata_update")) with output in H.
  apply H.
  - repeat constructor.
  - repeat constructor; simpl; intuition discriminate.
  - repeat constructor.
Defined.

(** C4, the claim as stated fails.  The output for the input below holds
    one record, whose [tag] is the one-entry list [[1]]; collapsing that
    output again turns the list into the scalar [1]. *)
Lemma collapse_again_can_differ :
  let input := [JObject [("id", JString "a"); ("t", JString "T");
                         ("tag", JArray [JArray [JNumber 1]])]] in
  let output := fst (collapseRecords input "id" "t") in
  output = [[("id", JString "a"); ("t", JString "T"); ("tag", JArray [JNumber 1])]]
  /\ fst (collapseRecords (map JObject output) "id" "t")
     = [[("id", JString "a"); ("t", JString "T"); ("tag", JNumber 1)]].
Proof. repeat split. Qed.

End IdempotenceExample.

(** ** The stable serialization decides structural equality *)

Section StringFacts.

Lemma append_assoc (a b c : string) : ((a ++ b) ++ c = a ++ (b ++ c))%string.
Proof. induction a as [|x a IH]; simpl; [reflexivity | now rewrite IH]. Qed.

Lemma append_nil_r (a : string) : (a ++ "")%string = a.
Proof. induction a as [|x a IH]; simpl; [reflexivity | now rewrite IH]. Qed.

Lemma append_inj_l (p a b : string) : (p ++ a)%string = (p ++ b)%string -> a = b.
Proof. induction p as [|c p IH]; simpl; [auto|]. intros [= H]. auto. Qed.

Lemma prefix_nil (s : string) : String.prefix "" s = true.
Proof. now destruct s. Qed.

Lemma prefix_append (a t : string) : String.prefix a (a ++ t) = true.
Proof.
  induction a as [|c a IH]; simpl; [apply prefix_nil|].
  destruct (Ascii.ascii_dec c c); [exact IH | congruence].
Qed.

(** Two strings that start a common string: one starts the other. *)
Lemma append_eq_prefix (a b x y : string) :
  (a ++ x)%string = (b ++ y)%string ->
  String.prefix a b = true \/ String.prefix b a = true.
Proof.
  revert b. induction a as [|c a IH]; intros b H.
  - left. apply prefix_nil.
  - destruct b as [|d b]; [right; reflexivity|].
    simpl in H. injection H as -> H. destruct (IH b H) as [Hp|Hp].
    + left. simpl. destruct (Ascii.ascii_dec d d); [exact Hp | congruence].
    + right. simpl. destruct (Ascii.ascii_dec d d); [exact Hp | congruence].
Qed.

Definition is_digit (c : ascii) : bool :=
  let n := N_of_ascii c in ((48 <=? n) && (n <=? 57))%N.

Fixpoint all_digits (s : string) : bool :=
  match s with
  | EmptyString => true
  | String c s' => is_digit c && all_digits s'
  end.

(** What may follow a serialized value: nothing, or a separator. *)
Definition delimited (r : string) : bool :=
  match r with
  | EmptyString => true
  | String c _ => Ascii.eqb c "," || Ascii.eqb c "]" || Ascii.eqb c "}"
  end.

Lemma delimited_not_digit c r : delimited (String c r) = true -> is_digit c = false.
Proof.
  cbn [delimited]. rewrite !orb_true_iff, !Ascii.eqb_eq.
  intros [[->| ->]| ->]; reflexivity.
Qed.

Lemma digits_unique a : forall b r1 r2,
  all_digits a = true -> all_digits b = true ->
  delimited r1 = true -> delimited r2 = true ->
  (a ++ r1)%string = (b ++ r2)%string -> a = b /\ r1 = r2.
Proof.
  induction a as [|c a IH]; intros b r1 r2 Ha Hb H1 H2 H.
  - destruct b as [|d b]; [now split|]. simpl in H. subst r1.
    apply delimited_not_digit in H1. cbn [all_digits] in Hb.
    apply andb_true_iff in Hb. destruct Hb. congruence.
  - destruct b as [|d b].
    + simpl in H. subst r2. apply delimited_not_digit in H2.
      cbn [all_digits] in Ha. apply andb_true_iff in Ha. destruct Ha. congruence.
    + simpl in H. injection H as -> H. cbn [all_digits] in Ha, Hb.
      apply andb_true_iff in Ha, Hb.
      destruct (IH b r1 r2) as [-> ->]; tauto.
Qed.

Lemma uint_digits u : all_digits (NilEmpty.string_of_uint u) = true.
Proof. induction u; simpl; auto. Qed.

Lemma uint_string_digits u :
  all_digits (NilZero.string_of_uint u) = true
  /\ exists c s, NilZero.string_of_uint u = String c s /\ is_digit c = true.
Proof.
  destruct u; cbn [NilZero.string_of_uint];
    (split; [try reflexivity; cbn [NilEmpty.string_of_uint all_digits];
             rewrite uint_digits; reflexivity|]);
    eexists; eexists; split; reflexivity.
Qed.

Lemma int_string_inj d d' :
  d <> Decimal.Pos Decimal.Nil -> d <> Decimal.Neg Decimal.Nil ->
  d' <> Decimal.Pos Decimal.Nil -> d' <> Decimal.Neg Decimal.Nil ->
  NilZero.string_of_int d = NilZero.string_of_int d' -> d = d'.
Proof.
  intros H1 H2 H3 H4 H.
  pose proof (NilZero.isi d H1 H2) as E. rewrite H in E.
  rewrite (NilZero.isi d' H3 H4) in E. congruence.
Qed.

Lemma to_int_not_nil n :
  Z.to_int n <> Decimal.Pos Decimal.Nil /\ Z.to_int n <> Decimal.Neg Decimal.Nil.
Proof.
  destruct n as [|p|p]; cbn; split; try discriminate;
    intros [= H]; now apply (DecimalPos.Unsigned.to_uint_nonnil p).
Qed.

Lemma number_to_string_inj n m : number_to_string n = number_to_string m -> n = m.
Proof.
  unfold number_to_string. intros H. apply DecimalZ.to_int_inj.
  destruct (to_int_not_nil n), (to_int_not_nil m). now apply int_string_inj.
Qed.

(** A number: digits, after a minus sign or not. *)
Lemma number_to_string_shape n :
  exists sign digits,
    number_to_string n = (sign ++ digits)%string
    /\ (sign = "" \/ sign = "-")
    /\ all_digits digits = true
    /\ exists c s, digits = String c s /\ is_digit c = true.
Proof.
  unfold number_to_string.
  destruct (Z.to_int n) as [u|u]; cbn [NilZero.string_of_int];
    destruct (uint_string_digits u) as [Hd Hc].
  - exists "", (NilZero.string_of_uint u). auto.
  - exists "-", (NilZero.string_of_uint u). auto.
Qed.

Lemma number_unique n m r1 r2 :
  delimited r1 = true -> delimited r2 = true ->
  (number_to_string n ++ r1)%string = (number_to_string m ++ r2)%string ->
  n = m /\ r1 = r2.
Proof.
  intros H1 H2 H.
  destruct (number_to_string_shape n) as (s & d & En & Hs & Hd & c & t & Ec & Hc).
  destruct (number_to_string_shape m) as (s' & d' & Em & Hs' & Hd' & c' & t' & Ec' & Hc').
  assert (Hsd : (d ++ r1)%string = (d' ++ r2)%string /\ s = s').
  { rewrite En, Em, !append_assoc in H.
    destruct Hs as [-> | ->], Hs' as [-> | ->]; simpl in H.
    - now split.
    - rewrite Ec in H. simpl in H. injection H as -> _. discriminate.
    - rewrite Ec' in H. simpl in H. injection H as <- _. discriminate.
    - injection H as H. now split. }
  destruct Hsd as [Hdd ->].
  destruct (digits_unique d d' r1 r2 Hd Hd' H1 H2 Hdd) as [-> ->].
  split; [|reflexivity]. apply number_to_string_inj. congruence.
Qed.

(** *** Quoted strings *)

Definition all_ascii : list ascii := map ascii_of_nat (seq 0 256).

Lemma all_ascii_complete c : In c all_ascii.
Proof.
  assert (H : existsb (Ascii.eqb c) all_ascii = true)
    by (destruct c as [[] [] [] [] [] [] [] []]; vm_compute; reflexivity).
  apply existsb_exists in H. destruct H as [x [Hx He]].
  apply Ascii.eqb_eq in He. now subst.
Qed.

(** The encoding of a code unit starts the encoding of no other, and
    never starts with a double quote. *)
Definition quote_char_separate (c c' : ascii) : bool :=
  implb (String.prefix (quote_char c) (quote_char c')) (Ascii.eqb c c')
  && match quote_char c with
     | EmptyString => false
     | String d _ => negb (Ascii.eqb d dquote)
     end.

Lemma quote_char_separate_all c c' : quote_char_separate c c' = true.
Proof.
  assert (H : forallb (fun a => forallb (quote_char_separate a) all_ascii) all_ascii
              = true) by (vm_compute; reflexivity).
  rewrite forallb_forall in H. specialize (H c (all_ascii_complete c)).
  rewrite forallb_forall in H. exact (H c' (all_ascii_complete c')).
Qed.

Lemma quote_char_unique c c' x y :
  (quote_char c ++ x)%string = (quote_char c' ++ y)%string -> c = c' /\ x = y.
Proof.
  intros H.
  assert (Hc : c = c').
  { destruct (append_eq_prefix _ _ _ _ H) as [Hp|Hp].
    - pose proof (quote_char_separate_all c c') as Hs. unfold quote_char_separate in Hs.
      rewrite Hp in Hs. apply andb_true_iff in Hs. destruct Hs as [Hs _].
      now apply Ascii.eqb_eq.
    - pose proof (quote_char_separate_all c' c) as Hs. unfold quote_char_separate in Hs.
      rewrite Hp in Hs. apply andb_true_iff in Hs. destruct Hs as [Hs _].
      symmetry. now apply Ascii.eqb_eq. }
  subst c'. split; [reflexivity|]. now apply append_inj_l in H.
Qed.

Lemma quote_char_not_dquote c x y :
  (quote_char c ++ x)%string <> String dquote y.
Proof.
  intros H. pose proof (quote_char_separate_all c c) as Hs.
  unfold quote_char_separate in Hs. apply andb_true_iff in Hs.
  destruct Hs as [_ Hs].
  destruct (quote_char c) as [|d q]; [discriminate|].
  simpl in H. injection H as -> _. apply negb_true_iff in Hs.
  now rewrite Ascii.eqb_refl in Hs.
Qed.

Lemma quote_chars_unique s : forall s' r1 r2,
  (quote_chars s ++ String dquote r1)%string
  = (quote_chars s' ++ String dquote r2)%string ->
  s = s' /\ r1 = r2.
Proof.
  induction s as [|c s IH]; intros s' r1 r2 H.
  - destruct s' as [|c' s']; simpl in H.
    + injection H as ->. now split.
    + rewrite append_assoc in H. symmetry in H.
      now apply quote_char_not_dquote in H.
  - destruct s' as [|c' s']; simpl in H.
    + rewrite append_assoc in H. now apply quote_char_not_dquote in H.
    + rewrite !append_assoc in H. apply quote_char_unique in H.
      destruct H as [-> H]. destruct (IH _ _ _ H) as [-> ->]. now split.
Qed.

Lemma JSON_quote_unique s s' r1 r2 :
  (JSON_quote s ++ r1)%string = (JSON_quote s' ++ r2)%string -> s = s' /\ r1 = r2.
Proof.
  unfold JSON_quote. simpl. rewrite !append_assoc. simpl. intros [= H].
  now apply quote_chars_unique.
Qed.

End StringFacts.

(** *** Structural equality *)

Section All2.
Context {A B : Type}.
Variable f : A -> B -> bool.

Fixpoint all2 (l : list A) (l' : list B) : bool :=
  match l, l' with
  | [], [] => true
  | x :: r, y :: r' => f x y && all2 r r'
  | _, _ => false
  end.

Lemma all2_Forall2 l : forall l',
  all2 l l' = true <-> Forall2 (fun x y => f x y = true) l l'.
Proof.
  induction l as [|x l IH]; intros [|y l']; cbn [all2]; split; intros H;
    try discriminate; try constructor; try solve [inversion H].
  - apply andb_true_iff in H. tauto.
  - apply andb_true_iff in H. apply IH. tauto.
  - inversion H; subst. apply andb_true_iff. split; [assumption | now apply IH].
Qed.
End All2.

(** Equality of two values, deep, and whatever the order of the keys of
    their objects: same kind and same content; for lists, entry by
    entry; for objects, as many keys and, key by key, equal values. *)
Fixpoint json_eqb (v w : JsonValue) : bool :=
  match v, w with
  | JNull, JNull => true
  | JBool a, JBool b => Bool.eqb a b
  | JNumber a, JNumber b => Z.eqb a b
  | JString a, JString b => String.eqb a b
  | JArray xs, JArray ys => all2 (fun x y => json_eqb x y) xs ys
  | JObject e, JObject e' =>
      Nat.eqb (List.length e) (List.length e')
      && forallb
           (fun ke =>
              match obj_get (fst ke) e' with
              | Some y => json_eqb (snd ke) y
              | None => false
              end) e
  | _, _ => false
  end.

(** The kind of value that a text starts: told by its first character. *)
Definition head_kind (s : string) : nat :=
  match s with
  | EmptyString => 0
  | String c _ =>
      if is_digit c || Ascii.eqb c "-" then 3
      else if Ascii.eqb c "n" then 1
      else if Ascii.eqb c "t" || Ascii.eqb c "f" then 2
      else if Ascii.eqb c dquote then 4
      else if Ascii.eqb c "[" then 5
      else if Ascii.eqb c "{" then 6
      else 0
  end%nat.

Definition kind (v : JsonValue) : nat :=
  match v with
  | JNull => 1
  | JBool _ => 2
  | JNumber _ => 3
  | JString _ => 4
  | JArray _ => 5
  | JObject _ => 6
  end%nat.

Lemma delimited_head r : delimited r = true -> head_kind r = 0%nat.
Proof.
  destruct r as [|c r]; [reflexivity|]. cbn [delimited].
  rewrite !orb_true_iff, !Ascii.eqb_eq. intros [[->| ->]| ->]; reflexivity.
Qed.

Fixpoint join_rest (l : list string) : string :=
  match l with
  | [] => ""
  | y :: l' => ("," ++ y ++ join_rest l')%string
  end.

Lemma concat_cons l : forall x,
  String.concat "," (x :: l) = (x ++ join_rest l)%string.
Proof.
  induction l as [|y l IH]; intros x.
  - cbn. now rewrite append_nil_r.
  - change (String.concat "," (x :: y :: l))
      with (x ++ "," ++ String.concat "," (y :: l))%string.
    now rewrite IH.
Qed.

(** *** Reading back a joined list *)

Section Joined.
Context {A : Type}.
Variable f : A -> string.
Variable good : A -> Prop.
Variable rel : A -> A -> Prop.
Variable close : ascii.
Hypothesis close_delimits : forall r, delimited (String close r) = true.
Hypothesis close_not_comma : close <> ","%char.
Hypothesis f_head : forall a r, head_kind (f a ++ r) <> 0%nat.

Definition readable (a : A) : Prop :=
  forall b r1 r2, good a -> good b ->
    delimited r1 = true -> delimited r2 = true ->
    (f a ++ r1)%string = (f b ++ r2)%string -> rel a b /\ r1 = r2.

Lemma rest_delimited l r : delimited (join_rest l ++ String close r) = true.
Proof. destruct l; [apply close_delimits | reflexivity]. Qed.

Lemma joined_rest_unique l :
  Forall readable l -> Forall good l ->
  forall l' r1 r2, Forall good l' ->
    (join_rest (map f l) ++ String close r1)%string
    = (join_rest (map f l') ++ String close r2)%string ->
    Forall2 rel l l' /\ r1 = r2.
Proof.
  induction l as [|a l IH]; intros Hr Hg [|b l'] r1 r2 Hg' H.
  - cbn in H. injection H as ->. split; [constructor | reflexivity].
  - cbn in H. injection H as Hc _. contradiction.
  - cbn in H. injection H as Hc _. symmetry in Hc. contradiction.
  - cbn [map join_rest] in H. cbn in H. injection H as H.
    rewrite !append_assoc in H.
    inversion Hr as [|? ? Ha Hr']; subst. inversion Hg as [|? ? Hga Hgl]; subst.
    inversion Hg' as [|? ? Hgb Hgl']; subst.
    destruct (Ha b _ _ Hga Hgb (rest_delimited _ _) (rest_delimited _ _) H)
      as [Hab Hrest].
    destruct (IH Hr' Hgl l' r1 r2 Hgl' Hrest) as [Hl ->].
    split; [now constructor | reflexivity].
Qed.

Lemma joined_unique l :
  Forall readable l -> Forall good l ->
  forall l' r1 r2, Forall good l' ->
    (String.concat "," (map f l) ++ String close r1)%string
    = (String.concat "," (map f l') ++ String close r2)%string ->
    Forall2 rel l l' /\ r1 = r2.
Proof.
  intros Hr Hg l' r1 r2 Hg' H.
  destruct l as [|a l], l' as [|b l'].
  - cbn in H. injection H as ->. split; [constructor | reflexivity].
  - exfalso. cbn [map] in H. rewrite concat_cons, append_assoc in H.
    apply (f_head b (join_rest (map f l') ++ String close r2)).
    rewrite <- H. apply delimited_head. cbn [String.concat append]. apply close_delimits.
  - exfalso. cbn [map] in H. rewrite concat_cons, append_assoc in H.
    apply (f_head a (join_rest (map f l) ++ String close r1)).
    rewrite H. apply delimited_head. cbn [String.concat append]. apply close_delimits.
  - cbn [map] in H. rewrite !concat_cons, !append_assoc in H.
    inversion Hr as [|? ? Ha Hr']; subst. inversion Hg as [|? ? Hga Hgl]; subst.
    inversion Hg' as [|? ? Hgb Hgl']; subst.
    destruct (Ha b _ _ Hga Hgb (rest_delimited _ _) (rest_delimited _ _) H)
      as [Hab Hrest].
    destruct (joined_rest_unique l Hr' Hgl l' r1 r2 Hgl' Hrest) as [Hl ->].
    split; [now constructor | reflexivity].
Qed.

End Joined.

(** *** Reading back a serialized value *)

Section Readback.
Context {host : Host}.

Lemma In_insert_entry {A : Type} (x y : string * A) l :
  In y (insert_entry x l) <-> y = x \/ In y l.
Proof.
  induction l as [|z l IH]; cbn [insert_entry].
  - cbn. intuition congruence.
  - destruct (localeCompare (fst x) (fst z)); cbn [In]; try rewrite IH;
      intuition congruence.
Qed.

Lemma insert_entry_length {A : Type} (x : string * A) l :
  List.length (insert_entry x l) = S (List.length l).
Proof.
  induction l as [|z l IH]; cbn [insert_entry]; [reflexivity|].
  destruct (localeCompare (fst x) (fst z)); cbn [List.length]; congruence.
Qed.

Lemma In_sort_entries {A : Type} (y : string * A) l :
  In y (sort_entries l) <-> In y l.
Proof.
  induction l as [|x l IH]; [reflexivity|].
  cbn [sort_entries fold_right]. fold (sort_entries l).
  rewrite In_insert_entry, IH. cbn [In]. intuition congruence.
Qed.

Lemma sort_entries_length {A : Type} (l : list (string * A)) :
  List.length (sort_entries l) = List.length l.
Proof.
  induction l as [|x l IH]; [reflexivity|].
  cbn [sort_entries fold_right]. fold (sort_entries l).
  rewrite insert_entry_length. cbn [List.length]. congruence.
Qed.

Lemma obj_get_of_In {A : Type} k (v : A) o :
  NoDup (keys o) -> In (k, v) o -> obj_get k o = Some v.
Proof.
  induction o as [|[k' v'] o IH]; intros Hnd Hin; [destruct Hin|].
  cbn [obj_get]. inversion Hnd as [|? ? Hk Hnd']; subst.
  destruct Hin as [[= -> ->]|Hin].
  - now rewrite String.eqb_refl.
  - destruct (String.eqb k k') eqn:E; [|now apply IH].
    apply String.eqb_eq in E. subst k'. exfalso. apply Hk.
    unfold keys. apply in_map_iff. now exists (k, v).
Qed.

Definition entry_text (ke : string * JsonValue) : string :=
  (JSON_quote (fst ke) ++ ":" ++ stableStringify (snd ke))%string.

Lemma stringify_array_app items r :
  (stableStringify (JArray items) ++ r)%string
  = String "[" (String.concat "," (map stableStringify items) ++ String "]" r).
Proof.
  cbn [stableStringify]. cbn [append]. f_equal. now rewrite append_assoc.
Qed.

Lemma stringify_object_app entries r :
  (stableStringify (JObject entries) ++ r)%string
  = String "{" (String.concat "," (map entry_text (sort_entries entries))
                ++ String "}" r).
Proof.
  rewrite stableStringify_object. cbn [append]. f_equal. now rewrite append_assoc.
Qed.

Lemma head_kind_value v r : head_kind (stableStringify v ++ r) = kind v.
Proof.
  destruct v as [|b|n|s|items|entries].
  - reflexivity.
  - now destruct b.
  - cbn [stableStringify kind].
    destruct (number_to_string_shape n) as (sg & d & -> & Hs & _ & c & t & -> & Hc).
    destruct Hs as [-> | ->]; cbn [append head_kind]; [now rewrite Hc | reflexivity].
  - reflexivity.
  - now rewrite stringify_array_app.
  - now rewrite stringify_object_app.
Qed.

Definition reads_back (v : JsonValue) : Prop :=
  forall w r1 r2,
    wf_value v = true -> wf_value w = true ->
    delimited r1 = true -> delimited r2 = true ->
    (stableStringify v ++ r1)%string = (stableStringify w ++ r2)%string ->
    json_eqb v w = true /\ r1 = r2.

Lemma entry_reads_back ke :
  reads_back (snd ke) ->
  readable entry_text (fun x => wf_value (snd x) = true)
    (fun x y => fst x = fst y /\ json_eqb (snd x) (snd y) = true) ke.
Proof.
  intros Hv [k' w] r1 r2 Hg Hg' H1 H2 H. destruct ke as [k v].
  unfold entry_text in H. cbn [fst snd] in *. rewrite !append_assoc in H.
  apply JSON_quote_unique in H. destruct H as [-> H].
  cbn [append] in H. injection H as H.
  destruct (Hv w r1 r2 Hg Hg' H1 H2 H) as [He ->]. auto.
Qed.

Lemma Forall2_In_l {A B : Type} (R : A -> B -> Prop) l l' a :
  Forall2 R l l' -> In a l -> exists b, In b l' /\ R a b.
Proof.
  induction 1 as [|x y l l' Hxy _ IH]; intros Hin; [destruct Hin|].
  destruct Hin as [->|Hin].
  - exists y. split; [now left | assumption].
  - destruct (IH Hin) as [b [Hb Hr]]. exists b. split; [now right | assumption].
Qed.

Lemma wf_object_parts e :
  wf_value (JObject e) = true ->
  NoDup (keys e) /\ Forall (fun ke => wf_value (snd ke) = true) e.
Proof.
  cbn [wf_value]. rewrite andb_true_iff, forallb_forall. intros [Hc Hw]. split.
  - now apply canonical_NoDup.
  - now apply Forall_forall.
Qed.

Lemma Forall_sort_entries {A : Type} (P : string * A -> Prop) l :
  Forall P l -> Forall P (sort_entries l).
Proof.
  rewrite !Forall_forall. intros H x Hx. apply H. now apply In_sort_entries.
Qed.

(** A serialized value, followed by a separator or by nothing, is read
    back in one way only. *)
Lemma stableStringify_reads_back v : reads_back v.
Proof.
  induction v as [|b|n|s|items IH|entries IH] using JsonValue_ind;
    intros w r1 r2 Hv Hw H1 H2 H;
    (assert (Hk : kind w = kind _)
      by (rewrite <- (head_kind_value w r2), <- H; apply head_kind_value));
    destruct w as [|b'|n'|s'|items'|entries']; try discriminate Hk; clear Hk.
  - cbn in H. injection H as ->. now split.
  - destruct b, b'; cbn in H; try discriminate H; injection H as ->; now split.
  - cbn [stableStringify] in H. apply number_unique in H; [|assumption..].
    destruct H as [-> ->]. cbn. now rewrite Z.eqb_refl.
  - cbn [stableStringify] in H. apply JSON_quote_unique in H.
    destruct H as [-> ->]. cbn. now rewrite String.eqb_refl.
  - rewrite !stringify_array_app in H. injection H as H.
    cbn [wf_value] in Hv, Hw. rewrite forallb_forall in Hv, Hw.
    apply (joined_unique stableStringify (fun x => wf_value x = true)
             (fun x y => json_eqb x y = true) "]") in H.
    + destruct H as [Hf ->]. split; [|reflexivity].
      cbn [json_eqb]. now apply all2_Forall2.
    + reflexivity.
    + discriminate.
    + intros a r. rewrite head_kind_value. now destruct a.
    + exact IH.
    + now apply Forall_forall.
    + now apply Forall_forall.
  - rewrite !stringify_object_app in H. injection H as H.
    destruct (wf_object_parts _ Hv) as [Hnd Hgood].
    destruct (wf_object_parts _ Hw) as [Hnd' Hgood'].
    apply (joined_unique entry_text (fun x => wf_value (snd x) = true)
             (fun x y => fst x = fst y /\ json_eqb (snd x) (snd y) = true) "}") in H.
    + destruct H as [Hf ->]. split; [|reflexivity].
      cbn [json_eqb]. apply andb_true_iff. split.
      * apply Nat.eqb_eq. rewrite <- (sort_entries_length entries),
          <- (sort_entries_length entries'). now apply Forall2_length in Hf.
      * apply forallb_forall. intros ke Hin.
        apply (proj2 (In_sort_entries _ _)) in Hin.
        destruct (Forall2_In_l _ _ _ _ Hf Hin) as [[k' y] [Hin' [Hkk He]]].
        cbn [fst snd] in Hkk, He. apply (proj1 (In_sort_entries _ _)) in Hin'.
        rewrite Hkk, (obj_get_of_In k' y entries' Hnd' Hin'). exact He.
    + reflexivity.
    + discriminate.
    + intros a r. unfold entry_text. now rewrite !append_assoc.
    + apply Forall_sort_entries. revert IH. apply Forall_impl.
      intros ke. apply entry_reads_back.
    + now apply Forall_sort_entries.
    + now apply Forall_sort_entries.
Qed.

(** Values with the same stable serialization are equal, deep and up to
    the order of object keys. *)
Lemma stableStringify_inj v w :
  wf_value v = true -> wf_value w = true ->
  stableStringify v = stableStringify w -> json_eqb v w = true.
Proof.
  intros Hv Hw H.
  apply (stableStringify_reads_back v w "" ""); try assumption; try reflexivity.
  now rewrite !append_nil_r.
Qed.

End Readback.

(** *** The serialization does not depend on the order of the keys *)

Section KeyOrderIndependence.
Context {host : Host}.

(** The collation orders the keys [ks]: it holds no two distinct keys of
    [ks] equal, and is antisymmetric and transitive on them.  (A
    locale-sensitive collation may hold distinct strings equal; the sort
    is stable and then keeps them in insertion order.) *)
Definition collation_orders (ks : list string) : Prop :=
  (forall a b, In a ks -> In b ks -> localeCompare a b = Eq -> a = b)
  /\ (forall a b, In a ks -> In b ks ->
        localeCompare b a = CompOpp (localeCompare a b))
  /\ (forall a b c, In a ks -> In b ks -> In c ks ->
        localeCompare a b = Gt -> localeCompare b c = Gt ->
        localeCompare a c = Gt).

(** The collation orders all strings, as the comparison of code units
    does. *)
Definition collation_total : Prop :=
  (forall a b, localeCompare a b = Eq -> a = b)
  /\ (forall a b, localeCompare b a = CompOpp (localeCompare a b))
  /\ (forall a b c, localeCompare a b = Gt -> localeCompare b c = Gt ->
        localeCompare a c = Gt).

Lemma collation_total_orders ks : collation_total -> collation_orders ks.
Proof.
  intros (Heq & Hopp & Htr). split; [|split].
  - intros a b _ _. apply Heq.
  - intros a b _ _. apply Hopp.
  - intros a b c _ _ _. apply Htr.
Qed.

Lemma collation_orders_incl ks ks' :
  incl ks' ks -> collation_orders ks -> collation_orders ks'.
Proof.
  intros Hi (Heq & Hopp & Htr). split; [|split].
  - intros a b Ha Hb. apply Heq; now apply Hi.
  - intros a b Ha Hb. apply Hopp; now apply Hi.
  - intros a b c Ha Hb Hc. apply Htr; now apply Hi.
Qed.

Definition sorts_after (a b : string) : bool :=
  match localeCompare a b with
  | Gt => true
  | _ => false
  end.

Lemma insert_entry_cons {A : Type} (x z : string * A) l :
  insert_entry x (z :: l)
  = if sorts_after (fst x) (fst z) then z :: insert_entry x l else x :: z :: l.
Proof.
  cbn [insert_entry]. unfold sorts_after.
  now destruct (localeCompare (fst x) (fst z)).
Qed.

Variable ks : list string.
Hypothesis collation : collation_orders ks.

Lemma sorts_after_total a b :
  In a ks -> In b ks -> a <> b -> sorts_after a b = negb (sorts_after b a).
Proof.
  destruct collation as (Heq & Hopp & _). intros Ha Hb Hne. unfold sorts_after.
  rewrite (Hopp b a Hb Ha). destruct (localeCompare b a) eqn:E; try reflexivity.
  apply Heq in E; [congruence | assumption..].
Qed.

Lemma sorts_after_trans a b c :
  In a ks -> In b ks -> In c ks ->
  sorts_after a b = true -> sorts_after b c = true -> sorts_after a c = true.
Proof.
  destruct collation as (_ & _ & Htr). intros Ha Hb Hc. unfold sorts_after.
  destruct (localeCompare a b) eqn:E1; try discriminate.
  destruct (localeCompare b c) eqn:E2; try discriminate.
  now rewrite (Htr a b c Ha Hb Hc E1 E2).
Qed.

Lemma sorts_after_between x y z :
  In x ks -> In y ks -> In z ks ->
  x <> y -> sorts_after y z = true -> sorts_after x z = false ->
  sorts_after y x = true.
Proof.
  intros Hx Hy Hz Hne Hyz Hxz. destruct (string_dec x z) as [->|Hxz'].
  - congruence.
  - apply (sorts_after_trans y z x Hy Hz Hx Hyz).
    rewrite (sorts_after_total z x Hz Hx) by congruence. now rewrite Hxz.
Qed.

(** Two entries with distinct keys are inserted in either order. *)
Lemma insert_entry_comm {A : Type} (x y : string * A) l :
  In (fst x) ks -> In (fst y) ks -> incl (keys l) ks ->
  fst x <> fst y ->
  insert_entry x (insert_entry y l) = insert_entry y (insert_entry x l).
Proof.
  intros Hx Hy Hl Hne. induction l as [|z l IH].
  - change (insert_entry y []) with [y]. change (insert_entry x []) with [x].
    rewrite (insert_entry_cons x y), (insert_entry_cons y x).
    rewrite (sorts_after_total (fst x) (fst y) Hx Hy Hne).
    now destruct (sorts_after (fst y) (fst x)).
  - assert (Hz : In (fst z) ks) by (apply Hl; now left).
    assert (Hl' : incl (keys l) ks) by (intros k Hk; apply Hl; now right).
    specialize (IH Hl').
    rewrite (insert_entry_cons y z), (insert_entry_cons x z).
    destruct (sorts_after (fst y) (fst z)) eqn:Ey,
             (sorts_after (fst x) (fst z)) eqn:Ex.
    + rewrite !insert_entry_cons, Ex, Ey. now rewrite IH.
    + rewrite !insert_entry_cons, Ex.
      rewrite (sorts_after_between (fst x) (fst y) (fst z) Hx Hy Hz Hne Ey Ex).
      now rewrite Ey.
    + rewrite !insert_entry_cons, Ey.
      rewrite (sorts_after_between (fst y) (fst x) (fst z) Hy Hx Hz)
        by congruence.
      now rewrite Ex.
    + rewrite !insert_entry_cons, Ex, Ey.
      rewrite (sorts_after_total (fst x) (fst y) Hx Hy Hne).
      now destruct (sorts_after (fst y) (fst x)).
Qed.

Lemma keys_sort_entries_incl {A : Type} (l : list (string * A)) :
  incl (keys l) ks -> incl (keys (sort_entries l)) ks.
Proof.
  intros Hl k Hk. unfold keys in Hk. apply in_map_iff in Hk.
  destruct Hk as [e [<- He]]. apply (proj1 (In_sort_entries e l)) in He.
  apply Hl. unfold keys. now apply in_map.
Qed.

(** Entries with distinct keys sort to the same list, whatever their
    order. *)
Lemma sort_entries_permutation {A : Type} (l l' : list (string * A)) :
  Permutation l l' -> incl (keys l) ks -> NoDup (keys l) ->
  sort_entries l = sort_entries l'.
Proof.
  induction 1 as [|x l l' Hp IH|x y l|l l' l'' Hp1 IH1 Hp2 IH2]; intros Hi Hnd.
  - reflexivity.
  - cbn [sort_entries fold_right]. fold (sort_entries l) (sort_entries l').
    inversion Hnd; subst. rewrite IH; [reflexivity | |assumption].
    intros k Hk. apply Hi. now right.
  - cbn [sort_entries fold_right]. fold (sort_entries l).
    apply insert_entry_comm.
    + apply Hi. now left.
    + apply Hi. right. now left.
    + apply keys_sort_entries_incl. intros k Hk. apply Hi. now right; right.
    + cbn in Hnd. inversion Hnd as [|? ? Hin _]; subst.
      intros E. apply Hin. now left.
  - rewrite IH1 by assumption. apply IH2.
    + intros k Hk. apply Hi. unfold keys in *.
      apply (Permutation_in k (Permutation_sym (Permutation_map fst Hp1)) Hk).
    + apply (Permutation_NoDup (l := keys l)); [|assumption].
      unfold keys. now apply Permutation_map.
Qed.

Definition serialized_entry (ke : string * JsonValue) : string * string :=
  (fst ke, stableStringify (snd ke)).

Lemma equal_items_serialize items : forall items',
  Forall
    (fun x => forall w, incl (object_keys x) ks ->
                        wf_value x = true -> wf_value w = true ->
                        json_eqb x w = true -> stableStringify x = stableStringify w)
    items ->
  incl (flat_map object_keys items) ks ->
  forallb wf_value items = true -> forallb wf_value items' = true ->
  all2 (fun x y => json_eqb x y) items items' = true ->
  map stableStringify items = map stableStringify items'.
Proof.
  induction items as [|x items IH]; intros [|y items'] Hall Hi Hw Hw' He;
    try discriminate; [reflexivity|].
  cbn [all2] in He. cbn [forallb] in Hw, Hw'.
  apply andb_true_iff in He, Hw, Hw'. inversion Hall as [|? ? Hx Hall']; subst.
  cbn [flat_map] in Hi. cbn [map]. f_equal.
  - apply Hx; try tauto. intros k Hk. apply Hi. apply in_or_app. now left.
  - apply IH; try tauto. intros k Hk. apply Hi. apply in_or_app. now right.
Qed.

(** Equal values have the same stable serialization. *)
Lemma json_eqb_stableStringify v : forall w,
  incl (object_keys v) ks ->
  wf_value v = true -> wf_value w = true ->
  json_eqb v w = true -> stableStringify v = stableStringify w.
Proof.
  induction v as [|b|n|s|items IH|entries IH] using JsonValue_ind;
    intros [|b'|n'|s'|items'|entries'] Hi Hv Hw He; try discriminate He.
  - reflexivity.
  - cbn in He. apply eqb_prop in He. now subst.
  - cbn in He. apply Z.eqb_eq in He. now subst.
  - cbn in He. apply String.eqb_eq in He. now subst.
  - cbn [json_eqb] in He. cbn [wf_value] in Hv, Hw. cbn [stableStringify].
    cbn [object_keys] in Hi.
    now rewrite (equal_items_serialize items items' IH Hi Hv Hw He).
  - cbn [json_eqb] in He. apply andb_true_iff in He. destruct He as [Hlen He].
    apply Nat.eqb_eq in Hlen. rewrite forallb_forall in He.
    destruct (wf_object_parts _ Hv) as [Hnd Hgood].
    destruct (wf_object_parts _ Hw) as [Hnd' Hgood'].
    cbn [stableStringify]. fold serialized_entry.
    cbn [object_keys] in Hi.
    assert (Hk : keys (map serialized_entry entries) = keys entries)
      by (unfold keys; rewrite map_map; reflexivity).
    rewrite (sort_entries_permutation (map serialized_entry entries)
               (map serialized_entry entries'));
      [reflexivity| | |now rewrite Hk].
    + apply NoDup_Permutation_bis.
      * apply (NoDup_map_inv fst). fold (keys (map serialized_entry entries)).
        now rewrite Hk.
      * rewrite !length_map. lia.
      * intros p Hp. apply in_map_iff in Hp. destruct Hp as [[k x] [<- Hin]].
        specialize (He (k, x) Hin). cbn [fst snd] in He.
        destruct (obj_get k entries') as [y|] eqn:Hg; [|discriminate].
        apply obj_get_In in Hg. apply in_map_iff. exists (k, y).
        split; [|assumption].
        unfold serialized_entry. cbn [fst snd]. f_equal. symmetry.
        rewrite Forall_forall in IH, Hgood, Hgood'.
        apply (IH (k, x) Hin y);
          [|exact (Hgood (k, x) Hin) | exact (Hgood' (k, y) Hg) | exact He].
        intros k' Hk'. apply Hi. apply in_flat_map. exists (k, x).
        split; [exact Hin | now right].
    + rewrite Hk. intros k Hin. unfold keys in Hin. apply in_map_iff in Hin.
      destruct Hin as [e [<- He']]. apply Hi. apply in_flat_map. exists e.
      split; [exact He' | now left].
Qed.

(** The stable serialization decides the equality of values. *)
Lemma stableStringify_decides_equality v w :
  incl (object_keys v) ks ->
  wf_value v = true -> wf_value w = true ->
  String.eqb (stableStringify v) (stableStringify w) = json_eqb v w.
Proof.
  intros Hi Hv Hw. destruct (json_eqb v w) eqn:E.
  - apply String.eqb_eq. now apply json_eqb_stableStringify.
  - destruct (String.eqb (stableStringify v) (stableStringify w)) eqn:E';
      [|reflexivity].
    apply String.eqb_eq in E'. apply stableStringify_inj in E'; congruence.
Qed.

End KeyOrderIndependence.

(** *** The field merge policy, with equality of values *)

Section EqualityDedupe.
Context {host : Host}.

(** Drop the entries equal to an earlier one, keeping the first. *)
Fixpoint distinct_values (kept vs : list JsonValue) : list JsonValue :=
  match vs with
  | [] => []
  | v :: vs' =>
      if existsb (json_eqb v) kept then distinct_values kept vs'
      else v :: distinct_values (kept ++ [v]) vs'
  end.

(** The field merge policy in the words of the specification. *)
Definition policy_value (vs : list JsonValue) : JsonValue :=
  emit (distinct_values [] (collected_entries vs)).

Variable ks : list string.
Hypothesis collation : collation_orders ks.

Lemma seen_by_equality v kept :
  incl (object_keys v) ks ->
  wf_value v = true -> Forall (fun x => wf_value x = true) kept ->
  existsb (String.eqb (stableStringify v)) (map stableStringify kept)
  = existsb (json_eqb v) kept.
Proof.
  intros Hi Hv. induction 1 as [|x kept Hx _ IH]; [reflexivity|].
  cbn [map existsb].
  now rewrite IH, (stableStringify_decides_equality ks collation).
Qed.

Lemma dedupe_by_equality vs : forall kept,
  incl (flat_map object_keys vs) ks ->
  Forall (fun x => wf_value x = true) kept ->
  Forall (fun x => wf_value x = true) vs ->
  dedupe (map stableStringify kept) vs = distinct_values kept vs.
Proof.
  induction vs as [|v vs IH]; intros kept Hi Hk Hvs; [reflexivity|].
  inversion Hvs as [|? ? Hv Hvs']; subst. cbn [dedupe distinct_values].
  cbn [flat_map] in Hi.
  assert (Hiv : incl (object_keys v) ks)
    by (intros k Hin; apply Hi; apply in_or_app; now left).
  assert (Hivs : incl (flat_map object_keys vs) ks)
    by (intros k Hin; apply Hi; apply in_or_app; now right).
  rewrite (seen_by_equality v kept Hiv Hv Hk).
  destruct (existsb (json_eqb v) kept); [now apply IH|].
  f_equal. rewrite <- (IH (kept ++ [v])); [|assumption|apply Forall_app; auto|assumption].
  now rewrite map_app.
Qed.

Lemma collected_entries_wf vs :
  Forall (fun v => wf_value v = true) vs ->
  Forall (fun v => wf_value v = true) (collected_entries vs).
Proof.
  intros Hw. apply Forall_forall. intros x Hx. unfold collected_entries in Hx.
  apply filter_In in Hx. destruct Hx as [Hx _]. apply in_flat_map in Hx.
  destruct Hx as [v [Hv Hx]]. rewrite Forall_forall in Hw. specialize (Hw v Hv).
  destruct v as [| | | |items|]; cbn [flatten_one] in Hx;
    try (destruct Hx as [<-|[]]; assumption).
  cbn [wf_value] in Hw. rewrite forallb_forall in Hw. now apply Hw.
Qed.

Lemma collected_entries_keys vs :
  incl (flat_map object_keys (collected_entries vs)) (flat_map object_keys vs).
Proof.
  intros k Hk. apply in_flat_map in Hk. destruct Hk as [x [Hx Hk]].
  unfold collected_entries in Hx. apply filter_In in Hx. destruct Hx as [Hx _].
  apply in_flat_map in Hx. destruct Hx as [v [Hv Hx]].
  apply in_flat_map. exists v. split; [exact Hv|].
  destruct v as [| | | |items|]; cbn [flatten_one] in Hx;
    try (destruct Hx as [<-|[]]; assumption).
  cbn [object_keys]. apply in_flat_map. now exists x.
Qed.

Lemma merged_value_policy vs :
  incl (flat_map object_keys vs) ks ->
  Forall (fun v => wf_value v = true) vs -> merged_value vs = policy_value vs.
Proof.
  intros Hi Hw. unfold merged_value, policy_value.
  rewrite <- (dedupe_by_equality _ []);
    [reflexivity | | constructor | now apply collected_entries_wf].
  intros k Hk. apply Hi. now apply collected_entries_keys.
Qed.

End EqualityDedupe.

Lemma code_unit_collation_total : @collation_total IsoHost.iso_host.
Proof.
  split; [|split]; cbn [localeCompare IsoHost.iso_host].
  - intros a b. apply String.compare_eq_iff.
  - intros a b. apply String.compare_antisym.
  - intros a b c Hab Hbc.
    rewrite String.compare_antisym in Hab, Hbc. rewrite String.compare_antisym.
    destruct (String.compare b a) eqn:Eba; try discriminate.
    destruct (String.compare c b) eqn:Ecb; try discriminate.
    apply OrderedTypeEx.String_as_OT.cmp_lt in Eba, Ecb.
    pose proof (OrderedTypeEx.String_as_OT.lt_trans _ _ _ Ecb Eba) as H.
    apply OrderedTypeEx.String_as_OT.cmp_lt in H.
    unfold OrderedTypeEx.String_as_OT.cmp in H. now rewrite H.
Qed.

(** C2, as amended.  With a collation that orders the keys of the
    objects held by the values of the field (it holds no two distinct
    keys among them equal), for a group of records (values that the
    runtime can hold, whose keys are outside the property names of
    [Object.prototype] and whose numbers are safe integers), and a field
    that is merged by the field policy (not an internal [_dlt] key, not
    [repositories], not a [repo_] field) whose list values hold no
    nested list: the field is absent from the merged
    record when no record of the group has it, and otherwise its merged
    value is obtained by collecting the field's values across the group,
    flattening list values one level, dropping null and blank-string
    entries, dropping the entries equal to an earlier one (deep equality,
    whatever the order of object keys), and emitting a single remaining
    entry as a scalar, the ordered list otherwise, and the empty list
    when nothing remains. *)
Theorem merged_field_follows_policy
  {host : Host} (rs : list JsonObject) (k : string) :
  collation_orders (flat_map object_keys (field_values k rs)) ->
  ordinary_key k = true ->
  Forall (fun r => wf_value (JObject r) = true) rs ->
  Forall (fun r => modelled_record (JObject r) = true) rs ->
  Forall (fun v => flat_value v = true) (field_values k rs) ->
  obj_get k (mergeGroupRecords rs)
  = match field_values k rs with
    | [] => None
    | vs => Some (policy_value vs)
    end.
Proof.
  intros Hc Hk Hw _ Hf. rewrite (merged_field_serialized rs k Hk Hw Hf).
  destruct (field_values k rs) as [|v vs] eqn:E; [reflexivity|].
  f_equal. apply (merged_value_policy _ Hc); [apply incl_refl|].
  rewrite <- E. now apply field_values_wf.
Qed.

Module FieldMergeExample.
Import IsoHost.

Definition first : JsonObject :=
  [("id", JString "a"); ("t", JString "T");
   ("tag", JObject [("x", JNumber 1); ("y", JNumber 2)])].
Definition second : JsonObject :=
  [("id", JString "a"); ("t", JString "T");
   ("tag", JArray [JString "y";
                   JObject [("y", JNumber 2); ("x", JNumber 1)]; JNull])].

Lemma merged_field_follows_policy_witness :
  collation_orders (flat_map object_keys (field_values "tag" [first; second]))
  /\ ordinary_key "tag" = true
  /\ Forall (fun r => modelled_record (JObject r) = true) [first; second]
  /\ obj_get "tag" (mergeGroupRecords [first; second])
     = Some (JArray [JObject [("x", JNumber 1); ("y", JNumber 2)]; JString "y"])
  /\ obj_get "tag" (mergeGroupRecords [first; first])
     = Some (JObject [("x", JNumber 1); ("y", JNumber 2)]).
Proof.
  split; [apply collation_total_orders, code_unit_collation_total|].
  split; [reflexivity|]. split; [repeat constructor|]. split.
  - apply (merged_field_follows_policy [first; second] "tag");
      [apply collation_total_orders, code_unit_collation_total | reflexivity
      | repeat constructor | repeat constructor | repeat constructor].
  - apply (merged_field_follows_policy [first; first] "tag");
      [apply collation_total_orders, code_unit_collation_total | reflexivity
      | repeat constructor | repeat constructor | repeat constructor].
Defined.

(** C2, the claim as stated fails.  The first record holds one list
    inside its list value; collected across the group, the entries are
    the list [[1,2]] and the number [3].  The pairwise merge emits the
    single entry [[1,2]] of the first record as a scalar and flattens it
    again when the second record arrives. *)
Lemma nested_list_is_flattened_twice :
  let nested := [("id", JString "a"); ("t", JString "T");
                 ("tag", JArray [JArray [JNumber 1; JNumber 2]])] in
  let plain := [("id", JString "a"); ("t", JString "T"); ("tag", JNumber 3)] in
  policy_value (field_values "tag" [nested; plain])
  = JArray [JArray [JNumber 1; JNumber 2]; JNumber 3]
  /\ obj_get "tag" (mergeGroupRecords [nested; plain])
     = Some (JArray [JNumber 1; JNumber 2; JNumber 3]).
Proof. repeat split. Qed.

End FieldMergeExample.

Module CollationExample.

(** A collation that holds the keys [a] and [b] equal, as a
    locale-sensitive one may hold two distinct strings: the stable sort
    leaves them in insertion order, and two equal objects are serialized
    differently. *)
#[local] Instance coarse_host : Host := {
  Date_parse := fun _ => None;
  localeCompare := fun _ _ => Eq;
  JSON_parse := fun _ => None
}.

Lemma key_order_shows_under_coarse_collation :
  let v := JObject [("a", JNumber 1); ("b", JNumber 2)] in
  let w := JObject [("b", JNumber 2); ("a", JNumber 1)] in
  json_eqb v w = true /\ stableStringify v <> stableStringify w.
Proof. split; [reflexivity | discriminate]. Qed.

End CollationExample.

(** * Further properties of the engine *)

(** ** Serialization, copies and comparison *)

(** X1.  Two values that the runtime can hold, whose numbers are safe
    integers, and that have the same stable serialization are equal,
    deep and up to the order of the keys of their objects: on such
    values [stableStringify] never gives one text to two different
    values.  This holds whatever the collation. *)
Theorem equal_serializations_equal_values
  {host : Host} (v w : JsonValue) :
  wf_value v = true -> wf_value w = true ->
  safe_numbers v = true -> safe_numbers w = true ->
  stableStringify v = stableStringify w ->
  json_eqb v w = true /\ json_eqb w v = true.
Proof.
  intros Hv Hw _ _ H. split.
  - now apply stableStringify_inj.
  - apply stableStringify_inj; [assumption | assumption | now symmetry].
Qed.

(** X2.  With a collation that orders the keys of the objects of a
    value (it holds no two distinct keys among them equal), a second
    value that is equal to the first up to the order of the keys of
    their objects has the same stable serialization. *)
Theorem equal_values_equal_serializations
  {host : Host} (v w : JsonValue) :
  collation_orders (object_keys v) ->
  wf_value v = true -> wf_value w = true ->
  json_eqb v w = true -> stableStringify v = stableStringify w.
Proof.
  intros Hc Hv Hw He.
  apply (json_eqb_stableStringify (object_keys v) Hc); auto using incl_refl.
Qed.

(** X3.  On the values whose keys are outside the property names of
    [Object.prototype], [cloneJsonValue] returns a value equal to its
    argument: the same entries, with the keys of every object in the
    same order. *)
Theorem clone_is_equal_to_original
  {host : Host} (v : JsonValue) (o : JsonObject) :
  wf_value v = true -> wf_value (JObject o) = true ->
  own_names v = true -> own_names (JObject o) = true ->
  cloneJsonValue v = v /\ cloneJsonObject o = o.
Proof.
  intros Hv Ho _ _. split; [now apply clone_id | now apply cloneJsonObject_id].
Qed.

(** X4.  The freshness comparison answers -1, 0 or 1, answers 0 on a
    value and itself, and answers the opposite when its arguments are
    exchanged. *)
Theorem comparison_is_antisymmetric
  {host : Host} (a b : JsonValue) :
  compareMetadata a b = - compareMetadata b a
  /\ compareMetadata a a = 0
  /\ (compareMetadata a b = -1 \/ compareMetadata a b = 0 \/ compareMetadata a b = 1).
Proof.
  split; [apply compareMetadata_antisym|]. split; [apply compareMetadata_refl|].
  unfold compareMetadata.
  assert (Hs : forall x y, compare_strings x y = -1 \/ compare_strings x y = 0
                           \/ compare_strings x y = 1).
  { intros x y. destruct (compare_strings_cases x y) as [[-> _]|[[-> _]|[-> _]]]; auto. }
  destruct (toTimestamp a) as [ta|], (toTimestamp b) as [tb|]; try apply Hs.
  destruct (negb (ta =? tb)); [|apply Hs].
  destruct (ta >? tb); auto.
Qed.

(** X5.  Two freshness values count as equally fresh exactly when their
    comparable strings are the same and they do not have two different
    timestamps. *)
Theorem equal_freshness_characterized
  {host : Host} (a b : JsonValue) :
  compareMetadata a b = 0 <->
  toComparableString a = toComparableString b
  /\ (forall ta tb, toTimestamp a = Some ta -> toTimestamp b = Some tb -> ta = tb).
Proof.
  assert (Hs : forall x y, compare_strings x y = 0 <-> x = y).
  { intros x y. unfold compare_strings. destruct (String.eqb_spec x y) as [->|Hne].
    - tauto.
    - destruct (str_gtb x y); split; intros H; try discriminate; contradiction. }
  unfold compareMetadata.
  destruct (toTimestamp a) as [ta|] eqn:Ea, (toTimestamp b) as [tb|] eqn:Eb.
  - destruct (Z.eqb_spec ta tb) as [->|Hne]; cbn [negb].
    + rewrite Hs. split; [intros H; split; [assumption|]|tauto].
      intros ? ? [= <-] [= <-]. reflexivity.
    + split.
      * destruct (ta >? tb); discriminate.
      * intros [_ H]. exfalso. apply Hne. now apply H.
  - rewrite Hs. split; [intros H; split; [assumption|discriminate]|tauto].
  - rewrite Hs. split; [intros H; split; [assumption|discriminate]|tauto].
  - rewrite Hs. split; [intros H; split; [assumption|discriminate]|tauto].
Qed.

Module SerializationExample.
Import IsoHost.

Definition left_object : JsonValue :=
  JObject [("a", JNumber 1); ("b", JArray [JString "x"; JNull])].
Definition right_object : JsonValue :=
  JObject [("b", JArray [JString "x"; JNull]); ("a", JNumber 1)].

Lemma equal_serializations_equal_values_witness :
  safe_numbers left_object = true
  /\ safe_numbers right_object = true
  /\ stableStringify left_object = stableStringify right_object
  /\ json_eqb left_object right_object = true.
Proof.
  split; [reflexivity|]. split; [reflexivity|]. split; [reflexivity|].
  apply (equal_serializations_equal_values left_object right_object);
    reflexivity.
Defined.

Lemma equal_values_equal_serializations_witness :
  json_eqb right_object left_object = true
  /\ stableStringify right_object = stableStringify left_object.
Proof.
  split; [reflexivity|].
  apply (equal_values_equal_serializations right_object left_object);
    [apply collation_total_orders, code_unit_collation_total | reflexivity..].
Defined.

Lemma clone_is_equal_to_original_witness :
  own_names left_object = true
  /\ cloneJsonValue left_object = left_object
  /\ cloneJsonObject [("10", JNull); ("b", JBool true)]
     = [("10", JNull); ("b", JBool true)].
Proof.
  split; [reflexivity|].
  apply (clone_is_equal_to_original left_object [("10", JNull); ("b", JBool true)]);
    reflexivity.
Defined.

End SerializationExample.

(** ** The order and the content of the collapsed output *)

Section CollapseOutput.
Context {host : Host}.
Variables idField metadataField : string.

(** The distinct keys of a list, in the order of their first
    occurrence. *)
Fixpoint first_occurrences (ks : list string) : list string :=
  match ks with
  | [] => []
  | k :: ks' => k :: filter (fun x => negb (String.eqb x k)) (first_occurrences ks')
  end.

(** The identity keys of the usable records, in input order. *)
Definition usable_keys (input : list JsonValue) : list string :=
  flat_map
    (fun record =>
       match usable idField metadataField record with
       | Some (k, _, _) => [k]
       | None => []
       end)
    input.

(** The group that the loop leaves for the identity [K]. *)
Definition elected_group (K : string) (input : list JsonValue) : option Group :=
  fold_left elect_step (candidates idField metadataField K input) None.

Definition absent_from (ks : list string) (x : string) : bool :=
  negb (existsb (String.eqb x) ks).

Lemma absent_from_In ks x : absent_from ks x = true <-> ~ In x ks.
Proof.
  unfold absent_from. rewrite negb_true_iff. split.
  - intros He Hin. assert (existsb (String.eqb x) ks = true); [|congruence].
    apply existsb_exists. exists x. split; [assumption | apply String.eqb_refl].
  - intros Hn. destruct (existsb (String.eqb x) ks) eqn:He; [|reflexivity].
    apply existsb_exists in He. destruct He as [y [Hy He]].
    apply String.eqb_eq in He. subst. contradiction.
Qed.

Lemma filter_ext_In {X : Type} (p q : X -> bool) l :
  (forall x, In x l -> p x = q x) -> filter p l = filter q l.
Proof.
  induction l as [|x l IH]; intros H; [reflexivity|]. cbn [filter].
  rewrite (H x) by now left. rewrite IH by (intros; apply H; now right).
  reflexivity.
Qed.

Lemma filter_filter {X : Type} (p q : X -> bool) l :
  filter p (filter q l) = filter (fun x => q x && p x) l.
Proof.
  induction l as [|x l IH]; [reflexivity|]. cbn [filter].
  destruct (q x); cbn [filter andb]; [destruct (p x)|]; now rewrite IH.
Qed.

Lemma keys_place k m fields st :
  keys (byId (place k m fields st))
  = if absent_from (keys (byId st)) k then keys (byId st) ++ [k]
    else keys (byId st).
Proof.
  unfold place. destruct (map_get k (byId st)) as [g|] eqn:Hg.
  - assert (Hin : absent_from (keys (byId st)) k = false).
    { destruct (absent_from (keys (byId st)) k) eqn:E; [|reflexivity].
      apply absent_from_In in E. apply map_get_None in E. congruence. }
    rewrite Hin.
    destruct (compareMetadata m (metadata g) >? 0);
      [|destruct (compareMetadata m (metadata g) =? 0)];
      cbn [byId regroup]; try reflexivity;
      apply keys_map_set_old; congruence.
  - assert (Hin : absent_from (keys (byId st)) k = true)
      by (apply absent_from_In; now apply map_get_None).
    rewrite Hin. cbn [byId regroup]. rewrite map_set_new by assumption.
    unfold keys. now rewrite map_app.
Qed.

Lemma keys_loop input : forall st,
  keys (byId (fold_left (collapse_step idField metadataField) input st))
  = keys (byId st)
    ++ filter (absent_from (keys (byId st))) (first_occurrences (usable_keys input)).
Proof.
  induction input as [|r input IH]; intros st.
  - cbn. now rewrite app_nil_r.
  - cbn [fold_left]. rewrite IH. unfold usable_keys at 2. cbn [flat_map].
    fold (usable_keys input).
    destruct (usable idField metadataField r) as [[[k m] f]|] eqn:Hu.
    + rewrite (collapse_step_usable _ _ _ _ _ _ _ Hu), keys_place.
      cbn [app first_occurrences filter].
      destruct (absent_from (keys (byId st)) k) eqn:Hk.
      * rewrite <- app_assoc. cbn [app]. do 2 f_equal.
        rewrite filter_filter. apply filter_ext_In. intros x _.
        unfold absent_from. rewrite existsb_app. cbn [existsb].
        rewrite orb_false_r, negb_orb. apply andb_comm.
      * f_equal. rewrite filter_filter. apply filter_ext_In. intros x _.
        destruct (String.eqb_spec x k) as [->|Hne]; cbn [negb andb];
          [now rewrite Hk | reflexivity].
    + assert (Hd : is_usable idField metadataField r = false)
        by (unfold is_usable; now rewrite Hu).
      destruct (step_defective idField metadataField st r Hd) as [-> _].
      reflexivity.
Qed.

Lemma NoDup_first_occurrences ks : NoDup (first_occurrences ks).
Proof.
  induction ks as [|k ks IH]; cbn [first_occurrences]; constructor.
  - intros Hin. apply filter_In in Hin. destruct Hin as [_ Hk].
    now rewrite String.eqb_refl in Hk.
  - now apply NoDup_filter.
Qed.

Lemma In_first_occurrences ks x : In x (first_occurrences ks) <-> In x ks.
Proof.
  induction ks as [|k ks IH]; [reflexivity|]. cbn [first_occurrences In].
  rewrite filter_In, IH. destruct (String.eqb_spec x k) as [->|Hne]; cbn [negb].
  - intuition congruence.
  - intuition congruence.
Qed.

(** A map with distinct keys is the list of its bindings, key by key. *)
Lemma map_by_keys {V : Type} (m : list (string * V)) :
  NoDup (keys m) ->
  m = flat_map (fun K => match map_get K m with
                         | Some v => [(K, v)]
                         | None => []
                         end) (keys m).
Proof.
  induction m as [|[k v] m IH]; intros Hnd; [reflexivity|].
  cbn [keys map fst flat_map map_get]. rewrite String.eqb_refl. cbn [app].
  inversion Hnd as [|? ? Hk Hnd']; subst. f_equal.
  rewrite (IH Hnd') at 1. apply flat_map_ext_In. intros K HK.
  destruct (String.eqb_spec K k) as [->|Hne]; [contradiction | reflexivity].
Qed.

Lemma keys_collapse_loop input :
  keys (byId (collapse_loop idField metadataField input))
  = first_occurrences (usable_keys input).
Proof.
  unfold collapse_loop. rewrite keys_loop. cbn [byId keys map app].
  rewrite (filter_ext_In _ (fun _ => true)) by reflexivity.
  induction (first_occurrences (usable_keys input)) as [|x l IH];
    [reflexivity | cbn [filter]; now rewrite IH].
Qed.

Lemma groups_collapse_loop input :
  byId (collapse_loop idField metadataField input)
  = flat_map (fun K => match elected_group K input with
                       | Some g => [(K, g)]
                       | None => []
                       end) (first_occurrences (usable_keys input)).
Proof.
  rewrite (map_by_keys (byId (collapse_loop idField metadataField input))) at 1.
  - rewrite keys_collapse_loop. apply flat_map_ext_In. intros K _.
    unfold collapse_loop. now rewrite loop_lookup.
  - rewrite keys_collapse_loop. apply NoDup_first_occurrences.
Qed.





Lemma elect_step_nonempty g mf G :
  (forall G0, g = Some G0 -> records G0 <> []) ->
  elect_step g mf = Some G -> records G <> [].
Proof.
  unfold elect_step. intros Hg. destruct g as [G0|].
  - specialize (Hg G0 eq_refl).
    destruct (compareMetadata (fst mf) (metadata G0) >? 0);
      [intros [= <-]; discriminate|].
    destruct (compareMetadata (fst mf) (metadata G0) =? 0); intros [= <-];
      cbn [records]; [|assumption].
    destruct (records G0); discriminate.
  - intros [= <-]. discriminate.
Qed.

Lemma elect_loop_nonempty cs : forall g G,
  (forall G0, g = Some G0 -> records G0 <> []) ->
  fold_left elect_step cs g = Some G -> records G <> [].
Proof.
  induction cs as [|mf cs IH]; intros g G Hg H.
  - now apply Hg.
  - cbn [fold_left] in H. apply (IH (elect_step g mf) G); [|assumption].
    intros G0 HG0. now apply (elect_step_nonempty g mf).
Qed.


End CollapseOutput.

Section CollapseComposition.
Context {host : Host}.
Variables idField metadataField : string.






Lemma older_of_loop input :
  n_olderRecordsSkipped (collapse_loop idField metadataField input)
  = Z.of_nat (List.length input)
    - total_size (byId (collapse_loop idField metadataField input))
    - n_missingId (collapse_loop idField metadataField input)
    - n_missingMetadata (collapse_loop idField metadataField input).
Proof.
  pose proof (counted_loop idField metadataField input
                {| byId := []; n_missingId := 0; n_missingMetadata := 0;
                   n_olderRecordsSkipped := 0 |}) as H.
  unfold counted in H. cbn in H. unfold collapse_loop. lia.
Qed.

Lemma groups_nonempty input k g :
  In (k, g) (byId (collapse_loop idField metadataField input)) -> records g <> [].
Proof.
  rewrite groups_collapse_loop. intros Hin. apply in_flat_map in Hin.
  destruct Hin as [K [_ Hin]].
  destruct (elected_group idField metadataField K input) as [G|] eqn:HG;
    [|destruct Hin].
  destruct Hin as [[= <- <-]|[]]. unfold elected_group in HG.
  eapply elect_loop_nonempty; [|exact HG]. discriminate.
Qed.

Lemma total_size_bounds (groups : list (string * Group)) :
  (forall k g, In (k, g) groups -> records g <> []) ->
  Z.of_nat (List.length groups) <= total_size groups.
Proof.
  induction groups as [|[k g] groups IH]; intros H; [cbn; lia|].
  cbn [total_size fold_right List.length snd].
  fold (total_size groups).
  assert (Hg : records g <> []) by (apply (H k); now left).
  assert (IH' : Z.of_nat (List.length groups) <= total_size groups)
    by (apply IH; intros k' g' Hin; apply (H k'); now right).
  destruct (records g); [contradiction|]. cbn [List.length]. lia.
Qed.

Lemma older_step_nonneg st record :
  n_olderRecordsSkipped st
  <= n_olderRecordsSkipped (collapse_step idField metadataField st record).
Proof.
  destruct (usable idField metadataField record) as [[[k m] f]|] eqn:Hu.
  - rewrite (collapse_step_usable _ _ _ _ _ _ _ Hu). unfold place.
    destruct (map_get k (byId st)) as [g|]; cbn [regroup n_olderRecordsSkipped];
      [|lia].
    destruct (compareMetadata m (metadata g) >? 0);
      [|destruct (compareMetadata m (metadata g) =? 0)];
      cbn [regroup n_olderRecordsSkipped]; lia.
  - assert (Hd : is_usable idField metadataField record = false)
      by (unfold is_usable; now rewrite Hu).
    destruct (step_defective idField metadataField st record Hd) as [_ ->]. lia.
Qed.

Lemma older_loop_nonneg input :
  0 <= n_olderRecordsSkipped (collapse_loop idField metadataField input).
Proof.
  unfold collapse_loop.
  apply (fold_left_invariant (fun st => 0 <= n_olderRecordsSkipped st)).
  - cbn. lia.
  - intros st r _ H. pose proof (older_step_nonneg st r). lia.
Qed.

End CollapseComposition.

(** ** Freshness values that are all timestamps *)

Section TimestampFreshness.
Context {host : Host}.

(** A candidate whose freshness value has the timestamp [T] and the
    string form [S]. *)
Definition stamped (T : Z) (S : string) (mf : JsonValue * JsonObject) : bool :=
  match toTimestamp (fst mf) with
  | Some t => (t =? T) && String.eqb (toComparableString (fst mf)) S
  | None => false
  end.

Lemma compare_strings_zero a b : (compare_strings a b =? 0) = String.eqb a b.
Proof.
  unfold compare_strings.
  destruct (String.eqb a b); [reflexivity|]. now destruct (str_gtb a b).
Qed.

Lemma compare_strings_not_greater a b :
  compare_strings a b <= 0 -> str_gtb a b = false.
Proof.
  unfold compare_strings. destruct (String.eqb_spec a b) as [->|_].
  - intros _. apply str_gtb_irrefl.
  - destruct (str_gtb a b); [lia | reflexivity].
Qed.

Lemma ties_with_stamped M T mf :
  toTimestamp M = Some T ->
  has_timestamp (fst mf) = true ->
  ties_with M mf = stamped T (toComparableString M) mf.
Proof.
  intros HM Hmf. unfold ties_with, stamped, has_timestamp in *.
  destruct (toTimestamp (fst mf)) as [t|] eqn:Ht; [|discriminate].
  rewrite (compareMetadata_timestamps _ _ _ _ Ht HM).
  destruct (t =? T); [apply compare_strings_zero|].
  now destruct (t >? T).
Qed.

End TimestampFreshness.

(** C3, as amended.  For every input and every identity of a usable
    record, when all the usable records of the identity have a freshness
    value that parses as a timestamp, the comparison is decided
    numerically: a group is kept for the identity, and it
    has the largest timestamp [T] of these records, so that a
    record with a smaller timestamp than another record of the identity
    is never in it.  Among the records with the timestamp [T] the string
    forms of the freshness values decide: the group has the greatest
    string form [S] among them, and it holds exactly the records whose
    timestamp is [T] and whose string form is [S], in input order; two
    records with equal timestamps and different string forms are never
    merged. *)
Theorem numeric_freshness_decides
  {host : Host} (input : list JsonValue) (idField metadataField : string)
  (K : string) :
  inherited_name idField = false ->
  inherited_name metadataField = false ->
  Forall (fun r => safe_numbers r = true) input ->
  In K (usable_keys idField metadataField input) ->
  forallb has_timestamp (map fst (candidates idField metadataField K input)) = true ->
  let cs := candidates idField metadataField K input in
  exists G T,
    let S := toComparableString (metadata G) in
    map_get K (byId (collapse_loop idField metadataField input)) = Some G
    /\ toTimestamp (metadata G) = Some T
    /\ In (metadata G) (map fst cs)
    /\ (forall mf, In mf cs -> exists t, toTimestamp (fst mf) = Some t /\ t <= T)
    /\ (forall mf, In mf cs -> toTimestamp (fst mf) = Some T ->
          str_gtb (toComparableString (fst mf)) S = false)
    /\ records G = map snd (filter (stamped T S) cs)
    /\ (forall a b ta tb, In a cs -> In b cs ->
          toTimestamp (fst a) = Some ta -> toTimestamp (fst b) = Some tb ->
          ta < tb -> stamped T S a = false)
    /\ (forall a b, In a cs -> In b cs ->
          toTimestamp (fst a) = toTimestamp (fst b) ->
          toComparableString (fst a) <> toComparableString (fst b) ->
          stamped T S a = false \/ stamped T S b = false)
    /\ In (mergeGroupRecords (records G))
         (fst (collapseRecords input idField metadataField)).
Proof.
  intros _ _ _ HK Hts cs.
  assert (HG : exists G,
             map_get K (byId (collapse_loop idField metadataField input)) = Some G).
  { destruct (map_get K (byId (collapse_loop idField metadataField input)))
      as [G|] eqn:E; [now exists G|].
    apply map_get_None in E. rewrite keys_collapse_loop in E.
    exfalso. apply E. now apply In_first_occurrences. }
  destruct HG as [G HG]. exists G.
  set (S := toComparableString (metadata G)).
  assert (Hord : ordered_freshness (map fst cs) = true)
    by (apply ordered_freshness_uniform; now left).
  assert (Hel : elected cs (Some G)).
  { unfold collapse_loop in HG. rewrite loop_lookup in HG. cbn [byId map_get] in HG.
    rewrite <- HG.
    apply (election (map fst cs) cs [] None Hord); [auto | reflexivity]. }
  destruct Hel as (HM & Hmax & Hrec).
  assert (Hhas : forall mf, In mf cs -> has_timestamp (fst mf) = true).
  { intros mf Hin. apply (proj1 (forallb_forall _ _) Hts). now apply in_map. }
  assert (HT : exists T, toTimestamp (metadata G) = Some T).
  { pose proof (proj1 (forallb_forall _ _) Hts _ HM) as H.
    unfold has_timestamp in H.
    destruct (toTimestamp (metadata G)) as [T|]; [now exists T | discriminate]. }
  destruct HT as [T HT]. exists T. cbv zeta. fold S.
  split; [exact HG|].
  assert (Hle : forall mf, In mf cs ->
            exists t, toTimestamp (fst mf) = Some t /\ t <= T
                      /\ (t = T -> compare_strings (toComparableString (fst mf)) S <= 0)).
  { intros mf Hin. pose proof (Hhas mf Hin) as H. unfold has_timestamp in H.
    destruct (toTimestamp (fst mf)) as [t|] eqn:Ht; [|discriminate].
    exists t. split; [reflexivity|].
    pose proof (Hmax mf Hin) as Hc.
    rewrite (compareMetadata_timestamps _ _ _ _ Ht HT) in Hc.
    destruct (Z.eqb_spec t T) as [->|Hne].
    - split; [lia|]. intros _. exact Hc.
    - destruct (Z.gtb_spec t T); [lia|]. split; [lia|]. intros E. contradiction. }
  split; [exact HT|]. split; [exact HM|].
  split.
  { intros mf Hin. destruct (Hle mf Hin) as (t & Ht & Hlt & _). now exists t. }
  split.
  { intros mf Hin Ht. destruct (Hle mf Hin) as (t & Ht' & _ & Hs).
    rewrite Ht in Ht'. injection Ht' as <-.
    apply compare_strings_not_greater. now apply Hs. }
  split.
  { rewrite Hrec. f_equal. apply filter_ext_in.
    intros mf Hin. apply ties_with_stamped; [exact HT | now apply Hhas]. }
  split.
  { intros a b ta tb Ha Hb Hta Htb Hlt. unfold stamped. rewrite Hta.
    destruct (Hle b Hb) as (t & Ht & Hle' & _). rewrite Htb in Ht.
    injection Ht as <-.
    destruct (Z.eqb_spec ta T); [lia | reflexivity]. }
  split.
  { intros a b Ha Hb Heq Hne. unfold stamped.
    destruct (toTimestamp (fst a)) as [ta|]; [|now left].
    rewrite <- Heq.
    destruct (String.eqb_spec (toComparableString (fst a)) S) as [Ea|_];
      [|left; apply andb_false_r].
    destruct (String.eqb_spec (toComparableString (fst b)) S) as [Eb|_];
      [|right; apply andb_false_r].
    congruence. }
  unfold collapseRecords. cbn [fst]. apply map_get_In in HG.
  apply in_map_iff. exists G. split; [reflexivity|].
  apply in_map_iff. exists (K, G). now split.
Qed.

Module NumericFreshnessExample.
Import IsoHost.

Definition older : JsonObject :=
  [("id", JString "a"); ("t", JString "2023-01-01"); ("v", JNumber 1)].
Definition newer : JsonObject :=
  [("id", JString "a"); ("t", JString "2024-01-01"); ("v", JNumber 2)].
Definition other : JsonObject :=
  [("id", JString "b"); ("t", JNumber 5); ("v", JNumber 3)].
Definition again : JsonObject :=
  [("id", JString "a"); ("t", JString "2024-01-01"); ("w", JNumber 4)].
Definition input : list JsonValue :=
  [JObject older; JObject newer; JObject other; JObject again].
Definition kept : Group :=
  {| metadata := JString "2024-01-01"; records := [newer; again] |}.

Lemma numeric_freshness_decides_witness :
  inherited_name "id" = false
  /\ inherited_name "t" = false
  /\ Forall (fun r => safe_numbers r = true) input
  /\ In "a" (usable_keys "id" "t" input)
  /\ forallb has_timestamp (map fst (candidates "id" "t" "a" input)) = true
  /\ map_get "a" (byId (collapse_loop "id" "t" input)) = Some kept
  /\ exists G T,
       map_get "a" (byId (collapse_loop "id" "t" input)) = Some G
       /\ toTimestamp (metadata G) = Some T
       /\ records G
          = map snd
              (filter (stamped T (toComparableString (metadata G)))
                 (candidates "id" "t" "a" input)).
Proof.
  assert (Hs : Forall (fun r => safe_numbers r = true) input)
    by (repeat constructor).
  assert (Ht : forallb has_timestamp (map fst (candidates "id" "t" "a" input))
               = true) by reflexivity.
  assert (Hg : map_get "a" (byId (collapse_loop "id" "t" input)) = Some kept)
    by reflexivity.
  assert (Hk : In "a" (usable_keys "id" "t" input)) by (now left).
  split; [reflexivity|]. split; [reflexivity|]. split; [exact Hs|].
  split; [exact Hk|]. split; [exact Ht|]. split; [exact Hg|].
  destruct (numeric_freshness_decides input "id" "t" "a"
              eq_refl eq_refl Hs Hk Ht) as (G & T & HG & HT & _ & _ & _ & Hr & _).
  exists G, T. split; [exact HG|]. split; [exact HT | exact Hr].
Defined.

(** C3, the claim as stated fails: the two freshness values below parse
    to the same timestamp, and the second record replaces the first
    instead of joining its group. *)
Lemma equal_timestamps_do_not_merge :
  let first := [("id", JString "a"); ("t", JString "1970-01-01"); ("v", JNumber 1)] in
  let second :=
    [("id", JString "a"); ("t", JString "1970-01-01T00:00:00Z"); ("v", JNumber 2)] in
  toTimestamp (JString "1970-01-01") = Some 0
  /\ toTimestamp (JString "1970-01-01T00:00:00Z") = Some 0
  /\ collapseRecords [JObject first; JObject second] "id" "t"
     = ([second], summary_of 2 1 1 1).
Proof. repeat split. Qed.

End NumericFreshnessExample.

(** ** The summary *)

Section Partition.
Context {host : Host}.
Variables idField metadataField : string.



End Partition.



(** X7.  No counter of the summary is negative, the number of output
    records is at most the number of records used, and the number of
    records used is at most the number of input records. *)
Theorem counters_are_bounded
  {host : Host} (input : list JsonValue) (idField metadataField : string) :
  let summary := snd (collapseRecords input idField metadataField) in
  0 <= missingId summary
  /\ 0 <= missingMetadata summary
  /\ 0 <= olderRecordsSkipped summary
  /\ 0 <= uniqueIds summary <= usedRecords summary
  /\ usedRecords summary <= totalRecords summary
  /\ 0 <= mergedRecords summary.
Proof.
  unfold collapseRecords. cbn [snd missingId missingMetadata olderRecordsSkipped
    uniqueIds usedRecords totalRecords mergedRecords].
  rewrite used_total_size, !length_map.
  pose proof (older_loop_nonneg idField metadataField input) as Ho.
  pose proof (older_of_loop idField metadataField input) as He.
  pose proof (total_size_bounds (byId (collapse_loop idField metadataField input))
                (groups_nonempty idField metadataField input)) as Hu.
  assert (Hi : 0 <= n_missingId (collapse_loop idField metadataField input)).
  { unfold collapse_loop. rewrite count_missingId. cbn. lia. }
  assert (Hm : 0 <= n_missingMetadata (collapse_loop idField metadataField input)).
  { unfold collapse_loop. rewrite count_missingMetadata. cbn. lia. }
  lia.
Qed.


Module CollapseCompositionExample.
Import IsoHost.



End CollapseCompositionExample.

(** ** The merged form of a field *)

Section MergedForm.
Context {host : Host}.

Lemma dedupe_distinct_output a : forall seen,
  distinct (map stableStringify (dedupe seen a)) = true.
Proof.
  induction a as [|v a IH]; intros seen; [reflexivity|]. cbn [dedupe].
  destruct (existsb (String.eqb (stableStringify v)) seen) eqn:E; [apply IH|].
  cbn [map]. apply distinct_cons. split; [|apply IH].
  intros Hin. apply in_map_iff in Hin. destruct Hin as [x [Hx Hin]].
  pose proof (dedupe_fresh a (seen ++ [stableStringify v]) x Hin) as Hf.
  apply existsb_snoc_false in Hf. destruct Hf as [_ Hf]. congruence.
Qed.

Lemma dedupe_covers a : forall seen x,
  In x a ->
  existsb (String.eqb (stableStringify x))
    (seen ++ map stableStringify (dedupe seen a)) = true.
Proof.
  induction a as [|v a IH]; intros seen x Hin; [destruct Hin|].
  cbn [dedupe].
  destruct (existsb (String.eqb (stableStringify v)) seen) eqn:E.
  - destruct Hin as [->|Hin]; [|now apply IH].
    rewrite existsb_app, E. reflexivity.
  - cbn [map]. change (seen ++ stableStringify v :: ?l)
      with (seen ++ [stableStringify v] ++ l). rewrite app_assoc.
    destruct Hin as [->|Hin]; [|now apply IH].
    rewrite !existsb_app. cbn [existsb]. rewrite String.eqb_refl.
    now rewrite orb_true_r.
Qed.

Lemma dedupe_all_seen a seen :
  (forall x, In x a -> existsb (String.eqb (stableStringify x)) seen = true) ->
  dedupe seen a = [].
Proof.
  induction a as [|v a IH]; intros H; [reflexivity|]. cbn [dedupe].
  rewrite (H v) by now left. apply IH. intros x Hx. apply H. now right.
Qed.

Lemma collected_entries_app vs ws :
  collected_entries (vs ++ ws) = collected_entries vs ++ collected_entries ws.
Proof. unfold collected_entries. now rewrite flat_map_app, filter_app. Qed.

(** A value that is already among the collected ones adds nothing. *)
Lemma merged_value_repeat vs v :
  In v vs -> merged_value (vs ++ [v]) = merged_value vs.
Proof.
  intros Hin. unfold merged_value. f_equal.
  rewrite collected_entries_app, dedupe_app.
  rewrite (dedupe_all_seen (collected_entries [v])
             ([] ++ map stableStringify (dedupe [] (collected_entries vs))));
    [apply app_nil_r|].
  intros x Hx. apply (dedupe_covers (collected_entries vs) []).
  unfold collected_entries in *. cbn [flat_map] in Hx. rewrite app_nil_r in Hx.
  apply filter_In in Hx. destruct Hx as [Hx Hm]. apply filter_In. split; [|assumption].
  apply in_flat_map. now exists v.
Qed.

Lemma merged_value_settled vs :
  Forall (fun v => flat_value v = true) vs -> settled_value (merged_value vs) = true.
Proof.
  intros Hf. unfold merged_value.
  pose proof (dedupe_distinct_output (collected_entries vs) []) as Hd.
  assert (Hm : forall x, In x (dedupe [] (collected_entries vs)) -> meaningful x = true).
  { intros x Hx. apply In_dedupe in Hx. unfold collected_entries in Hx.
    apply filter_In in Hx. tauto. }
  assert (Ha : forall x, In x (dedupe [] (collected_entries vs)) -> isArray x = false).
  { intros x Hx. apply In_dedupe in Hx. now apply (collected_flat vs). }
  destruct (dedupe [] (collected_entries vs)) as [|x [|y d]]; cbn [emit].
  - reflexivity.
  - specialize (Hm x (or_introl eq_refl)). specialize (Ha x (or_introl eq_refl)).
    destruct x; try discriminate Ha; exact Hm.
  - cbn [settled_value List.length Nat.eqb negb andb]. rewrite Hd, andb_true_r.
    apply forallb_forall. exact Hm.
Qed.

End MergedForm.

(** X9.  A field merged by the field policy comes out in merged form
    when no list value of the field holds a nested list: it is a single
    value that is neither null nor blank, or a list, not of one entry,
    whose entries are neither null nor blank and have pairwise different
    serializations; merging that value anew gives it back.  This is for
    records whose keys are outside the property names of
    [Object.prototype] and whose numbers are safe integers. *)
Theorem merged_fields_are_in_merged_form
  {host : Host} (rs : list JsonObject) (k : string) (v : JsonValue) :
  ordinary_key k = true ->
  Forall (fun r => wf_value (JObject r) = true) rs ->
  Forall (fun r => modelled_record (JObject r) = true) rs ->
  Forall (fun x => flat_value x = true) (field_values k rs) ->
  obj_get k (mergeGroupRecords rs) = Some v ->
  settled_value v = true /\ mergeField None v = v.
Proof.
  intros Hk Hw _ Hf Hg.
  assert (Hs : settled_value v = true).
  { rewrite (merged_field_serialized rs k Hk Hw Hf) in Hg.
    destruct (field_values k rs) as [|x vs] eqn:E; [discriminate|].
    injection Hg as <-. now apply merged_value_settled. }
  split; [exact Hs|]. apply settled_value_fixed; [|exact Hs].
  destruct (mergeGroupRecords_shape rs) as [Hwf _].
  now apply (wf_object_field (mergeGroupRecords rs) k).
Qed.

(** X10.  Merging into a field a value that was merged into it before
    changes nothing: after [a] and then [b], merging [b] again, or [a]
    again, gives the same value (for values that hold no nested list,
    whose keys are outside the property names of [Object.prototype] and
    whose numbers are safe integers). *)
Theorem merging_again_changes_nothing
  {host : Host} (a b : JsonValue) :
  wf_value a = true -> wf_value b = true ->
  modelled a = true -> modelled b = true ->
  flat_value a = true -> flat_value b = true ->
  let ab := mergeField (Some (mergeField None a)) b in
  mergeField (Some ab) b = ab /\ mergeField (Some ab) a = ab.
Proof.
  intros Ha Hb _ _ Fa Fb.
  assert (Hab : mergeField (Some (mergeField None a)) b = merged_value [a; b]).
  { rewrite (mergeField_first a Ha).
    apply (mergeField_next [a] b); repeat constructor; assumption. }
  cbv zeta. rewrite Hab. split.
  - rewrite (mergeField_next [a; b] b) by (repeat constructor; assumption).
    apply (merged_value_repeat [a; b] b). right. now left.
  - rewrite (mergeField_next [a; b] a) by (repeat constructor; assumption).
    apply (merged_value_repeat [a; b] a). now left.
Qed.

(** X11.  [extractRepositoryEntries] passes on, untouched and in order,
    exactly the entries whose key is not internal, is not
    [repositories] and does not begin with [repo_]. *)
Theorem ordinary_entries_pass_through
  {host : Host} (record : JsonObject) :
  snd (extractRepositoryEntries record)
  = filter (fun ke => negb (isInternalKey (fst ke))
                      && negb (String.eqb (fst ke) "repositories")
                      && negb (startsWith (fst ke) "repo_")) record
  /\ forall k v, In (k, v) (snd (extractRepositoryEntries record)) -> In (k, v) record.
Proof.
  rewrite extract_others. split; [reflexivity|].
  intros k v Hin. apply filter_In in Hin. tauto.
Qed.

Module MergedFormExample.
Import IsoHost.

Definition group : list JsonObject :=
  [[("id", JString "a"); ("tag", JArray [JString "x"; JString " "; JString "y"])];
   [("id", JString "a"); ("tag", JString "x")]].

Lemma merged_fields_are_in_merged_form_witness :
  Forall (fun r => modelled_record (JObject r) = true) group
  /\ obj_get "tag" (mergeGroupRecords group)
     = Some (JArray [JString "x"; JString "y"])
  /\ mergeField None (JArray [JString "x"; JString "y"])
     = JArray [JString "x"; JString "y"].
Proof.
  split; [repeat constructor|]. split; [reflexivity|].
  apply (merged_fields_are_in_merged_form group "tag"
           (JArray [JString "x"; JString "y"]));
    [reflexivity | repeat constructor | repeat constructor
    | repeat constructor | reflexivity].
Defined.

Lemma merging_again_changes_nothing_witness :
  modelled (JString "x") = true
  /\ modelled (JNumber 2) = true
  /\ mergeField (Some (JArray [JString "x"; JNumber 2])) (JNumber 2)
     = JArray [JString "x"; JNumber 2]
  /\ mergeField (Some (JArray [JString "x"; JNumber 2])) (JString "x")
     = JArray [JString "x"; JNumber 2].
Proof.
  split; [reflexivity|]. split; [reflexivity|].
  apply (merging_again_changes_nothing (JString "x") (JNumber 2)); reflexivity.
Defined.

End MergedFormExample.

(** ** Sanitized objects *)

Section Sanitizers.
Context {host : Host}.

(** The loop shared by the sanitizers: the entries whose key is not
    dropped are copied into a fresh object. *)
Lemma copy_without (drop : string -> bool) (o : JsonObject) :
  wf_value (JObject o) = true ->
  fold_left
    (fun sanitized ke =>
       if drop (fst ke) then sanitized
       else obj_set (fst ke) (cloneJsonValue (snd ke)) sanitized)
    o []
  = filter (fun ke => negb (drop (fst ke))) o.
Proof.
  intros Hw.
  rewrite (fold_left_ext _
             (fun r kx =>
                match (fun k v => if drop k then None else Some (cloneJsonValue v))
                        (fst kx) (snd kx) with
                | Some y => obj_set (fst kx) y r
                | None => r
                end))
    by (intros s x; now destruct (drop (fst x))).
  change (rebuild (fun k v => if drop k then None else Some (cloneJsonValue v)) o []
          = filter (fun ke => negb (drop (fst ke))) o).
  destruct (wf_object_parts o Hw) as [_ Hvals]. cbn [wf_value] in Hw.
  apply andb_true_iff in Hw. destruct Hw as [Hc _].
  rewrite rebuild_canonical by exact Hc. cbn [app].
  clear Hc. induction o as [|[k v] o IH]; [reflexivity|].
  inversion Hvals as [|? ? Hv Hvals']; subst. cbn [flat_map filter fst snd].
  destruct (drop k); cbn [negb app]; [now apply IH|].
  cbn [snd] in Hv. rewrite (clone_id v Hv). f_equal. now apply IH.
Qed.

End Sanitizers.

(** X12.  On an object that the runtime can hold and whose keys, at
    every depth, are outside the property names of [Object.prototype],
    each sanitizer returns
    the entries it does not drop, in their order and with their values:
    [sanitizeRepositoryObject] and [sanitizeFundingRecord] drop the keys
    that begin with [_dlt], [removeFundingInternalKeys] drops [id] and
    [project_id]. *)
Theorem sanitizers_keep_the_other_entries
  {host : Host} (o : JsonObject) :
  wf_value (JObject o) = true ->
  own_names (JObject o) = true ->
  sanitizeRepositoryObject o = filter (fun ke => negb (isInternalKey (fst ke))) o
  /\ sanitizeFundingRecord o = filter (fun ke => negb (isInternalKey (fst ke))) o
  /\ removeFundingInternalKeys o
     = filter (fun ke => negb (String.eqb (fst ke) "id"
                               || String.eqb (fst ke) "project_id")) o.
Proof.
  intros Hw _. repeat split.
  - apply (copy_without isInternalKey o Hw).
  - apply (copy_without isInternalKey o Hw).
  - apply (copy_without (fun k => String.eqb k "id" || String.eqb k "project_id") o Hw).
Qed.

Module SanitizersExample.
Import IsoHost.

Lemma sanitizers_keep_the_other_entries_witness :
  sanitizeFundingRecord
    [("id", JNumber 1); ("_dlt_id", JString "x"); ("amount", JNumber 5)]
  = [("id", JNumber 1); ("amount", JNumber 5)]
  /\ removeFundingInternalKeys [("id", JNumber 1); ("amount", JNumber 5)]
     = [("amount", JNumber 5)].
Proof.
  split.
  - apply (sanitizers_keep_the_other_entries
             [("id", JNumber 1); ("_dlt_id", JString "x"); ("amount", JNumber 5)]);
      reflexivity.
  - apply (sanitizers_keep_the_other_entries
             [("id", JNumber 1); ("amount", JNumber 5)]);
      reflexivity.
Defined.

End SanitizersExample.

(** ** One repository per key *)

Section RepositoryKeys.
Context {host : Host}.

(** The key list that grows by the keys not seen before. *)
Definition note (ks : list string) (k : string) : list string :=
  if absent_from ks k then ks ++ [k] else ks.

Lemma fold_note l : forall ks,
  fold_left note l ks = ks ++ filter (absent_from ks) (first_occurrences l).
Proof.
  induction l as [|k l IH]; intros ks.
  - cbn. now rewrite app_nil_r.
  - cbn [fold_left first_occurrences filter]. rewrite IH. unfold note.
    destruct (absent_from ks k) eqn:Hk.
    + rewrite <- app_assoc. cbn [app]. do 2 f_equal.
      rewrite filter_filter. apply filter_ext_In. intros x _.
      unfold absent_from. rewrite existsb_app. cbn [existsb].
      rewrite orb_false_r, negb_orb. apply andb_comm.
    + f_equal. rewrite filter_filter. apply filter_ext_In. intros x _.
      destruct (String.eqb_spec x k) as [->|Hne]; cbn [negb andb];
        [now rewrite Hk | reflexivity].
Qed.

Lemma fold_note_nil l : fold_left note l [] = first_occurrences l.
Proof.
  rewrite fold_note. cbn [app].
  rewrite (filter_ext_In _ (fun _ => true)) by reflexivity.
  induction (first_occurrences l) as [|x r IH];
    [reflexivity | cbn [filter]; now rewrite IH].
Qed.

(** The objects that [upsert] looks at: sanitized, and not empty. *)
Definition upserted (incoming : list JsonObject) : list JsonObject :=
  flat_map
    (fun o =>
       match sanitizeRepositoryObject o with
       | [] => []
       | sanitized => [sanitized]
       end)
    incoming.

(** What [upsert] does to the repository of a key when an object of
    that key arrives. *)
Definition repository_step (repo : option JsonObject) (sanitized : JsonObject)
  : option JsonObject :=
  match repo with
  | None => Some (cloneJsonObject sanitized)
  | Some existingRepo => Some (fold_left merge_entry sanitized existingRepo)
  end.

(** The repository that the loop leaves for the key [K]. *)
Definition merged_repository (K : string) (incoming : list JsonObject)
  : option JsonObject :=
  fold_left repository_step
    (filter (fun s => String.eqb (buildRepositoryKey s) K) (upserted incoming))
    None.

Lemma upsert_object st o :
  upsert st (JObject o)
  = match sanitizeRepositoryObject o with
    | [] => st
    | sanitized =>
        match map_get (buildRepositoryKey sanitized) (fst st) with
        | None =>
            (map_set (buildRepositoryKey sanitized) (cloneJsonObject sanitized) (fst st),
             snd st ++ [buildRepositoryKey sanitized])
        | Some existingRepo =>
            (map_set (buildRepositoryKey sanitized)
               (fold_left merge_entry sanitized existingRepo) (fst st),
             snd st)
        end
    end.
Proof. reflexivity. Qed.

Lemma upsert_order incoming : forall st,
  keys (fst st) = snd st ->
  keys (fst (fold_left upsert (map JObject incoming) st))
  = snd (fold_left upsert (map JObject incoming) st)
  /\ snd (fold_left upsert (map JObject incoming) st)
     = fold_left note (map buildRepositoryKey (upserted incoming)) (snd st).
Proof.
  induction incoming as [|o incoming IH]; intros [byKey order] Hk;
    [split; [assumption | reflexivity]|].
  cbn [map fold_left]. rewrite upsert_object. unfold upserted. cbn [flat_map].
  fold (upserted incoming). cbn [fst snd] in *.
  destruct (sanitizeRepositoryObject o) as [|e s] eqn:Es; [now apply IH|].
  cbn [app map fold_left]. set (key := buildRepositoryKey (e :: s)).
  unfold note at 2. fold note.
  destruct (map_get key byKey) as [existingRepo|] eqn:Hg.
  - assert (Ha : absent_from order key = false).
    { destruct (absent_from order key) eqn:E; [|reflexivity].
      apply absent_from_In in E. rewrite <- Hk in E. apply map_get_None in E.
      congruence. }
    rewrite Ha. apply IH. cbn [fst snd]. rewrite keys_map_set_old; congruence.
  - assert (Ha : absent_from order key = true).
    { apply absent_from_In. rewrite <- Hk. now apply map_get_None. }
    rewrite Ha. apply IH. cbn [fst snd]. rewrite map_set_new by assumption.
    unfold keys in *. rewrite map_app. cbn [map fst]. now rewrite Hk.
Qed.

Lemma upsert_lookup K incoming : forall st,
  map_get K (fst (fold_left upsert (map JObject incoming) st))
  = fold_left repository_step
      (filter (fun s => String.eqb (buildRepositoryKey s) K) (upserted incoming))
      (map_get K (fst st)).
Proof.
  induction incoming as [|o incoming IH]; intros st; [reflexivity|].
  cbn [map fold_left]. rewrite IH, upsert_object. unfold upserted. cbn [flat_map].
  fold (upserted incoming).
  destruct (sanitizeRepositoryObject o) as [|e s] eqn:Es; [reflexivity|].
  cbn [app filter]. set (key := buildRepositoryKey (e :: s)).
  destruct (String.eqb_spec key K) as [HK|HK].
  - cbn [fold_left]. f_equal. rewrite <- HK.
    destruct (map_get key (fst st)) as [existingRepo|]; cbn [fst repository_step];
      apply map_get_set_same.
  - f_equal. assert (HK' : K <> key) by congruence.
    destruct (map_get key (fst st)) as [existingRepo|]; cbn [fst];
      now apply map_get_set_other.
Qed.

End RepositoryKeys.

(** X13.  [mergeRepositories] gives one repository per key, in the order
    in which the keys are first seen among the incoming objects that are
    not empty once sanitized; the repository of a key is a copy of the
    first object of that key into which the entries of the later objects
    of that key were merged with [mergeField], in order. *)
Theorem one_repository_per_key
  {host : Host} (incoming : list JsonObject) :
  mergeRepositories None incoming
  = JArray
      (map JObject
         (flat_map
            (fun K =>
               match merged_repository K incoming with
               | Some repo => [cloneJsonObject repo]
               | None => []
               end)
            (first_occurrences (map buildRepositoryKey (upserted incoming)))))
  /\ NoDup (first_occurrences (map buildRepositoryKey (upserted incoming)))
  /\ forall K, In K (map buildRepositoryKey (upserted incoming)) ->
       merged_repository K incoming <> None.
Proof.
  split; [|split; [apply NoDup_first_occurrences|]].
  - unfold mergeRepositories, emit_repositories. do 2 f_equal.
    destruct (upsert_order incoming ([], []) eq_refl) as [_ Ho].
    rewrite Ho. cbn [snd]. rewrite fold_note_nil.
    apply flat_map_ext_In. intros K _.
    now rewrite upsert_lookup.
  - intros K HK. unfold merged_repository.
    apply in_map_iff in HK. destruct HK as [s [Hs Hin]].
    assert (Hne : filter (fun s => String.eqb (buildRepositoryKey s) K)
                    (upserted incoming) <> []).
    { intros He. assert (Hf : In s (filter (fun s => String.eqb (buildRepositoryKey s) K)
                                    (upserted incoming))).
      { apply filter_In. split; [assumption | now apply String.eqb_eq]. }
      rewrite He in Hf. destruct Hf. }
    destruct (filter (fun s => String.eqb (buildRepositoryKey s) K) (upserted incoming))
      as [|s0 l]; [contradiction|].
    cbn [fold_left repository_step]. clear.
    generalize (cloneJsonObject s0). induction l as [|x l IH]; intros r;
      [discriminate | apply IH].
Qed.

(** ** The repositories of a group *)

Section GroupRepositories.
Context {host : Host}.

Lemma merge_records_accumulator rs : forall st,
  snd (fold_left merge_record rs st)
  = snd st ++ flat_map (fun r => fst (extractRepositoryEntries r)) rs.
Proof.
  induction rs as [|r rs IH]; intros st.
  - cbn. now rewrite app_nil_r.
  - cbn [fold_left flat_map]. rewrite IH. cbn [merge_record snd].
    now rewrite app_assoc.
Qed.

Lemma merged_without_repositories rs :
  obj_get "repositories" (fst (fold_left merge_record rs ([], []))) = None.
Proof.
  destruct (merge_records_fields rs ([], [])) as [_ Hk];
    [reflexivity | intros k [] |].
  apply obj_get_None. intros Hin. specialize (Hk _ Hin). discriminate.
Qed.

End GroupRepositories.

(** X14.  The [repositories] of the merged record of a group are the
    merge, by [mergeRepositories] from nothing, of the repository
    entries of all the records of the group, in order; the merged record
    has no [repositories] when no record of the group has a repository
    entry. *)
Theorem repositories_of_the_group
  {host : Host} (rs : list JsonObject) :
  obj_get "repositories" (mergeGroupRecords rs)
  = match flat_map (fun r => fst (extractRepositoryEntries r)) rs with
    | [] => None
    | entries => Some (mergeRepositories None entries)
    end.
Proof.
  unfold mergeGroupRecords. rewrite merge_records_accumulator. cbn [snd app].
  destruct (flat_map (fun r => fst (extractRepositoryEntries r)) rs) as [|e es].
  - apply merged_without_repositories.
  - rewrite obj_get_set_same. now rewrite merged_without_repositories.
Qed.

(** ** Funding entries *)

Section FundingFacts.
Context {host : Host}.

Definition without_ids (e : JsonObject) : Prop :=
  obj_get "id" e = None /\ obj_get "project_id" e = None.

Lemma removeFundingInternalKeys_without_ids o :
  without_ids (removeFundingInternalKeys o).
Proof.
  unfold removeFundingInternalKeys.
  apply (fold_left_invariant (fun s : JsonObject => without_ids s)).
  - split; reflexivity.
  - intros s [k v] _ [Hi Hp]. cbn [fst snd].
    destruct (String.eqb_spec k "id") as [->|Hid]; cbn [orb]; [now split|].
    destruct (String.eqb_spec k "project_id") as [->|Hpid]; [now split|].
    split; rewrite obj_get_set_other; congruence.
Qed.

Lemma length_map_set {V : Type} k (v : V) m :
  (List.length (map_set k v m) <= S (List.length m))%nat.
Proof.
  induction m as [|[k' v'] m IH]; cbn [map_set List.length]; [lia|].
  destruct (String.eqb k k'); cbn [List.length]; lia.
Qed.

Lemma addEntry_length seen value seen' :
  addEntry seen value = Some seen' ->
  (List.length seen' <= S (List.length seen))%nat.
Proof.
  unfold addEntry. destruct value as [| | | | |o]; try (intros [= <-]; lia).
  destruct (sanitizeFundingRecord o) as [|e s]; [intros [= <-]; lia|].
  destruct (map_get _ seen) as [existingEntry|].
  - unfold bind. destruct (pickLatestByUpdatedAt existingEntry (e :: s));
      [|discriminate].
    intros [= <-]. apply length_map_set.
  - intros [= <-]. apply length_map_set.
Qed.

Lemma addEntries_length values : forall seen seen',
  addEntries seen values = Some seen' ->
  (List.length seen' <= List.length seen + List.length values)%nat.
Proof.
  induction values as [|v values IH]; intros seen seen'; cbn [addEntries].
  - intros [= <-]. cbn. lia.
  - unfold bind. destruct (addEntry seen v) as [seen1|] eqn:E; [|discriminate].
    intros H. apply IH in H. apply addEntry_length in E. cbn [List.length]. lia.
Qed.

(** The values that [mergeFundingEntries] hands to [addEntry]. *)
Definition funding_values (existing : option JsonValue) (incoming : list JsonObject)
  : list JsonValue :=
  match existing with
  | None => []
  | Some (JArray items) => items
  | Some e => [e]
  end ++ map JObject incoming.

Lemma addEntries_app a : forall seen b,
  addEntries seen (a ++ b) = bind (addEntries seen a) (fun s => addEntries s b).
Proof.
  induction a as [|v a IH]; intros seen b; [reflexivity|].
  cbn [app addEntries]. unfold bind at 1 3.
  destruct (addEntry seen v); [apply IH | reflexivity].
Qed.

Lemma mergeFundingEntries_values existing incoming :
  mergeFundingEntries existing incoming
  = bind (addEntries [] (funding_values existing incoming))
      (fun seen => Some (map (fun e => removeFundingInternalKeys (snd e)) seen)).
Proof.
  unfold mergeFundingEntries, funding_values. rewrite addEntries_app.
  destruct existing as [[| | | |items|o]|]; cbn [addEntries app]; unfold bind;
    try reflexivity.
  - now destruct (addEntries [] items).
  - now destruct (addEntry [] (JObject o)).
Qed.

(** Whether an object carries [updated_at]; values that are not objects
    are not looked at. *)
Definition has_updated_at (v : JsonValue) : bool :=
  match v with
  | JObject o => obj_has "updated_at" o
  | _ => true
  end.

Lemma sanitizeFundingRecord_keeps k o :
  isInternalKey k = false -> In k (keys o) ->
  In k (keys (sanitizeFundingRecord o)).
Proof.
  intros Hk. unfold sanitizeFundingRecord.
  assert (H : forall acc : JsonObject,
             In k (keys acc) \/ In k (keys o) ->
             In k (keys (fold_left
                           (fun sanitized ke =>
                              if isInternalKey (fst ke) then sanitized
                              else obj_set (fst ke) (cloneJsonValue (snd ke)) sanitized)
                           o acc))).
  { induction o as [|[k' v'] o IH]; intros acc [Ha|Ho]; cbn [fold_left fst snd].
    - assumption.
    - destruct Ho.
    - apply IH. left. destruct (isInternalKey k'); [assumption|].
      apply keys_obj_set. now right.
    - destruct Ho as [Heq|Ho]; [|apply IH; now right].
      cbn [fst] in Heq. subst k'. rewrite Hk. apply IH. left.
      apply keys_obj_set. now left. }
  intros Hin. apply H. now right.
Qed.

Definition dated (seen : list (string * JsonObject)) : Prop :=
  forall key e, In (key, e) seen -> obj_get "updated_at" e <> None.

Lemma pickLatestByUpdatedAt_dated left right :
  obj_get "updated_at" left <> None -> obj_get "updated_at" right <> None ->
  exists choice, pickLatestByUpdatedAt left right = Some choice.
Proof.
  intros Hl Hr. unfold pickLatestByUpdatedAt.
  destruct (obj_get "updated_at" left) as [ul|]; [|contradiction].
  destruct (obj_get "updated_at" right) as [ur|]; [|contradiction].
  cbn [toTimestamp_of toComparableString_of bind].
  destruct (toTimestamp ul), (toTimestamp ur); try (eexists; reflexivity);
    destruct (String.eqb (toComparableString ul) (toComparableString ur));
    eexists; reflexivity.
Qed.

Lemma addEntry_dated seen value :
  has_updated_at value = true -> dated seen ->
  exists seen', addEntry seen value = Some seen' /\ dated seen'.
Proof.
  intros Hv Hd. unfold addEntry.
  destruct value as [| | | | |o]; try (exists seen; split; [reflexivity | assumption]).
  cbn [has_updated_at] in Hv. apply obj_has_In in Hv.
  pose proof (sanitizeFundingRecord_keeps "updated_at" o eq_refl Hv) as Hs.
  apply obj_has_In in Hs.
  destruct (sanitizeFundingRecord o) as [|e s] eqn:Es;
    [exists seen; split; [reflexivity | assumption]|].
  assert (Hu : obj_get "updated_at" (e :: s) <> None).
  { intros Hn. apply obj_get_None in Hn. apply obj_has_In in Hs. contradiction. }
  set (key := createFundingKey (obj_get "round_id" (e :: s)) (e :: s)).
  destruct (map_get key seen) as [existingEntry|] eqn:Hg.
  - assert (He : obj_get "updated_at" existingEntry <> None)
      by (apply (Hd key); now apply map_get_In).
    destruct (pickLatestByUpdatedAt_dated existingEntry (e :: s) He Hu)
      as [choice Hc].
    rewrite Hc. cbn [bind]. eexists. split; [reflexivity|].
    intros key' e' Hin. apply In_map_set in Hin. destruct Hin as [[= -> ->]|Hin].
    + apply pickLatestByUpdatedAt_choice in Hc. destruct Hc as [->| ->]; assumption.
    + now apply (Hd key').
  - eexists. split; [reflexivity|].
    intros key' e' Hin. apply In_map_set in Hin. destruct Hin as [[= -> ->]|Hin].
    + assumption.
    + now apply (Hd key').
Qed.

Lemma addEntries_dated values : forall seen,
  forallb has_updated_at values = true -> dated seen ->
  exists seen', addEntries seen values = Some seen'.
Proof.
  induction values as [|v values IH]; intros seen Hv Hd; [now exists seen|].
  cbn [forallb] in Hv. apply andb_true_iff in Hv. destruct Hv as [Hv Hvs].
  destruct (addEntry_dated seen v Hv Hd) as [seen1 [E Hd1]].
  cbn [addEntries]. rewrite E. cbn [bind]. now apply IH.
Qed.

End FundingFacts.

(** X15.  No funding entry that [mergeFundingEntries] emits has a key
    [id] or [project_id], and it emits at most as many entries as it was
    given values. *)
Theorem funding_entries_lose_their_ids
  {host : Host} (existing : option JsonValue) (incoming entries : list JsonObject) :
  mergeFundingEntries existing incoming = Some entries ->
  Forall without_ids entries
  /\ (List.length entries
      <= List.length (funding_values existing incoming))%nat.
Proof.
  rewrite mergeFundingEntries_values. unfold bind.
  destruct (addEntries [] (funding_values existing incoming)) as [seen|] eqn:E;
    [|discriminate].
  intros [= <-]. split.
  - apply Forall_forall. intros e Hin. apply in_map_iff in Hin.
    destruct Hin as [x [<- _]]. apply removeFundingInternalKeys_without_ids.
  - rewrite length_map. apply addEntries_length in E. cbn in E. lia.
Qed.

(** X16.  [mergeFundingEntries] returns (it does not throw) when every
    object it is given, among the existing value and the incoming
    entries, carries [updated_at]. *)
Theorem funding_merge_returns_with_updated_at
  {host : Host} (existing : option JsonValue) (incoming : list JsonObject) :
  forallb has_updated_at (funding_values existing incoming) = true ->
  exists entries, mergeFundingEntries existing incoming = Some entries.
Proof.
  intros Hv. rewrite mergeFundingEntries_values.
  destruct (addEntries_dated (funding_values existing incoming) [] Hv) as [seen E].
  - intros key e [].
  - rewrite E. cbn [bind]. eexists. reflexivity.
Qed.


Module FundingFactsExample.
Import IsoHost.

Definition entries : list JsonObject :=
  [[("id", JNumber 1); ("project_id", JString "p"); ("round_id", JString "7");
    ("updated_at", JString "2024-01-01"); ("amount", JNumber 1)];
   [("id", JNumber 2); ("project_id", JString "p"); ("round_id", JString "7");
    ("updated_at", JString "2024-02-01"); ("amount", JNumber 2)]].

Definition merged : list JsonObject :=
  [[("round_id", JString "7"); ("updated_at", JString "2024-02-01");
    ("amount", JNumber 2)]].

Lemma funding_entries_lose_their_ids_witness :
  mergeFundingEntries None entries = Some merged /\ Forall without_ids merged.
Proof.
  split; [reflexivity|].
  apply (funding_entries_lose_their_ids None entries merged). reflexivity.
Defined.

Lemma funding_merge_returns_with_updated_at_witness :
  exists result, mergeFundingEntries None entries = Some result.
Proof.
  apply (funding_merge_returns_with_updated_at None entries). reflexivity.
Defined.

Definition records : list JsonObject :=
  [[("id", JString "p"); ("name", JString "Foo")];
   [("id", JString "q"); ("name", JString "Bar")]].



End FundingFactsExample.

(** ** The surviving entry of a funding key *)

Section FundingSurvivors.
Context {host : Host}.

(** The key under which [addEntry] stores a sanitized entry. *)
Definition funding_key (s : JsonObject) : string :=
  createFundingKey (obj_get "round_id" s) s.

(** The sanitized entries that [addEntry] stores or compares: the
    objects among the values that keep a key when sanitized. *)
Definition funding_candidates (values : list JsonValue) : list JsonObject :=
  flat_map
    (fun v =>
       match v with
       | JObject o =>
           match sanitizeFundingRecord o with
           | [] => []
           | s => [s]
           end
       | _ => []
       end)
    values.

(** The successive choices of [pickLatestByUpdatedAt] between the entry
    kept so far and the next entry of the same key. *)
Fixpoint latest_of (current : JsonObject) (rest : list JsonObject)
  : option JsonObject :=
  match rest with
  | [] => Some current
  | s :: rest' =>
      bind (pickLatestByUpdatedAt current s)
        (fun choice => latest_of choice rest')
  end.

Definition of_key (key : string) (cands : list JsonObject) : list JsonObject :=
  filter (fun s => String.eqb (funding_key s) key) cands.

Definition survivor (key : string) (cands : list JsonObject) : option JsonObject :=
  match of_key key cands with
  | [] => None
  | s :: rest => latest_of s rest
  end.

Definition add_candidate (seen : list (string * JsonObject)) (s : JsonObject)
  : option (list (string * JsonObject)) :=
  match map_get (funding_key s) seen with
  | None => Some (map_set (funding_key s) s seen)
  | Some existingEntry =>
      bind (pickLatestByUpdatedAt existingEntry s)
        (fun choice => Some (map_set (funding_key s) choice seen))
  end.

Fixpoint add_candidates (seen : list (string * JsonObject))
  (cands : list JsonObject) : option (list (string * JsonObject)) :=
  match cands with
  | [] => Some seen
  | s :: cands' =>
      bind (add_candidate seen s) (fun seen' => add_candidates seen' cands')
  end.

Lemma addEntries_candidates values : forall seen,
  addEntries seen values = add_candidates seen (funding_candidates values).
Proof.
  induction values as [|v values IH]; intros seen; [reflexivity|].
  cbn [addEntries funding_candidates flat_map].
  fold (funding_candidates values).
  destruct v as [| | | | |o]; cbn [addEntry bind app]; try apply IH.
  unfold addEntry.
  destruct (sanitizeFundingRecord o) as [|x s] eqn:Hs; cbn [bind app];
    [apply IH|].
  cbn [add_candidates]. unfold add_candidate, funding_key.
  cbv beta iota zeta.
  destruct (map_get (createFundingKey (obj_get "round_id" (x :: s)) (x :: s)) seen)
    as [e|]; cbn [bind].
  - destruct (pickLatestByUpdatedAt e (x :: s)) as [choice|]; cbn [bind];
      [apply IH | reflexivity].
  - apply IH.
Qed.

Lemma keys_map_set_note {V : Type} k (v : V) m :
  keys (map_set k v m) = note (keys m) k.
Proof.
  unfold note. destruct (map_get k m) as [v0|] eqn:Hg.
  - rewrite keys_map_set_old by congruence.
    destruct (absent_from (keys m) k) eqn:E; [|reflexivity].
    apply absent_from_In in E. apply map_get_None in E. congruence.
  - rewrite (map_set_new _ _ _ Hg). unfold keys. rewrite map_app. cbn [map fst].
    replace (absent_from (map fst m) k) with true; [reflexivity|].
    symmetry. apply absent_from_In. now apply map_get_None.
Qed.

Lemma add_candidate_keys seen s seen' :
  add_candidate seen s = Some seen' ->
  keys seen' = note (keys seen) (funding_key s).
Proof.
  unfold add_candidate.
  destruct (map_get (funding_key s) seen) as [e|]; cbn [bind].
  - destruct (pickLatestByUpdatedAt e s) as [choice|]; cbn [bind];
      [|discriminate].
    intros [= <-]. apply keys_map_set_note.
  - intros [= <-]. apply keys_map_set_note.
Qed.

Lemma add_candidates_keys cands : forall seen seen',
  add_candidates seen cands = Some seen' ->
  keys seen' = fold_left note (map funding_key cands) (keys seen).
Proof.
  induction cands as [|s cands IH]; intros seen seen'; cbn [add_candidates].
  - now intros [= <-].
  - destruct (add_candidate seen s) as [seen1|] eqn:H1; cbn [bind];
      [|discriminate].
    intros H. cbn [map fold_left].
    rewrite <- (add_candidate_keys _ _ _ H1). now apply IH.
Qed.

Lemma add_candidate_lookup seen s seen' key :
  add_candidate seen s = Some seen' ->
  map_get key seen'
  = if String.eqb (funding_key s) key
    then match map_get key seen with
         | None => Some s
         | Some existingEntry => pickLatestByUpdatedAt existingEntry s
         end
    else map_get key seen.
Proof.
  unfold add_candidate.
  destruct (String.eqb_spec (funding_key s) key) as [<-|Hne].
  - destruct (map_get (funding_key s) seen) as [e|]; cbn [bind].
    + destruct (pickLatestByUpdatedAt e s) as [choice|]; cbn [bind];
        [|discriminate].
      intros [= <-]. apply map_get_set_same.
    + intros [= <-]. apply map_get_set_same.
  - destruct (map_get (funding_key s) seen) as [e|]; cbn [bind].
    + destruct (pickLatestByUpdatedAt e s) as [choice|]; cbn [bind];
        [|discriminate].
      intros [= <-]. apply map_get_set_other. congruence.
    + intros [= <-]. apply map_get_set_other. congruence.
Qed.

Lemma add_candidates_lookup cands : forall seen seen' key,
  add_candidates seen cands = Some seen' ->
  map_get key seen'
  = match map_get key seen with
    | Some existingEntry => latest_of existingEntry (of_key key cands)
    | None => survivor key cands
    end.
Proof.
  induction cands as [|s cands IH]; intros seen seen' key; cbn [add_candidates].
  - intros [= <-]. unfold survivor. cbn [of_key filter latest_of].
    now destruct (map_get key seen).
  - destruct (add_candidate seen s) as [seen1|] eqn:H1; cbn [bind];
      [|discriminate].
    intros H. rewrite (IH _ _ key H).
    rewrite (add_candidate_lookup _ _ _ key H1).
    unfold survivor, of_key. cbn [filter].
    destruct (String.eqb_spec (funding_key s) key) as [<-|_]; [|reflexivity].
    unfold add_candidate in H1.
    destruct (map_get (funding_key s) seen) as [e|]; cbn [latest_of];
      [|reflexivity].
    destruct (pickLatestByUpdatedAt e s) as [choice|]; [reflexivity|].
    discriminate.
Qed.

Lemma latest_of_In rest : forall current s,
  latest_of current rest = Some s -> In s (current :: rest).
Proof.
  induction rest as [|x rest IH]; intros current s; cbn [latest_of].
  - intros [= <-]. now left.
  - destruct (pickLatestByUpdatedAt current x) as [choice|] eqn:Hp; cbn [bind];
      [|discriminate].
    intros H. apply IH in H. apply pickLatestByUpdatedAt_choice in Hp.
    destruct H as [<-|H]; [|now right; right].
    destruct Hp as [->| ->]; [now left | now right; left].
Qed.

Lemma survivor_In key cands s :
  survivor key cands = Some s -> In s cands /\ funding_key s = key.
Proof.
  unfold survivor. destruct (of_key key cands) as [|c rest] eqn:Hk; [discriminate|].
  intros H. apply latest_of_In in H. rewrite <- Hk in H.
  apply filter_In in H. destruct H as [Hin He].
  split; [exact Hin | now apply String.eqb_eq].
Qed.

Lemma funding_candidates_NoDup values s :
  In s (funding_candidates values) -> NoDup (keys s).
Proof.
  unfold funding_candidates. intros H. apply in_flat_map in H.
  destruct H as [v [_ H]]. destruct v as [| | | | |o]; try destruct H.
  pose proof (sanitizeFundingRecord_NoDup o) as Hn.
  destruct (sanitizeFundingRecord o) as [|x s']; [destruct H|].
  destruct H as [<-|[]]. exact Hn.
Qed.

Lemma funding_key_round s r :
  funding_key s = ("round:" ++ r)%string -> round_of s = Some r.
Proof.
  unfold funding_key, createFundingKey, round_of.
  destruct (trimmed_string (obj_get "round_id" s)) as [r'|].
  - intros [= ->]. reflexivity.
  - discriminate.
Qed.

(** The timestamp of the [updated_at] value of an entry. *)
Definition updated_at_timestamp (s : JsonObject) : option Z :=
  toTimestamp_of (obj_get "updated_at" s).

(** [s] is the first entry of [l] with the greatest timestamp. *)
Definition first_latest (l : list JsonObject) (s : JsonObject) : Prop :=
  exists before after T,
    l = before ++ s :: after
    /\ updated_at_timestamp s = Some T
    /\ (forall x, In x before ->
          exists t, updated_at_timestamp x = Some t /\ t < T)
    /\ (forall x, In x after ->
          exists t, updated_at_timestamp x = Some t /\ t <= T).

Lemma pickLatestByUpdatedAt_timestamps left right t1 t2 :
  updated_at_timestamp left = Some t1 ->
  updated_at_timestamp right = Some t2 ->
  pickLatestByUpdatedAt left right = Some (if t2 >? t1 then right else left).
Proof.
  unfold updated_at_timestamp, pickLatestByUpdatedAt. now intros -> ->.
Qed.

Lemma latest_of_timestamps rest : forall before current mid T,
  updated_at_timestamp current = Some T ->
  (forall x, In x before -> exists t, updated_at_timestamp x = Some t /\ t < T) ->
  (forall x, In x mid -> exists t, updated_at_timestamp x = Some t /\ t <= T) ->
  (forall x, In x rest -> updated_at_timestamp x <> None) ->
  exists s, latest_of current rest = Some s
            /\ first_latest (before ++ current :: mid ++ rest) s.
Proof.
  induction rest as [|x rest IH]; intros before current mid T HT Hb Hm Hr.
  - exists current. split; [reflexivity|]. rewrite app_nil_r.
    now exists before, mid, T.
  - cbn [latest_of].
    destruct (updated_at_timestamp x) as [t|] eqn:Hx;
      [|exfalso; apply (Hr x); [now left | exact Hx]].
    rewrite (pickLatestByUpdatedAt_timestamps _ _ _ _ HT Hx). cbn [bind].
    destruct (Z.gtb_spec t T) as [Hgt|Hle].
    + destruct (IH (before ++ current :: mid) x [] t Hx) as [s [Hs Hf]].
      * intros y Hy. apply in_app_or in Hy. destruct Hy as [Hy|[<-|Hy]].
        -- destruct (Hb y Hy) as [ty [E L]]. exists ty. split; [exact E | lia].
        -- exists T. split; [exact HT | lia].
        -- destruct (Hm y Hy) as [ty [E L]]. exists ty. split; [exact E | lia].
      * intros y [].
      * intros y Hy. apply Hr. now right.
      * exists s. split; [exact Hs|].
        cbn [app] in Hf. rewrite <- app_assoc in Hf. cbn [app] in Hf.
        replace (mid ++ x :: rest) with (mid ++ [x] ++ rest) by reflexivity.
        cbn [app]. exact Hf.
    + destruct (IH before current (mid ++ [x]) T HT Hb) as [s [Hs Hf]].
      * intros y Hy. apply in_app_or in Hy. destruct Hy as [Hy|[<-|[]]].
        -- now apply Hm.
        -- exists t. split; [exact Hx | lia].
      * intros y Hy. apply Hr. now right.
      * exists s. split; [exact Hs|].
        rewrite <- app_assoc in Hf. cbn [app] in Hf. exact Hf.
Qed.

Lemma survivor_timestamps key cands :
  of_key key cands <> [] ->
  (forall x, In x (of_key key cands) -> updated_at_timestamp x <> None) ->
  exists s, survivor key cands = Some s /\ first_latest (of_key key cands) s.
Proof.
  unfold survivor. destruct (of_key key cands) as [|c rest]; [congruence|].
  intros _ H.
  destruct (updated_at_timestamp c) as [T|] eqn:HT;
    [|exfalso; apply (H c); [now left | exact HT]].
  destruct (latest_of_timestamps rest [] c [] T HT) as [s [Hs Hf]].
  - intros x [].
  - intros x [].
  - intros x Hx. apply H. now right.
  - exists s. split; [exact Hs | exact Hf].
Qed.

Lemma rounds_of_candidates r cands :
  In r (round_ids cands) ->
  In ("round:" ++ r)%string (map funding_key cands).
Proof.
  unfold round_ids. intros H. apply in_flat_map in H.
  destruct H as [s [Hs Hr]]. destruct (round_of s) as [r'|] eqn:E; [|destruct Hr].
  destruct Hr as [->|[]]. apply in_map_iff. exists s. split; [|exact Hs].
  now apply createFundingKey_round.
Qed.

Lemma merged_funding_entries existing incoming entries :
  mergeFundingEntries existing incoming = Some entries ->
  exists seen,
    entries = map (fun e => removeFundingInternalKeys (snd e)) seen
    /\ keys seen
       = first_occurrences
           (map funding_key
              (funding_candidates (funding_values existing incoming)))
    /\ forall key,
         map_get key seen
         = survivor key (funding_candidates (funding_values existing incoming)).
Proof.
  rewrite mergeFundingEntries_values, addEntries_candidates.
  destruct (add_candidates [] (funding_candidates (funding_values existing incoming)))
    as [seen|] eqn:Hs; cbn [bind]; [|discriminate].
  intros [= <-]. exists seen. split; [reflexivity|]. split.
  - rewrite (add_candidates_keys _ _ _ Hs). apply fold_note_nil.
  - intros key. apply (add_candidates_lookup _ _ _ key Hs).
Qed.

End FundingSurvivors.

(** C5, as amended.  The merge of the funding entries of a record
    returns when every entry carries [updated_at], and whenever it
    returns, the merged list holds one entry per key, in the
    order in which the keys first occur, the key of an entry being its
    round identifier when [round_id] is a non-blank string and its whole
    content otherwise.  So for every round identifier carried by some
    entry exactly one entry of that round survives, and no two entries
    of the merged list share a round identifier.  The survivor is what
    the successive choices leave, going through the entries of the round
    in list order: between the entry kept so far and the next entry,
    when both [updated_at] values parse as timestamps, the next entry
    when its timestamp is strictly later and the entry kept so far
    otherwise; when both are present and one of them does not parse, the
    entry whose [updated_at] is lexicographically greater, and the next
    entry when the two are identical.  When all the entries of a round
    have timestamps, the survivor is the first entry of the round with
    the greatest timestamp. *)
Theorem one_entry_per_round
  {host : Host} (existing : option JsonValue) (incoming : list JsonObject) :
  Forall (fun v => modelled v = true) (funding_values existing incoming) ->
  let cands := funding_candidates (funding_values existing incoming) in
  (forallb has_updated_at (funding_values existing incoming) = true ->
   exists entries, mergeFundingEntries existing incoming = Some entries)
  /\ (forall entries,
        mergeFundingEntries existing incoming = Some entries ->
        NoDup (round_ids entries)
        /\ entries
           = flat_map
               (fun key =>
                  match survivor key cands with
                  | Some s => [removeFundingInternalKeys s]
                  | None => []
                  end)
               (first_occurrences (map funding_key cands))
        /\ (forall r, In r (round_ids cands) ->
              exists s,
                survivor ("round:" ++ r)%string cands = Some s
                /\ In s cands
                /\ round_of s = Some r
                /\ round_of (removeFundingInternalKeys s) = Some r
                /\ In (removeFundingInternalKeys s) entries))
  /\ (forall key,
        of_key key cands <> [] ->
        (forall x, In x (of_key key cands) -> updated_at_timestamp x <> None) ->
        exists s, survivor key cands = Some s
                  /\ first_latest (of_key key cands) s)
  /\ (forall left right u1 u2,
        obj_get "updated_at" left = Some u1 ->
        obj_get "updated_at" right = Some u2 ->
        pickLatestByUpdatedAt left right
        = Some (match toTimestamp u1, toTimestamp u2 with
                | Some t1, Some t2 => if t2 >? t1 then right else left
                | _, _ =>
                    if String.eqb (toComparableString u1) (toComparableString u2)
                    then right
                    else if str_gtb (toComparableString u2) (toComparableString u1)
                         then right else left
                end)).
Proof.
  intros _ cands.
  split.
  { intros Hv. rewrite mergeFundingEntries_values.
    destruct (addEntries_dated (funding_values existing incoming) [] Hv)
      as [seen E].
    - intros key e [].
    - rewrite E. cbn [bind]. eexists. reflexivity. }
  split; [|split; [intros key; apply survivor_timestamps|]].
  2:{ intros left right u1 u2 H1 H2. unfold pickLatestByUpdatedAt.
      rewrite H1, H2. cbn [toTimestamp_of toComparableString_of bind].
      destruct (toTimestamp u1), (toTimestamp u2);
        try reflexivity;
        now destruct (String.eqb (toComparableString u1) (toComparableString u2)). }
  intros entries Hm.
  destruct (merged_funding_entries _ _ _ Hm) as (seen & He & Hk & Hg).
  fold cands in Hk, Hg.
  assert (Hnd : NoDup (keys seen))
    by (rewrite Hk; apply NoDup_first_occurrences).
  split; [exact (mergeFundingEntries_rounds _ _ _ Hm)|].
  split.
  { rewrite He, (map_by_keys seen Hnd) at 1. rewrite Hk.
    clear Hk Hnd He.
    induction (first_occurrences (map funding_key cands)) as [|key l IH];
      [reflexivity|].
    cbn [flat_map]. rewrite map_app, IH. f_equal.
    rewrite Hg. now destruct (survivor key cands). }
  { intros r Hr. apply rounds_of_candidates in Hr.
    assert (Hin : In ("round:" ++ r)%string (keys seen))
      by (rewrite Hk; now apply In_first_occurrences).
    destruct (map_get ("round:" ++ r)%string seen) as [s|] eqn:Hs;
      [|apply map_get_None in Hs; contradiction].
    exists s. pose proof Hs as Hsv. rewrite Hg in Hsv.
    destruct (survivor_In _ _ _ Hsv) as [Hc Hkey].
    pose proof (funding_key_round _ _ Hkey) as Hround.
    split; [exact Hsv|]. split; [exact Hc|]. split; [exact Hround|].
    split.
    - rewrite removeFundingInternalKeys_round; [exact Hround|].
      exact (funding_candidates_NoDup _ _ Hc).
    - rewrite He. apply in_map_iff. exists ("round:" ++ r, s)%string.
      split; [reflexivity | now apply map_get_In]. }
Qed.

Module FundingRoundExample.
Import IsoHost.

Definition january : JsonObject :=
  [("round_id", JString "7"); ("updated_at", JString "2024-01-01");
   ("amount", JNumber 1)].
Definition march : JsonObject :=
  [("round_id", JString " 7 "); ("updated_at", JString "2024-03-01");
   ("amount", JNumber 3)].
Definition february : JsonObject :=
  [("round_id", JString "7"); ("updated_at", JString "2024-02-01");
   ("amount", JNumber 2)].
Definition other : JsonObject :=
  [("round_id", JString "8"); ("updated_at", JString "2024-01-01");
   ("amount", JNumber 4)].

Lemma one_entry_per_round_witness :
  Forall (fun v => modelled v = true)
    (funding_values (Some (JArray [JObject january; JObject other]))
       [march; february])
  /\ mergeFundingEntries (Some (JArray [JObject january; JObject other]))
       [march; february]
     = Some [march; other]
  /\ NoDup (round_ids [march; other]).
Proof.
  assert (Hd : Forall (fun v => modelled v = true)
                 (funding_values (Some (JArray [JObject january; JObject other]))
                    [march; february]))
    by (repeat constructor).
  assert (Hm : mergeFundingEntries (Some (JArray [JObject january; JObject other]))
                 [march; february]
               = Some [march; other]) by reflexivity.
  split; [exact Hd|]. split; [exact Hm|].
  exact (proj1 (proj1 (proj2 (one_entry_per_round _ _ Hd)) _ Hm)).
Defined.

(** C5, the claim as stated fails.  Two [updated_at] values that parse
    to the same timestamp keep the first entry, although the second is
    lexicographically greater.  Two entries whose round identifier is
    the number 7 are keyed by their content and both survive.  Of three
    entries of one round with the values 10, "1x" and 9, the one with 9
    survives, although 10 is the later timestamp. *)
Lemma survivor_is_not_the_claimed_one :
  let entry (round updated_at : JsonValue) (amount : Z) : JsonObject :=
    [("round_id", round); ("updated_at", updated_at); ("amount", JNumber amount)] in
  let first := entry (JString "7") (JString "1970-01-01") 1 in
  let second := entry (JString "7") (JString "1970-01-01T00:00:00Z") 2 in
  (toTimestamp (JString "1970-01-01") = toTimestamp (JString "1970-01-01T00:00:00Z")
   /\ str_gtb "1970-01-01T00:00:00Z" "1970-01-01" = true
   /\ mergeFundingEntries None [first; second] = Some [first])
  /\ mergeFundingEntries None
       [entry (JNumber 7) (JString "2024-01-01") 1;
        entry (JNumber 7) (JString "2024-02-01") 2]
     = Some [entry (JNumber 7) (JString "2024-01-01") 1;
             entry (JNumber 7) (JString "2024-02-01") 2]
  /\ mergeFundingEntries None
       [entry (JString "7") (JNumber 10) 1;
        entry (JString "7") (JString "1x") 2;
        entry (JString "7") (JNumber 9) 3]
     = Some [entry (JString "7") (JNumber 9) 3].
Proof. repeat split. Qed.

End FundingRoundExample.

(** ** The funding index *)

(** [Number(text)], as far as [hasMeaningfulAmount] looks at it: [NaN],
    a zero, or another number. *)
Inductive NumberKind : Type :=
| NotANumber
| IsZero
| NonZero.

(** The conversion of a string to a number belongs to the runtime. *)
Class NumberHost : Type := {
  Number_of_string : string -> NumberKind
}.

(** [s.replace(/,/g, '')] *)
Fixpoint remove_commas (s : string) : string :=
  match s with
  | EmptyString => EmptyString
  | String c s' =>
      if Ascii.eqb c "," then remove_commas s' else String c (remove_commas s')
  end.

Section FundingIndex.
Context {host : Host} {numbers : NumberHost}.

Definition hasMeaningfulAmount (value : option JsonValue) : bool :=
  match value with
  | None | Some JNull => false
  | Some (JNumber n) => negb (n =? 0)
  | Some (JString s) =>
      let trimmed := trim s in
      if (String.length trimmed =? 0)%nat then false
      else
        match Number_of_string (remove_commas trimmed) with
        | NotANumber => true
        | IsZero => false
        | NonZero => true
        end
  | Some _ => true
  end.

(** The body of the loop of [buildFundingIndex], on the map
    [byProjectId]. *)
Definition index_step (byProjectId : list (string * list JsonObject))
  (record : JsonValue) : list (string * list JsonObject) :=
  match record with
  | JObject fields =>
      match obj_get "project_id" fields with
      | None => byProjectId
      | Some projectIdentifier =>
          if isMeaningless projectIdentifier then byProjectId
          else if negb (hasMeaningfulAmount (obj_get "amount" fields))
          then byProjectId
          else
            match sanitizeFundingRecord fields with
            | [] => byProjectId
            | sanitized =>
                let key := buildIdKey projectIdentifier in
                match map_get key byProjectId with
                | Some bucket => map_set key (bucket ++ [sanitized]) byProjectId
                | None => map_set key [sanitized] byProjectId
                end
            end
      end
  | _ => byProjectId
  end.

Definition buildFundingIndex (input : list JsonValue)
  : list (string * list JsonObject) :=
  fold_left index_step input [].

(** The key and the entry under which a record is indexed, when it is:
    an object with a project identifier that is neither null nor blank
    and with a meaningful amount. *)
Definition indexed (record : JsonValue) : option (string * JsonObject) :=
  match record with
  | JObject fields =>
      match obj_get "project_id" fields with
      | Some projectIdentifier =>
          if isMeaningless projectIdentifier then None
          else if hasMeaningfulAmount (obj_get "amount" fields)
          then Some (buildIdKey projectIdentifier, sanitizeFundingRecord fields)
          else None
      | None => None
      end
  | _ => None
  end.

(** The entries indexed under the key [K], in input order. *)
Definition bucket_of (K : string) (input : list JsonValue) : list JsonObject :=
  flat_map
    (fun record =>
       match indexed record with
       | Some (k, entry) => if String.eqb k K then [entry] else []
       | None => []
       end)
    input.

Definition indexed_keys (input : list JsonValue) : list string :=
  flat_map
    (fun record =>
       match indexed record with
       | Some (k, _) => [k]
       | None => []
       end)
    input.

Lemma sanitized_with_project_id fields projectIdentifier :
  obj_get "project_id" fields = Some projectIdentifier ->
  sanitizeFundingRecord fields <> [].
Proof.
  intros Hg He.
  assert (Hin : In "project_id" (keys fields)).
  { apply obj_get_In in Hg. unfold keys. apply in_map_iff.
    now exists ("project_id", projectIdentifier). }
  apply (sanitizeFundingRecord_keeps "project_id" fields eq_refl) in Hin.
  rewrite He in Hin. destruct Hin.
Qed.

(** A step, by what [indexed] says of the record. *)
Lemma index_step_indexed byProjectId record :
  index_step byProjectId record
  = match indexed record with
    | Some (key, entry) =>
        match map_get key byProjectId with
        | Some bucket => map_set key (bucket ++ [entry]) byProjectId
        | None => map_set key [entry] byProjectId
        end
    | None => byProjectId
    end.
Proof.
  unfold index_step, indexed. destruct record as [| | | | |fields]; try reflexivity.
  destruct (obj_get "project_id" fields) as [projectIdentifier|] eqn:Hp;
    [|reflexivity].
  destruct (isMeaningless projectIdentifier); [reflexivity|].
  destruct (hasMeaningfulAmount (obj_get "amount" fields)); cbn [negb];
    [|reflexivity].
  pose proof (sanitized_with_project_id fields projectIdentifier Hp) as Hne.
  destruct (sanitizeFundingRecord fields); [contradiction | reflexivity].
Qed.

Definition extend (bucket : option (list JsonObject)) (entries : list JsonObject)
  : option (list JsonObject) :=
  match bucket, entries with
  | None, [] => None
  | None, _ => Some entries
  | Some b, _ => Some (b ++ entries)
  end.

Lemma index_lookup K input : forall byProjectId,
  map_get K (fold_left index_step input byProjectId)
  = extend (map_get K byProjectId) (bucket_of K input).
Proof.
  induction input as [|record input IH]; intros byProjectId.
  - cbn [fold_left bucket_of flat_map].
    destruct (map_get K byProjectId); cbn [extend]; [now rewrite app_nil_r | reflexivity].
  - cbn [fold_left]. rewrite IH, index_step_indexed. unfold bucket_of.
    cbn [flat_map]. fold (bucket_of K input).
    destruct (indexed record) as [[key entry]|]; [|reflexivity].
    destruct (String.eqb_spec key K) as [->|Hne].
    + destruct (map_get K byProjectId) as [bucket|]; rewrite map_get_set_same;
        cbn [extend app]; [now rewrite <- app_assoc | reflexivity].
    + assert (HK : K <> key) by congruence. cbn [app].
      destruct (map_get key byProjectId); now rewrite map_get_set_other.
Qed.

Lemma index_keys input : forall byProjectId,
  keys (fold_left index_step input byProjectId)
  = fold_left note (indexed_keys input) (keys byProjectId).
Proof.
  induction input as [|record input IH]; intros byProjectId; [reflexivity|].
  cbn [fold_left]. rewrite IH, index_step_indexed. unfold indexed_keys.
  cbn [flat_map]. fold (indexed_keys input).
  destruct (indexed record) as [[key entry]|]; [|reflexivity].
  cbn [app fold_left]. f_equal. unfold note.
  destruct (map_get key byProjectId) as [bucket|] eqn:Hg.
  - assert (Ha : absent_from (keys byProjectId) key = false).
    { destruct (absent_from (keys byProjectId) key) eqn:E; [|reflexivity].
      apply absent_from_In in E. apply map_get_None in E. congruence. }
    rewrite Ha. apply keys_map_set_old. congruence.
  - assert (Ha : absent_from (keys byProjectId) key = true)
      by (apply absent_from_In; now apply map_get_None).
    rewrite Ha, map_set_new by assumption. unfold keys. now rewrite map_app.
Qed.

Lemma map_get_of_In {V : Type} k (v : V) m :
  NoDup (keys m) -> In (k, v) m -> map_get k m = Some v.
Proof.
  induction m as [|[k' v'] m IH]; intros Hnd Hin; [destruct Hin|].
  cbn [map_get]. inversion Hnd as [|? ? Hk Hnd']; subst.
  destruct Hin as [[= -> ->]|Hin].
  - now rewrite String.eqb_refl.
  - destruct (String.eqb_spec k k') as [->|Hne]; [|now apply IH].
    exfalso. apply Hk. unfold keys. apply in_map_iff. now exists (k', v).
Qed.

Lemma buildFundingIndex_get K input :
  map_get K (buildFundingIndex input)
  = match bucket_of K input with
    | [] => None
    | bucket => Some bucket
    end.
Proof.
  unfold buildFundingIndex. rewrite index_lookup. cbn [map_get extend].
  now destruct (bucket_of K input).
Qed.

Lemma buildFundingIndex_keys input :
  keys (buildFundingIndex input) = first_occurrences (indexed_keys input).
Proof. unfold buildFundingIndex. rewrite index_keys. apply fold_note_nil. Qed.

Lemma buildFundingIndex_In input k bucket :
  In (k, bucket) (buildFundingIndex input) ->
  bucket = bucket_of k input /\ bucket <> [].
Proof.
  intros Hin. apply map_get_of_In in Hin;
    [|rewrite buildFundingIndex_keys; apply NoDup_first_occurrences].
  rewrite buildFundingIndex_get in Hin.
  destruct (bucket_of k input); [discriminate|]. injection Hin as <-.
  split; [reflexivity | discriminate].
Qed.

End FundingIndex.

(** X18.  [buildFundingIndex] maps the identity key of a project to the
    sanitized records indexed under that key, in input order; a record is
    indexed when it is an object whose [project_id] is neither null nor
    blank and whose [amount] is meaningful.  A key without such a record
    is not in the index, the keys come in the order of their first
    record, and no bucket is empty. *)
Theorem funding_index_lookup
  {host : Host} {numbers : NumberHost} (input : list JsonValue) (K : string) :
  map_get K (buildFundingIndex input)
  = match bucket_of K input with
    | [] => None
    | bucket => Some bucket
    end
  /\ keys (buildFundingIndex input) = first_occurrences (indexed_keys input)
  /\ forall k bucket, In (k, bucket) (buildFundingIndex input) -> bucket <> [].
Proof.
  split; [apply buildFundingIndex_get|]. split; [apply buildFundingIndex_keys|].
  intros k bucket Hin. now apply (buildFundingIndex_In input k).
Qed.

(** X19.  Every entry of the funding index is a non-empty object without
    internal keys, and it keeps its [project_id]. *)
Theorem funding_index_entries
  {host : Host} {numbers : NumberHost} (input : list JsonValue)
  (k : string) (bucket : list JsonObject) (entry : JsonObject) :
  In (k, bucket) (buildFundingIndex input) -> In entry bucket ->
  entry <> [] /\ no_internal_key entry /\ obj_has "project_id" entry = true.
Proof.
  intros Hin Hb. apply buildFundingIndex_In in Hin. destruct Hin as [-> _].
  unfold bucket_of in Hb. apply in_flat_map in Hb. destruct Hb as [record [_ Hb]].
  unfold indexed in Hb. destruct record as [| | | | |fields]; try destruct Hb.
  destruct (obj_get "project_id" fields) as [pid|] eqn:Hp; [|destruct Hb].
  destruct (isMeaningless pid); [destruct Hb|].
  destruct (hasMeaningfulAmount (obj_get "amount" fields)); [|destruct Hb].
  destruct (String.eqb (buildIdKey pid) k); [|destruct Hb].
  destruct Hb as [<-|[]]. split; [|split].
  - now apply (sanitized_with_project_id fields pid).
  - apply sanitizeFundingRecord_clean.
  - apply obj_has_In. apply sanitizeFundingRecord_keeps; [reflexivity|].
    apply obj_get_In in Hp. unfold keys. apply in_map_iff.
    now exists ("project_id", pid).
Qed.

(** A conversion for examples: decimal literals with an optional sign
    and fraction, and the empty text, which is zero; it holds any other
    text not to be a number (the runtime also reads exponents,
    [Infinity] and prefixed literals). *)
Module DecimalNumbers.

Fixpoint digits_kind (seen_digit seen_dot nonzero : bool) (s : string)
  : NumberKind :=
  match s with
  | EmptyString =>
      if seen_digit then (if nonzero then NonZero else IsZero) else NotANumber
  | String c s' =>
      if is_digit c then
        digits_kind true seen_dot (nonzero || negb (Ascii.eqb c "0")) s'
      else if Ascii.eqb c "." && negb seen_dot then
        digits_kind seen_digit true nonzero s'
      else NotANumber
  end.

Definition classify (s : string) : NumberKind :=
  match trim s with
  | EmptyString => IsZero
  | String c r =>
      if Ascii.eqb c "+" || Ascii.eqb c "-" then digits_kind false false false r
      else digits_kind false false false (String c r)
  end.

#[export] Instance decimal_numbers : NumberHost := {
  Number_of_string := classify
}.

End DecimalNumbers.

Module FundingIndexExample.
Import IsoHost DecimalNumbers.

Definition dataset : list JsonValue :=
  [JObject [("project_id", JString "p"); ("amount", JString "1,000");
            ("round_id", JString "7"); ("_dlt_id", JString "x")];
   JObject [("project_id", JString "p"); ("amount", JString "0.00")];
   JObject [("project_id", JString "q"); ("amount", JString ",")];
   JObject [("project_id", JNull); ("amount", JNumber 5)];
   JString "p";
   JObject [("project_id", JString "p"); ("amount", JString "n/a")]].

Definition bucket : list JsonObject :=
  [[("project_id", JString "p"); ("amount", JString "1,000");
    ("round_id", JString "7")];
   [("project_id", JString "p"); ("amount", JString "n/a")]].

Lemma funding_index_entries_witness :
  buildFundingIndex dataset = [("p", bucket)]
  /\ Forall (fun entry => entry <> [] /\ no_internal_key entry
                          /\ obj_has "project_id" entry = true) bucket.
Proof.
  split; [reflexivity|]. apply Forall_forall. intros entry Hin.
  apply (funding_index_entries dataset "p" bucket entry); [now left | exact Hin].
Defined.

End FundingIndexExample.

(** * Combining project rows (fetch script) *)

(** [combineProjectRepos] of the script that fetches the projects: the
    rows of the join of projects and repositories, one row per
    repository of a project, are combined into one project per
    identifier.  A column that may be null is an option. *)

Module OpAtlasProject.
Record t : Type := {
  id : string;
  name : string;
  description : option string;
  category : option string;
  thumbnail_url : option string;
  banner_url : option string;
  twitter : option string;
  repo_url : option string
}.
End OpAtlasProject.

Module CombinedProject.
Record t : Type := {
  id : string;
  name : string;
  description : option string;
  category : option string;
  thumbnail_url : option string;
  banner_url : option string;
  twitter : option string;
  repos : list string
}.
End CombinedProject.

Section CombineProjects.

(** [row.repo_url] when it is truthy: neither null nor empty. *)
Definition truthy_url (row : OpAtlasProject.t) : option string :=
  match OpAtlasProject.repo_url row with
  | Some EmptyString | None => None
  | Some url => Some url
  end.

(** [repos.includes(url)] *)
Definition includes (repos : list string) (url : string) : bool :=
  existsb (String.eqb url) repos.

Definition new_project (row : OpAtlasProject.t) : CombinedProject.t :=
  {| CombinedProject.id := OpAtlasProject.id row;
     CombinedProject.name := OpAtlasProject.name row;
     CombinedProject.description := OpAtlasProject.description row;
     CombinedProject.category := OpAtlasProject.category row;
     CombinedProject.thumbnail_url := OpAtlasProject.thumbnail_url row;
     CombinedProject.banner_url := OpAtlasProject.banner_url row;
     CombinedProject.twitter := OpAtlasProject.twitter row;
     CombinedProject.repos :=
       match truthy_url row with
       | Some url => [url]
       | None => []
       end |}.

(** [existing.repos.push(url)] *)
Definition push_repo (existing : CombinedProject.t) (url : string)
  : CombinedProject.t :=
  {| CombinedProject.id := CombinedProject.id existing;
     CombinedProject.name := CombinedProject.name existing;
     CombinedProject.description := CombinedProject.description existing;
     CombinedProject.category := CombinedProject.category existing;
     CombinedProject.thumbnail_url := CombinedProject.thumbnail_url existing;
     CombinedProject.banner_url := CombinedProject.banner_url existing;
     CombinedProject.twitter := CombinedProject.twitter existing;
     CombinedProject.repos := CombinedProject.repos existing ++ [url] |}.

(** The body of the loop, on the map [projectsMap]. *)
Definition combine_step (projectsMap : list (string * CombinedProject.t))
  (row : OpAtlasProject.t) : list (string * CombinedProject.t) :=
  match map_get (OpAtlasProject.id row) projectsMap with
  | Some existing =>
      match truthy_url row with
      | Some url =>
          if includes (CombinedProject.repos existing) url then projectsMap
          else map_set (OpAtlasProject.id row) (push_repo existing url) projectsMap
      | None => projectsMap
      end
  | None => map_set (OpAtlasProject.id row) (new_project row) projectsMap
  end.

Definition combineProjectRepos (rows : list OpAtlasProject.t)
  : list (string * CombinedProject.t) :=
  fold_left combine_step rows [].

(** The three numbers that the function prints: the projects, the
    projects with a repository, the repositories. *)
Definition unique_projects (projectsMap : list (string * CombinedProject.t)) : nat :=
  List.length projectsMap.

Definition projectsWithRepos (projectsMap : list (string * CombinedProject.t)) : nat :=
  List.length
    (filter (fun p => (0 <? List.length (CombinedProject.repos p))%nat)
       (map snd projectsMap)).

Definition totalRepos (projectsMap : list (string * CombinedProject.t)) : nat :=
  fold_left (fun sum p => (sum + List.length (CombinedProject.repos p))%nat)
    (map snd projectsMap) 0%nat.

(** The rows of the project [i], in order. *)
Definition rows_of (i : string) (rows : list OpAtlasProject.t)
  : list OpAtlasProject.t :=
  filter (fun row => String.eqb (OpAtlasProject.id row) i) rows.

(** The truthy repository addresses of some rows, in order. *)
Definition urls_of (rows : list OpAtlasProject.t) : list string :=
  flat_map (fun row => match truthy_url row with Some url => [url] | None => [] end)
    rows.

(** What the loop does to the project of an identifier when a row of
    that identifier arrives. *)
Definition project_step (p : option CombinedProject.t) (row : OpAtlasProject.t)
  : option CombinedProject.t :=
  match p with
  | None => Some (new_project row)
  | Some existing =>
      match truthy_url row with
      | Some url =>
          if includes (CombinedProject.repos existing) url then Some existing
          else Some (push_repo existing url)
      | None => Some existing
      end
  end.

Lemma combine_lookup i rows : forall projectsMap,
  map_get i (fold_left combine_step rows projectsMap)
  = fold_left project_step (rows_of i rows) (map_get i projectsMap).
Proof.
  induction rows as [|row rows IH]; intros projectsMap; [reflexivity|].
  cbn [fold_left rows_of filter]. fold (rows_of i rows). rewrite IH.
  unfold combine_step.
  destruct (String.eqb_spec (OpAtlasProject.id row) i) as [<-|Hne].
  - cbn [fold_left]. f_equal. unfold project_step.
    destruct (map_get (OpAtlasProject.id row) projectsMap) as [existing|] eqn:Hg.
    + destruct (truthy_url row) as [url|]; [|exact Hg].
      destruct (includes (CombinedProject.repos existing) url); [exact Hg|].
      apply map_get_set_same.
    + apply map_get_set_same.
  - f_equal. assert (Hi : i <> OpAtlasProject.id row) by congruence.
    destruct (map_get (OpAtlasProject.id row) projectsMap) as [existing|].
    + destruct (truthy_url row) as [url|]; [|reflexivity].
      destruct (includes (CombinedProject.repos existing) url); [reflexivity|].
      now apply map_get_set_other.
    + now apply map_get_set_other.
Qed.

Lemma combine_keys rows : forall projectsMap,
  keys (fold_left combine_step rows projectsMap)
  = fold_left note (map OpAtlasProject.id rows) (keys projectsMap).
Proof.
  induction rows as [|row rows IH]; intros projectsMap; [reflexivity|].
  cbn [fold_left map]. rewrite IH. f_equal. unfold combine_step, note.
  destruct (map_get (OpAtlasProject.id row) projectsMap) as [existing|] eqn:Hg.
  - assert (Ha : absent_from (keys projectsMap) (OpAtlasProject.id row) = false).
    { destruct (absent_from (keys projectsMap) (OpAtlasProject.id row)) eqn:E;
        [|reflexivity].
      apply absent_from_In in E. apply map_get_None in E. congruence. }
    rewrite Ha. destruct (truthy_url row) as [url|]; [|reflexivity].
    destruct (includes (CombinedProject.repos existing) url); [reflexivity|].
    apply keys_map_set_old. congruence.
  - assert (Ha : absent_from (keys projectsMap) (OpAtlasProject.id row) = true)
      by (apply absent_from_In; now apply map_get_None).
    rewrite Ha, map_set_new by assumption. unfold keys. now rewrite map_app.
Qed.

(** The project fields other than the repositories are never changed
    once set, and the repositories grow as the key list [note] does. *)
Definition same_fields (p : CombinedProject.t) (row : OpAtlasProject.t) : Prop :=
  CombinedProject.id p = OpAtlasProject.id row
  /\ CombinedProject.name p = OpAtlasProject.name row
  /\ CombinedProject.description p = OpAtlasProject.description row
  /\ CombinedProject.category p = OpAtlasProject.category row
  /\ CombinedProject.thumbnail_url p = OpAtlasProject.thumbnail_url row
  /\ CombinedProject.banner_url p = OpAtlasProject.banner_url row
  /\ CombinedProject.twitter p = OpAtlasProject.twitter row.

Lemma project_step_repos p row first :
  same_fields p first ->
  exists p',
    project_step (Some p) row = Some p'
    /\ same_fields p' first
    /\ CombinedProject.repos p'
       = fold_left note (urls_of [row]) (CombinedProject.repos p).
Proof.
  intros Hs. unfold project_step, urls_of. cbn [flat_map].
  destruct (truthy_url row) as [url|]; cbn [app fold_left].
  - unfold note, absent_from, includes.
    destruct (existsb (String.eqb url) (CombinedProject.repos p)); cbn [negb].
    + exists p. auto.
    + exists (push_repo p url). split; [reflexivity|]. split; [exact Hs | reflexivity].
  - exists p. auto.
Qed.

Lemma project_loop_repos rows : forall p first,
  same_fields p first ->
  exists p',
    fold_left project_step rows (Some p) = Some p'
    /\ same_fields p' first
    /\ CombinedProject.repos p'
       = fold_left note (urls_of rows) (CombinedProject.repos p).
Proof.
  induction rows as [|row rows IH]; intros p first Hs.
  - exists p. auto.
  - cbn [fold_left].
    destruct (project_step_repos p row first Hs) as [p1 [-> [Hs1 Hr1]]].
    destruct (IH p1 first Hs1) as [p' [Hp' [Hs' Hr']]].
    exists p'. split; [exact Hp'|]. split; [exact Hs'|].
    rewrite Hr', Hr1. unfold urls_of. cbn [flat_map].
    now rewrite app_nil_r, fold_left_app.
Qed.

Lemma combined_project i rows first rest :
  rows_of i rows = first :: rest ->
  exists p,
    map_get i (combineProjectRepos rows) = Some p
    /\ same_fields p first
    /\ CombinedProject.repos p = first_occurrences (urls_of (first :: rest)).
Proof.
  intros Hr. unfold combineProjectRepos. rewrite combine_lookup, Hr.
  cbn [map_get fold_left project_step].
  destruct (project_loop_repos rest (new_project first) first) as [p [Hp [Hs Hrp]]].
  { repeat split. }
  exists p. split; [exact Hp|]. split; [exact Hs|].
  rewrite Hrp. cbn [new_project CombinedProject.repos].
  rewrite <- fold_note_nil. unfold urls_of at 2. cbn [flat_map].
  rewrite fold_left_app. f_equal.
  destruct (truthy_url first); reflexivity.
Qed.

End CombineProjects.

Section CombineCounts.

Definition sum_repos (projectsMap : list (string * CombinedProject.t)) : nat :=
  fold_right (fun kp n => (List.length (CombinedProject.repos (snd kp)) + n)%nat)
    0%nat projectsMap.

Lemma totalRepos_sum projectsMap : totalRepos projectsMap = sum_repos projectsMap.
Proof.
  unfold totalRepos.
  assert (H : forall a,
             fold_left (fun sum p => (sum + List.length (CombinedProject.repos p))%nat)
               (map snd projectsMap) a
             = (a + sum_repos projectsMap)%nat).
  { induction projectsMap as [|kp m IH]; intros a.
    - cbn. lia.
    - cbn [map fold_left sum_repos fold_right]. rewrite IH. unfold sum_repos. lia. }
  now rewrite H.
Qed.

Lemma sum_repos_app a b : sum_repos (a ++ b) = (sum_repos a + sum_repos b)%nat.
Proof.
  induction a as [|kp a IH]; [reflexivity|].
  cbn [app]. unfold sum_repos in *. cbn [fold_right]. rewrite IH. lia.
Qed.

Lemma sum_repos_set_old k p p0 m :
  map_get k m = Some p0 ->
  (sum_repos (map_set k p m) + List.length (CombinedProject.repos p0)
   = sum_repos m + List.length (CombinedProject.repos p))%nat.
Proof.
  induction m as [|[k1 p1] m IH]; cbn [map_get map_set]; [discriminate|].
  destruct (String.eqb k k1); cbn [sum_repos fold_right snd].
  - intros [= ->]. lia.
  - intros H. specialize (IH H). unfold sum_repos in IH. lia.
Qed.

Lemma combine_step_counts projectsMap row :
  (sum_repos (combine_step projectsMap row)
   <= sum_repos projectsMap + List.length (urls_of [row]))%nat
  /\ (List.length (combine_step projectsMap row) <= S (List.length projectsMap))%nat.
Proof.
  unfold combine_step, urls_of. cbn [flat_map]. rewrite app_nil_r.
  destruct (map_get (OpAtlasProject.id row) projectsMap) as [existing|] eqn:Hg.
  - destruct (truthy_url row) as [url|]; [|split; lia].
    destruct (includes (CombinedProject.repos existing) url); [split; cbn; lia|].
    split; [|apply length_map_set].
    pose proof (sum_repos_set_old _ (push_repo existing url) _ _ Hg) as H.
    cbn [push_repo CombinedProject.repos] in H. rewrite length_app in H.
    cbn [List.length] in *. lia.
  - rewrite map_set_new by assumption. rewrite sum_repos_app, length_app.
    cbn [sum_repos fold_right snd new_project CombinedProject.repos List.length].
    destruct (truthy_url row); cbn [List.length]; split; lia.
Qed.

Lemma combine_counts rows : forall projectsMap,
  (sum_repos (fold_left combine_step rows projectsMap)
   <= sum_repos projectsMap + List.length (urls_of rows))%nat
  /\ (List.length (fold_left combine_step rows projectsMap)
      <= List.length projectsMap + List.length rows)%nat.
Proof.
  induction rows as [|row rows IH]; intros projectsMap;
    [cbn [fold_left urls_of flat_map List.length]; split; lia|].
  cbn [fold_left]. destruct (IH (combine_step projectsMap row)) as [H1 H2].
  destruct (combine_step_counts projectsMap row) as [H3 H4].
  unfold urls_of in *. cbn [flat_map List.length] in *.
  rewrite length_app. rewrite app_nil_r in H3. lia.
Qed.

Lemma urls_of_length rows : (List.length (urls_of rows) <= List.length rows)%nat.
Proof.
  induction rows as [|row rows IH]; [cbn; lia|].
  unfold urls_of in *. cbn [flat_map List.length]. rewrite length_app.
  destruct (truthy_url row); cbn [List.length]; lia.
Qed.

Lemma urls_of_truthy rows url : In url (urls_of rows) -> url <> EmptyString.
Proof.
  unfold urls_of. intros Hin. apply in_flat_map in Hin.
  destruct Hin as [row [_ Hin]]. unfold truthy_url in Hin.
  destruct (OpAtlasProject.repo_url row) as [[|c u]|];
    [destruct Hin | destruct Hin as [<-|[]]; discriminate | destruct Hin].
Qed.

End CombineCounts.

(** X20.  [combineProjectRepos] keeps one project per identifier, in the
    order in which the identifiers first occur in the rows.  The project
    of an identifier takes its name and its other columns from the first
    row of that identifier, and its repositories are the addresses,
    neither null nor empty, of the rows of that identifier, each once,
    in the order of their first occurrence. *)
Theorem combined_project_of_its_rows
  (rows : list OpAtlasProject.t) (i : string) :
  keys (combineProjectRepos rows) = first_occurrences (map OpAtlasProject.id rows)
  /\ match rows_of i rows with
     | [] => map_get i (combineProjectRepos rows) = None
     | first :: rest =>
         exists p,
           map_get i (combineProjectRepos rows) = Some p
           /\ same_fields p first
           /\ CombinedProject.repos p = first_occurrences (urls_of (first :: rest))
     end.
Proof.
  split.
  - unfold combineProjectRepos. rewrite combine_keys. apply fold_note_nil.
  - destruct (rows_of i rows) as [|first rest] eqn:Hr.
    + unfold combineProjectRepos. now rewrite combine_lookup, Hr.
    + now apply combined_project.
Qed.

(** X21.  In the combined projects, a project is stored under its own
    identifier, its repositories are pairwise distinct and none is
    empty; there are at most as many projects as rows, at most as many
    projects with repositories as projects, and at most as many
    repositories in all as rows. *)
Theorem combined_projects_are_counted (rows : list OpAtlasProject.t) :
  let projectsMap := combineProjectRepos rows in
  (forall i p, In (i, p) projectsMap ->
     CombinedProject.id p = i
     /\ NoDup (CombinedProject.repos p)
     /\ forall url, In url (CombinedProject.repos p) -> url <> EmptyString)
  /\ (projectsWithRepos projectsMap <= unique_projects projectsMap)%nat
  /\ (unique_projects projectsMap <= List.length rows)%nat
  /\ (totalRepos projectsMap <= List.length rows)%nat.
Proof.
  cbv zeta. split; [|split; [|split]].
  - intros i p Hin.
    assert (Hk : NoDup (keys (combineProjectRepos rows))).
    { unfold combineProjectRepos. rewrite combine_keys, fold_note_nil.
      apply NoDup_first_occurrences. }
    apply (map_get_of_In i p _ Hk) in Hin.
    destruct (rows_of i rows) as [|first rest] eqn:Hr.
    + unfold combineProjectRepos in Hin. rewrite combine_lookup, Hr in Hin.
      discriminate.
    + destruct (combined_project i rows first rest Hr) as [p' [Hp' [Hs Hrp]]].
      rewrite Hin in Hp'. injection Hp' as <-.
      assert (Hf : In first (rows_of i rows)) by (rewrite Hr; now left).
      apply filter_In in Hf. destruct Hf as [_ Hf]. apply String.eqb_eq in Hf.
      destruct Hs as [Hid _]. split; [congruence|]. rewrite Hrp. split.
      * apply NoDup_first_occurrences.
      * intros url Hu. apply (proj1 (In_first_occurrences _ _)) in Hu.
        exact (urls_of_truthy (first :: rest) url Hu).
  - unfold projectsWithRepos, unique_projects.
    rewrite <- (length_map snd (combineProjectRepos rows)). apply filter_length_le.
  - unfold unique_projects, combineProjectRepos.
    destruct (combine_counts rows []) as [_ H]. cbn in H. exact H.
  - rewrite totalRepos_sum. unfold combineProjectRepos.
    destruct (combine_counts rows []) as [H _]. cbn in H.
    pose proof (urls_of_length rows). lia.
Qed.

(** * The run of the collapse script *)

(** The file system, the [path] module and [JSON.stringify(value, null,
    2)] belong to the platform. *)
Class Platform : Type := {
  (** [path.isAbsolute(p)] *)
  path_isAbsolute : string -> bool;
  (** [path.resolve(process.cwd(), p)] *)
  path_resolve : string -> string;
  (** [path.parse(p)]: [dir], [name] and [ext]. *)
  path_parse : string -> string * string * string;
  (** [path.join(dir, base)] *)
  path_join : string -> string -> string;
  (** [readFile(p, 'utf-8')]: [None] when the promise is rejected. *)
  readFile : string -> option string;
  (** [writeFile(p, text)]: [false] when the promise is rejected. *)
  writeFile : string -> string -> bool;
  (** [JSON.stringify(records, null, 2)] *)
  JSON_stringify : list JsonObject -> string
}.

(** What the run prints, without the texts of the errors. *)
Inductive Message : Type :=
| Usage
| FailedToReadInput (absoluteInputPath : string)
| UnableToParseInput
| FailedToReadFunding (label absolutePath : string)
| FailedToParseFunding (label absolutePath : string)
| FailedToWriteOutput (outputPath : string)
| UnexpectedError
| Summary (text : string).

(** The state of the process after the run: the exit code (0 when
    [process.exitCode] was not set), the console, the files written. *)
Record Outcome : Type := {
  exitCode : Z;
  console : list Message;
  written : list (string * string)
}.

Section Run.
Context {host : Host} {numbers : NumberHost} {platform : Platform}.

Definition resolveAbsolutePath (inputPath : string) : string :=
  if path_isAbsolute inputPath then inputPath else path_resolve inputPath.

(** A string argument that is given and not empty. *)
Definition truthy (arg : option string) : option string :=
  match arg with
  | Some EmptyString | None => None
  | Some s => Some s
  end.

Definition resolveOutputPath (inputPath : string) (outputPathArg : option string)
  : string :=
  match truthy outputPathArg with
  | Some arg => resolveAbsolutePath arg
  | None =>
      let '(dir, name, ext) := path_parse inputPath in
      let suffix := ".collapsed" in
      let finalExt := match ext with EmptyString => ".json" | _ => ext end in
      path_join dir (name ++ suffix ++ finalExt)
  end.

(** [loadFundingIndex]: the index, or the message of the error that it
    throws. *)
Definition loadFundingIndex (pathArg label : string)
  : Message + list (string * list JsonObject) :=
  let absolutePath := resolveAbsolutePath pathArg in
  match readFile absolutePath with
  | None => inl (FailedToReadFunding label absolutePath)
  | Some raw =>
      match parseRecords raw with
      | inl _ => inl (FailedToParseFunding label absolutePath)
      | inr parsed => inr (buildFundingIndex parsed)
      end
  end.

(** The text that [logSummary] prints. *)
Definition logSummary (summary : CollapseSummary)
  (outputPath idField metadataField : string) : string :=
  String.concat (String LF "")
    ["Collapsed records written to " ++ outputPath;
     "  Total input records: " ++ number_to_string (totalRecords summary);
     "  Unique ids: " ++ number_to_string (uniqueIds summary);
     "  Records used (latest " ++ metadataField ++ "): "
       ++ number_to_string (usedRecords summary);
     "  Records merged: " ++ number_to_string (mergedRecords summary);
     "  Records skipped (missing " ++ idField ++ "): "
       ++ number_to_string (missingId summary);
     "  Records skipped (missing " ++ metadataField ++ "): "
       ++ number_to_string (missingMetadata summary);
     "  Records skipped (older " ++ metadataField ++ "): "
       ++ number_to_string (olderRecordsSkipped summary)]%string.

Definition failed (message : Message) : Outcome :=
  {| exitCode := 1; console := [message]; written := [] |}.

(** An optional funding dataset: not asked for, loaded, or failed. *)
Definition load_optional (pathArg : option string) (label : string)
  : Message + option (list (string * list JsonObject)) :=
  match truthy pathArg with
  | None => inr None
  | Some p =>
      match loadFundingIndex p label with
      | inl message => inl message
      | inr index => inr (Some index)
      end
  end.

(** [main], with the handler of its rejection; [args] is
    [process.argv.slice(2)]. *)
Definition main (args : list string) : Outcome :=
  match truthy (nth_error args 0) with
  | None => failed Usage
  | Some inputPath =>
      let idField := match nth_error args 2 with Some f => f | None => "id" end in
      let metadataField :=
        match nth_error args 3 with
        | Some f => f
        | None => "last_metadata_update"
        end in
      let absoluteInputPath := resolveAbsolutePath inputPath in
      let outputPath := resolveOutputPath absoluteInputPath (nth_error args 1) in
      match readFile absoluteInputPath with
      | None => failed (FailedToReadInput absoluteInputPath)
      | Some raw =>
          match parseRecords raw with
          | inl _ => failed UnableToParseInput
          | inr parsed =>
              let (collapsed, summary) :=
                collapseRecords parsed idField metadataField in
              match load_optional (nth_error args 4) "self-reported funding" with
              | inl message => failed message
              | inr selfFunding =>
                  match load_optional (nth_error args 5) "OP rewards" with
                  | inl message => failed message
                  | inr opRewards =>
                      match applyFundingAttachments collapsed idField
                              [("selfReportedFunding", selfFunding);
                               ("opRewards", opRewards)] with
                      | None => failed UnexpectedError
                      | Some finalRecords =>
                          if writeFile outputPath (JSON_stringify finalRecords)
                          then
                            {| exitCode := 0;
                               console :=
                                 [Summary (logSummary summary outputPath idField
                                             metadataField)];
                               written :=
                                 [(outputPath, JSON_stringify finalRecords)] |}
                          else failed (FailedToWriteOutput outputPath)
                      end
                  end
              end
          end
      end
  end.

End Run.

(** X22.  A run either fails or completes.  A run that fails sets the
    exit code to 1, prints one message that is not the summary and
    writes no file.  A run that completes leaves the exit code at 0,
    prints the summary and writes one file: the input was read and
    parsed, each funding dataset is the index of the file named by the
    fifth or the sixth argument, or none when the argument is missing or
    empty, and the file holds the collapsed records of the input with
    the two datasets attached. *)
Theorem run_completes_or_writes_nothing
  {host : Host} {numbers : NumberHost} {platform : Platform} (args : list string) :
  let idField := match nth_error args 2 with Some f => f | None => "id" end in
  let metadataField :=
    match nth_error args 3 with Some f => f | None => "last_metadata_update" end in
  (exitCode (main args) = 1
   /\ written (main args) = []
   /\ exists message,
        console (main args) = [message] /\ forall text, message <> Summary text)
  \/ (exitCode (main args) = 0
      /\ exists inputPath raw parsed selfFunding opRewards finalRecords,
           truthy (nth_error args 0) = Some inputPath
           /\ readFile (resolveAbsolutePath inputPath) = Some raw
           /\ parseRecords raw = inr parsed
           /\ load_optional (nth_error args 4) "self-reported funding"
              = inr selfFunding
           /\ load_optional (nth_error args 5) "OP rewards" = inr opRewards
           /\ applyFundingAttachments
                (fst (collapseRecords parsed idField metadataField)) idField
                [("selfReportedFunding", selfFunding); ("opRewards", opRewards)]
              = Some finalRecords
           /\ written (main args)
              = [(resolveOutputPath (resolveAbsolutePath inputPath) (nth_error args 1),
                  JSON_stringify finalRecords)]
           /\ console (main args)
              = [Summary
                   (logSummary (snd (collapseRecords parsed idField metadataField))
                      (resolveOutputPath (resolveAbsolutePath inputPath)
                         (nth_error args 1))
                      idField metadataField)]).
Proof.
  cbv zeta. unfold main.
  assert (Hf : forall message,
             (forall text, message <> Summary text) ->
             exitCode (failed message) = 1
             /\ written (failed message) = []
             /\ exists m, console (failed message) = [m]
                          /\ forall text, m <> Summary text).
  { intros message Hm. repeat split. exists message. split; [reflexivity | exact Hm]. }
  destruct (truthy (nth_error args 0)) as [inputPath|]; [|left; now apply Hf].
  destruct (readFile (resolveAbsolutePath inputPath)) as [raw|] eqn:Er;
    [|left; now apply Hf].
  destruct (parseRecords raw) as [e|parsed] eqn:Ep; [left; now apply Hf|].
  destruct (collapseRecords parsed _ _) as [collapsed summary] eqn:Ec.
  destruct (load_optional (nth_error args 4) "self-reported funding")
    as [m1|selfFunding] eqn:E1.
  { left. apply Hf. unfold load_optional in E1.
    destruct (truthy (nth_error args 4)) as [p|]; [|discriminate].
    unfold loadFundingIndex in E1.
    destruct (readFile (resolveAbsolutePath p)); [|injection E1 as <-; discriminate].
    destruct (parseRecords s); [injection E1 as <-|]; discriminate. }
  destruct (load_optional (nth_error args 5) "OP rewards") as [m2|opRewards] eqn:E2.
  { left. apply Hf. unfold load_optional in E2.
    destruct (truthy (nth_error args 5)) as [p|]; [|discriminate].
    unfold loadFundingIndex in E2.
    destruct (readFile (resolveAbsolutePath p)); [|injection E2 as <-; discriminate].
    destruct (parseRecords s); [injection E2 as <-|]; discriminate. }
  destruct (applyFundingAttachments collapsed _ _) as [finalRecords|] eqn:Ea;
    [|left; now apply Hf].
  destruct (writeFile _ (JSON_stringify finalRecords)); [|left; now apply Hf].
  right. split; [reflexivity|].
  exists inputPath, raw, parsed, selfFunding, opRewards, finalRecords.
  cbn [written console]. split; [reflexivity|]. split; [exact Er|].
  split; [exact Ep|]. split; [reflexivity|]. split; [reflexivity|].
  rewrite Ec. cbn [fst snd]. split; [exact Ea|].
  split; reflexivity.
Qed.

(** ** Identity keys, repository keys, and the later of two entries *)


(** X24.  [pickLatestByUpdatedAt] throws exactly when one of the two
    entries has no [updated_at]; otherwise it returns one of the two
    entries, the right one only if its timestamp is strictly later when
    both have a timestamp. *)
Theorem latest_entry_is_one_of_the_two
  {host : Host} (left right : JsonObject) :
  (pickLatestByUpdatedAt left right = None <->
   obj_get "updated_at" left = None \/ obj_get "updated_at" right = None)
  /\ (forall choice, pickLatestByUpdatedAt left right = Some choice ->
        choice = left \/ choice = right)
  /\ (forall tl tr,
        toTimestamp_of (obj_get "updated_at" left) = Some tl ->
        toTimestamp_of (obj_get "updated_at" right) = Some tr ->
        pickLatestByUpdatedAt left right = Some (if tr >? tl then right else left)).
Proof.
  split; [|split].
  - unfold pickLatestByUpdatedAt.
    destruct (obj_get "updated_at" left) as [ul|];
      destruct (obj_get "updated_at" right) as [ur|];
      cbn [toTimestamp_of toComparableString_of bind].
    + destruct (toTimestamp ul), (toTimestamp ur);
        try destruct (String.eqb (toComparableString ul) (toComparableString ur));
        split; try discriminate; intros [H|H]; discriminate.
    + destruct (toTimestamp ul); split; auto.
    + split; auto.
    + split; auto.
  - intros choice. apply pickLatestByUpdatedAt_choice.
  - intros tl tr Hl Hr. unfold pickLatestByUpdatedAt. now rewrite Hl, Hr.
Qed.

(** How a repository is identified: by its trimmed [url], else by its
    trimmed [id], else by its trimmed [type], else by its serialization. *)
Inductive RepositoryIdentity : Type :=
| ByUrl (url : string)
| ById (id : string)
| ByType (type : string)
| Anonymous (serialized : string).

Definition repository_identity {host : Host} (repository : JsonObject)
  : RepositoryIdentity :=
  match trimmed_string (obj_get "url" repository) with
  | Some url => ByUrl url
  | None =>
      match trimmed_string (obj_get "id" repository) with
      | Some id => ById id
      | None =>
          match trimmed_string (obj_get "type" repository) with
          | Some type => ByType type
          | None => Anonymous (stableStringify (JObject repository))
          end
      end
  end.

Definition key_of_identity (i : RepositoryIdentity) : string :=
  match i with
  | ByUrl url => "url:" ++ url
  | ById id => "id:" ++ id
  | ByType type => "type:" ++ type
  | Anonymous serialized => "anon:" ++ serialized
  end%string.

Lemma key_of_identity_inj i j : key_of_identity i = key_of_identity j -> i = j.
Proof.
  destruct i, j; cbn [key_of_identity append]; intros H;
    try discriminate H; injection H as ->; reflexivity.
Qed.

Lemma buildRepositoryKey_identity {host : Host} (a : JsonObject) :
  buildRepositoryKey a = key_of_identity (repository_identity a).
Proof.
  unfold buildRepositoryKey, repository_identity.
  destruct (trimmed_string (obj_get "url" a)); [reflexivity|].
  destruct (trimmed_string (obj_get "id" a)); [reflexivity|].
  destruct (trimmed_string (obj_get "type" a)); reflexivity.
Qed.

(** X25.  Two repositories have the same key exactly when they are
    identified in the same way and by the same text: a repository
    identified by its [url] never shares its key with one identified by
    its [id], its [type] or its content. *)
Theorem repository_key_tells_identity
  {host : Host} (a b : JsonObject) :
  buildRepositoryKey a = buildRepositoryKey b
  <-> repository_identity a = repository_identity b.
Proof.
  rewrite !buildRepositoryKey_identity. split.
  - apply key_of_identity_inj.
  - now intros ->.
Qed.

Module IdentityExample.
Import IsoHost.


End IdentityExample.

(** ** The shape of a merged record *)

(** X26.  The merged record of a group is an object that the runtime can
    hold, with pairwise distinct keys: first the fields merged by the
    field policy, none of which is internal, [repositories] or a [repo_]
    field, then [repositories], if any, as a list of non-empty objects
    without internal keys. *)
Theorem merged_record_has_fields_then_repositories
  {host : Host} (rs : list JsonObject) :
  wf_value (JObject (mergeGroupRecords rs)) = true
  /\ NoDup (keys (mergeGroupRecords rs))
  /\ exists fields tail,
       mergeGroupRecords rs = fields ++ tail
       /\ (forall k, In k (keys fields) -> ordinary_key k = true)
       /\ (tail = []
           \/ exists repos,
                tail = [("repositories", JArray (map JObject repos))]
                /\ Forall (fun r => r <> [] /\ no_internal_key r) repos).
Proof.
  destruct (mergeGroupRecords_shape rs) as [Hw Hs].
  split; [exact Hw|]. split; [now apply wf_object_NoDup | exact Hs].
Qed.

(** * Collecting the project identifiers of the rounds (fetch script) *)

Module RoundProject.
Record t : Type := {
  (** [undefined] when the entry has no identifier. *)
  op_atlas_id : option string;
  display_name : string
}.
End RoundProject.

(** The answer of the network to the request of a round's results:
    [None] when the request fails or the answer is not [ok]. *)
Class RoundResults : Type := {
  fetch_json : string -> option (list RoundProject.t)
}.

Section RoundIdentifiers.
Context {results : RoundResults}.

(** [fetchRoundData]: an error is caught and gives no project. *)
Definition fetchRoundData (month : string) : list RoundProject.t :=
  let url :=
    ("https://raw.githubusercontent.com/ethereum-optimism/Retro-Funding/refs/heads/main/results/S7/"
     ++ month ++ "/outputs/devtooling__results.json")%string in
  match fetch_json url with
  | Some data => data
  | None => []
  end.

(** The names [M1], ..., [M<lastMonth>]. *)
Definition months (lastMonth : Z) : list string :=
  map (fun i => ("M" ++ number_to_string (Z.of_nat i))%string)
    (seq 1 (Z.to_nat lastMonth)).

(** [opAtlasIds.add(id)], on the elements of the set in insertion order. *)
Definition add_project (opAtlasIds : list string) (project : RoundProject.t)
  : list string :=
  match RoundProject.op_atlas_id project with
  | Some EmptyString | None => opAtlasIds
  | Some id =>
      if existsb (String.eqb id) opAtlasIds then opAtlasIds else opAtlasIds ++ [id]
  end.

Definition fetchOpAtlasIdsFromGitHub (lastMonth : Z) : list string :=
  fold_left
    (fun opAtlasIds month => fold_left add_project (fetchRoundData month) opAtlasIds)
    (months lastMonth) [].

(** The identifiers, neither absent nor empty, of some projects. *)
Definition identifiers_of (projects : list RoundProject.t) : list string :=
  flat_map
    (fun project =>
       match RoundProject.op_atlas_id project with
       | Some EmptyString | None => []
       | Some id => [id]
       end)
    projects.

Lemma add_projects_note projects : forall opAtlasIds,
  fold_left add_project projects opAtlasIds
  = fold_left note (identifiers_of projects) opAtlasIds.
Proof.
  induction projects as [|project projects IH]; intros opAtlasIds; [reflexivity|].
  cbn [fold_left]. rewrite IH. unfold identifiers_of. cbn [flat_map].
  rewrite fold_left_app. f_equal. unfold add_project.
  destruct (RoundProject.op_atlas_id project) as [[|c id]|]; try reflexivity.
  cbn [fold_left]. unfold note, absent_from.
  now destruct (existsb (String.eqb (String c id)) opAtlasIds).
Qed.

Lemma add_months_note ms : forall opAtlasIds,
  fold_left
    (fun ids month => fold_left add_project (fetchRoundData month) ids)
    ms opAtlasIds
  = fold_left note (flat_map (fun month => identifiers_of (fetchRoundData month)) ms)
      opAtlasIds.
Proof.
  induction ms as [|month ms IH]; intros opAtlasIds; [reflexivity|].
  cbn [fold_left flat_map]. now rewrite IH, fold_left_app, add_projects_note.
Qed.

End RoundIdentifiers.

(** X27.  [fetchOpAtlasIdsFromGitHub] returns the project identifiers of
    the rounds [M1] to [M<lastMonth>], those that are neither absent nor
    empty, each once, in the order in which they first occur; a round
    whose results cannot be fetched gives none, and there is no round
    when [lastMonth] is below 1. *)
Theorem round_identifiers_are_collected_once
  {results : RoundResults} (lastMonth : Z) :
  fetchOpAtlasIdsFromGitHub lastMonth
  = first_occurrences
      (flat_map (fun month => identifiers_of (fetchRoundData month))
         (months lastMonth))
  /\ NoDup (fetchOpAtlasIdsFromGitHub lastMonth)
  /\ (forall id, In id (fetchOpAtlasIdsFromGitHub lastMonth) -> id <> EmptyString)
  /\ (lastMonth < 1 -> fetchOpAtlasIdsFromGitHub lastMonth = [])
  /\ List.length (months lastMonth) = Z.to_nat lastMonth.
Proof.
  assert (He : fetchOpAtlasIdsFromGitHub lastMonth
               = first_occurrences
                   (flat_map (fun month => identifiers_of (fetchRoundData month))
                      (months lastMonth))).
  { unfold fetchOpAtlasIdsFromGitHub. rewrite add_months_note. apply fold_note_nil. }
  split; [exact He|]. split; [rewrite He; apply NoDup_first_occurrences|].
  split; [|split].
  - intros id Hin. rewrite He in Hin. apply (proj1 (In_first_occurrences _ _)) in Hin.
    apply in_flat_map in Hin. destruct Hin as [month [_ Hin]].
    unfold identifiers_of in Hin. apply in_flat_map in Hin.
    destruct Hin as [project [_ Hin]].
    destruct (RoundProject.op_atlas_id project) as [[|c s]|];
      [destruct Hin | destruct Hin as [<-|[]]; discriminate | destruct Hin].
  - intros Hlt. unfold fetchOpAtlasIdsFromGitHub, months.
    replace (Z.to_nat lastMonth) with 0%nat by lia. reflexivity.
  - unfold months. now rewrite length_map, length_seq.
Qed.

(** * Joining the funding entries to the records *)

(** X28.  A record is joined to the funding dataset by its identity
    key: a record that carries the identity field gets, in the target
    field, the merge of what the field held with the entries indexed
    under the identity key of the record, in the order of the dataset;
    it is left as it is when no entry is indexed under that key. *)
Theorem funding_is_joined_by_identity_key
  {host : Host} {numbers : NumberHost} (dataset : list JsonValue)
  (idField targetField : string) (record : JsonObject) (identifier : JsonValue) :
  obj_get idField record = Some identifier ->
  attach_record (buildFundingIndex dataset) idField targetField record
  = match bucket_of (buildIdKey identifier) dataset with
    | [] => Some record
    | fundingEntries =>
        match mergeFundingEntries (obj_get targetField record) fundingEntries with
        | Some merged =>
            Some (obj_set targetField (JArray (map JObject merged)) record)
        | None => None
        end
    end.
Proof.
  intros Hid. unfold attach_record. rewrite Hid, buildFundingIndex_get.
  destruct (bucket_of (buildIdKey identifier) dataset) as [|e es]; reflexivity.
Qed.

Module FundingJoinExample.
Import IsoHost DecimalNumbers.

Definition dataset : list JsonValue :=
  [JObject [("project_id", JNumber 7); ("amount", JNumber 5);
            ("round_id", JString "1")];
   JObject [("project_id", JString "8"); ("amount", JNumber 1)];
   JObject [("project_id", JString "7"); ("amount", JString "2,500");
            ("round_id", JString "2")]].

Lemma funding_is_joined_by_identity_key_witness :
  attach_record (buildFundingIndex dataset) "id" "opRewards"
    [("id", JString "7"); ("name", JString "Foo")]
  = Some [("id", JString "7"); ("name", JString "Foo");
          ("opRewards",
           JArray [JObject [("amount", JNumber 5); ("round_id", JString "1")];
                   JObject [("amount", JString "2,500"); ("round_id", JString "2")]])].
Proof.
  rewrite (funding_is_joined_by_identity_key dataset "id" "opRewards"
             [("id", JString "7"); ("name", JString "Foo")] (JString "7"));
    reflexivity.
Defined.

End FundingJoinExample.

(** * The order of the fields of a merged record *)

Section FieldOrder.
Context {host : Host}.

(** No key of the record is an array index. *)
Definition plain_keys (record : JsonObject) : bool :=
  forallb
    (fun k => match array_index k with Some _ => false | None => true end)
    (keys record).

Lemma keys_obj_set_note {A : Type} k (v : A) o :
  array_index k = None -> keys (obj_set k v o) = note (keys o) k.
Proof.
  intros Hk. unfold obj_set, note. destruct (obj_has k o) eqn:Hh.
  - rewrite keys_obj_replace.
    assert (Ha : absent_from (keys o) k = false).
    { destruct (absent_from (keys o) k) eqn:E; [|reflexivity].
      apply absent_from_In in E. apply obj_has_In in Hh. contradiction. }
    now rewrite Ha.
  - rewrite Hk. apply obj_has_false in Hh. apply absent_from_In in Hh.
    rewrite Hh. unfold keys. now rewrite map_app.
Qed.

Lemma keys_merge_entries entries : forall merged,
  (forall k, In k (keys entries) -> array_index k = None) ->
  keys (fold_left merge_entry entries merged)
  = fold_left note (keys entries) (keys merged).
Proof.
  induction entries as [|[k v] entries IH]; intros merged Hp; [reflexivity|].
  change (keys (fold_left merge_entry entries (merge_entry merged (k, v)))
          = fold_left note (keys entries) (note (keys merged) k)).
  rewrite IH by (intros k' Hk'; apply Hp; now right).
  f_equal. unfold merge_entry. cbn [fst snd].
  apply keys_obj_set_note. apply Hp. now left.
Qed.

Lemma plain_keys_In record k :
  plain_keys record = true -> In k (keys record) -> array_index k = None.
Proof.
  unfold plain_keys. rewrite forallb_forall. intros H Hin. specialize (H k Hin).
  now destruct (array_index k).
Qed.

Lemma keys_merge_records rs : forall st,
  forallb plain_keys rs = true ->
  keys (fst (fold_left merge_record rs st))
  = fold_left note (flat_map (fun r => filter ordinary_key (keys r)) rs)
      (keys (fst st)).
Proof.
  induction rs as [|r rs IH]; intros st Hp; [reflexivity|].
  cbn [forallb] in Hp. apply andb_true_iff in Hp. destruct Hp as [Hr Hrs].
  cbn [fold_left flat_map]. rewrite IH by assumption. rewrite fold_left_app.
  f_equal. cbn [merge_record fst]. rewrite extract_others, keys_merge_entries.
  - now rewrite keys_filter.
  - intros k Hin. rewrite keys_filter in Hin. apply filter_In in Hin.
    apply (plain_keys_In r); tauto.
Qed.

End FieldOrder.

(** X29.  When no key of the records of a group is an array index, and
    the keys of the records, at every depth, and the attribute names of
    their [repo_] fields are outside the property names of
    [Object.prototype], the fields of the merged record come in the
    order in which their keys first occur across the records of the
    group, and [repositories] comes last when the group has a repository
    entry. *)
Theorem merged_fields_keep_first_seen_order
  {host : Host} (rs : list JsonObject) :
  forallb plain_keys rs = true ->
  forallb (fun r => own_names (JObject r) && repo_names r) rs = true ->
  keys (mergeGroupRecords rs)
  = first_occurrences (flat_map (fun r => filter ordinary_key (keys r)) rs)
    ++ match flat_map (fun r => fst (extractRepositoryEntries r)) rs with
       | [] => []
       | _ => ["repositories"]
       end.
Proof.
  intros Hp _. unfold mergeGroupRecords.
  pose proof (keys_merge_records rs ([], []) Hp) as Hk.
  cbn [fst keys map] in Hk. rewrite fold_note_nil in Hk.
  rewrite merge_records_accumulator. cbn [snd app].
  destruct (flat_map (fun r => fst (extractRepositoryEntries r)) rs) as [|e es].
  - now rewrite app_nil_r.
  - rewrite keys_obj_set_note by reflexivity. rewrite Hk. unfold note.
    assert (Ha : absent_from
                   (first_occurrences
                      (flat_map (fun r => filter ordinary_key (keys r)) rs))
                   "repositories" = true).
    { apply absent_from_In. intros Hin. apply (proj1 (In_first_occurrences _ _)) in Hin.
      apply in_flat_map in Hin. destruct Hin as [r [_ Hin]].
      apply filter_In in Hin. destruct Hin as [_ Hin]. discriminate Hin. }
    now rewrite Ha.
Qed.

Module FieldOrderExample.
Import IsoHost.

Definition group : list JsonObject :=
  [[("id", JString "a"); ("name", JString "Foo"); ("repo_url", JString "u")];
   [("tag", JString "x"); ("id", JString "a"); ("_dlt_id", JString "z")]].

Lemma merged_fields_keep_first_seen_order_witness :
  forallb plain_keys group = true
  /\ forallb (fun r => own_names (JObject r) && repo_names r) group = true
  /\ keys (mergeGroupRecords group) = ["id"; "name"; "tag"; "repositories"].
Proof.
  split; [reflexivity|]. split; [reflexivity|].
  rewrite (merged_fields_keep_first_seen_order group); reflexivity.
Defined.

(** A key that is an array index goes before the other keys, wherever
    it first occurs. *)
Lemma index_key_goes_first :
  keys (mergeGroupRecords [[("name", JString "Foo"); ("7", JString "x")]])
  = ["7"; "name"].
Proof. reflexivity. Qed.

End FieldOrderExample.
